(** * normalizr: normalization and denormalization of schema-described
    object graphs.

    A shallow embedding of the traversal engine ([normalize.ts],
    [denormalize.ts], [schemas/Entity.ts], [schemas/Object.ts],
    [schemas/Array.ts], [schemas/Polymorphic.ts], [schemas/Union.ts],
    [schemas/Values.ts], [utils/immutable.ts], [utils/hasOwn.ts]) and the
    properties of it that the specification states.

    Scope of the model.
    - JavaScript values are [undefined], [null], booleans, integer numbers,
      strings and references to heap objects.  Fractional numbers, NaN,
      bigints, symbols and function values are not modelled.
    - A heap object is a plain object, an array, or an immutable-style
      container (the external collaborator of [utils/immutable.ts]).
      Objects carry their own data properties only: the prototype chain is
      not modelled, so a property read finds own properties (and the
      [length] and indices of arrays and strings) and nothing else.
    - User callbacks (id functions, discriminators, dynamic schema
      functions, process / merge / fallback strategies) are total functions
      that read the heap; the three strategies also return the objects they
      allocate.  Callbacks that throw or that mutate existing objects are
      outside the model.
    - The recursion of [visit] and [unvisit] is unbounded in the source; it
      is tied here with a fuel argument, and a computation that runs out of
      fuel is [Diverge]. *)

From Stdlib Require Import ZArith Ascii String.
From stdpp Require Import base numbers list strings gmap pretty.

Local Open Scope string_scope.
Local Open Scope Z_scope.
Local Open Scope list_scope.

#[local] Set Warnings "-register-all".

(* ===================================================================== *)
(** ** Values and heap objects *)
(* ===================================================================== *)

Definition loc := nat.

Inductive value :=
| VUndefined
| VNull
| VBool (b : bool)
| VNumber (n : Z)
| VString (s : string)
| VObject (l : loc).
Arguments VObject l%_nat.

#[global] Instance value_eq_dec : EqDecision value.
Proof. solve_decision. Defined.

(** [a === b] on the modelled values: primitives by content, objects by
    reference. *)
Definition strict_eq (a b : value) : bool := bool_decide (a = b).

Inductive obj :=
| OPlain (props : list (string * value))
| OArray (elems : list value)
| OImmutable (entries : list (string * value)).

#[global] Instance obj_eq_dec : EqDecision obj.
Proof. solve_decision. Defined.

Definition heap := list obj.

Definition typeof (v : value) : string :=
  match v with
  | VUndefined => "undefined"
  | VNull => "object"
  | VBool _ => "boolean"
  | VNumber _ => "number"
  | VString _ => "string"
  | VObject _ => "object"
  end.

(** [typeof v === 'object' && v !== null]. *)
Definition is_object (v : value) : bool :=
  match v with VObject _ => true | _ => false end.

(** [v === undefined || v === null], also written [v == null]. *)
Definition is_nullish (v : value) : bool :=
  match v with VUndefined | VNull => true | _ => false end.

(** JavaScript truthiness ([!!v]). *)
Definition truthy (v : value) : bool :=
  match v with
  | VUndefined | VNull => false
  | VBool b => b
  | VNumber n => negb (n =? 0)
  | VString s => negb (String.eqb s EmptyString)
  | VObject _ => true
  end.

(** The double-quote character, for the messages that quote a name. *)
Definition dquote : string := String (ascii_of_nat 34) EmptyString.

(** [ToString], as used by template literals and by property keys.
    Every object prints as a plain object does; the joined elements that
    JavaScript prints for an array are not reproduced. *)
Definition to_key (v : value) : string :=
  match v with
  | VUndefined => "undefined"
  | VNull => "null"
  | VBool true => "true"
  | VBool false => "false"
  | VNumber n => pretty n
  | VString s => s
  | VObject _ => "[object Object]"
  end.

(* --------------------------------------------------------------------- *)
(** *** Property lists *)

Section assoc.
Context {A : Type}.

Fixpoint assoc_get (k : string) (ps : list (string * A)) : option A :=
  match ps with
  | [] => None
  | (k', v) :: ps' => if String.eqb k k' then Some v else assoc_get k ps'
  end.

(** Assignment [o[k] = v]: an existing key keeps its position, a new key
    goes last. *)
Fixpoint assoc_set (k : string) (v : A) (ps : list (string * A))
  : list (string * A) :=
  match ps with
  | [] => [(k, v)]
  | (k', v') :: ps' =>
      if String.eqb k k' then (k, v) :: ps' else (k', v') :: assoc_set k v ps'
  end.

(** [delete o[k]]. *)
Fixpoint assoc_del (k : string) (ps : list (string * A)) : list (string * A) :=
  match ps with
  | [] => []
  | (k', v') :: ps' =>
      if String.eqb k k' then assoc_del k ps' else (k', v') :: assoc_del k ps'
  end.

Definition assoc_has (k : string) (ps : list (string * A)) : bool :=
  match assoc_get k ps with Some _ => true | None => false end.
End assoc.

(** Array indices: the canonical decimal strings below [2^32 - 1].  They
    are enumerated first, in ascending order, by [Object.keys]. *)
Definition digit_of (a : ascii) : option N :=
  let n := N_of_ascii a in
  if ((48 <=? n) && (n <=? 57))%N then Some (n - 48)%N else None.

Fixpoint parse_dec (s : string) (acc : N) : option N :=
  match s with
  | EmptyString => Some acc
  | String a s' =>
      match digit_of a with
      | Some d => parse_dec s' (acc * 10 + d)%N
      | None => None
      end
  end.

Definition array_index (s : string) : option N :=
  match s with
  | EmptyString => None
  | _ =>
      match parse_dec s 0%N with
      | Some n =>
          if String.eqb (pretty n) s && (n <? 4294967295)%N then Some n else None
      | None => None
      end
  end.

Section entries.
Context {A : Type}.

Fixpoint insert_index (n : N) (e : string * A) (l : list (N * (string * A)))
  : list (N * (string * A)) :=
  match l with
  | [] => [(n, e)]
  | (m, e') :: l' =>
      if (n <? m)%N then (n, e) :: l else (m, e') :: insert_index n e l'
  end.

Fixpoint index_entries (ps : list (string * A)) : list (N * (string * A)) :=
  match ps with
  | [] => []
  | (k, v) :: ps' =>
      match array_index k with
      | Some n => insert_index n (k, v) (index_entries ps')
      | None => index_entries ps'
      end
  end.

Definition named_entries (ps : list (string * A)) : list (string * A) :=
  filter (λ e, array_index e.1 = None) ps.

(** The own enumerable entries of an object in the order of
    [Object.keys]: integer-like keys ascending, then the others in
    insertion order. *)
Definition own_entries (ps : list (string * A)) : list (string * A) :=
  (snd <$> index_entries ps) ++ named_entries ps.
End entries.

Fixpoint indexed_from (i : nat) (vs : list value) : list (string * value) :=
  match vs with
  | [] => []
  | v :: vs' => (pretty (N.of_nat i), v) :: indexed_from (S i) vs'
  end.

Fixpoint chars_of (s : string) : list value :=
  match s with
  | EmptyString => []
  | String a s' => VString (String a EmptyString) :: chars_of s'
  end.

(** The own enumerable entries of any value, as the spread [{...v}] and
    [Object.keys(v)] see them.  The own fields of the immutable-style
    container are internals of the external library and are not modelled. *)
Definition spread_props (h : heap) (v : value) : list (string * value) :=
  match v with
  | VString s => indexed_from 0 (chars_of s)
  | VObject l =>
      match h !! l with
      | Some (OPlain ps) => own_entries ps
      | Some (OArray vs) => indexed_from 0 vs
      | _ => []
      end
  | _ => []
  end.

(** [{...a, ...b}] on entry lists. *)
Definition spread_onto (a b : list (string * value)) : list (string * value) :=
  foldl (λ acc e, assoc_set e.1 e.2 acc) a b.

(** An own-property read [v[k]] on a value that is not [undefined] or
    [null]; a missing property reads [undefined]. *)
Definition nth_prop (vs : list value) (k : string) : value :=
  if String.eqb k "length" then VNumber (Z.of_nat (length vs))
  else match array_index k with
       | Some n => default VUndefined (vs !! N.to_nat n)
       | None => VUndefined
       end.

Definition get_prop (h : heap) (v : value) (k : string) : value :=
  match v with
  | VString s => nth_prop (chars_of s) k
  | VObject l =>
      match h !! l with
      | Some (OPlain ps) => default VUndefined (assoc_get k ps)
      | Some (OArray vs) => nth_prop vs k
      | _ => VUndefined
      end
  | _ => VUndefined
  end.

(** [Object.hasOwn(v, k)] / [hasOwnProperty.call(v, k)] on a value that is
    not [undefined] or [null]. *)
Definition has_own (h : heap) (v : value) (k : string) : bool :=
  match v with
  | VString s =>
      String.eqb k "length" ||
      match array_index k with
      | Some n => bool_decide (N.to_nat n < length (chars_of s))%nat
      | None => false
      end
  | VObject l =>
      match h !! l with
      | Some (OPlain ps) => assoc_has k ps
      | Some (OArray vs) =>
          String.eqb k "length" ||
          match array_index k with
          | Some n => bool_decide (N.to_nat n < length vs)%nat
          | None => false
          end
      | _ => false
      end
  | _ => false
  end.

(** The assignment [o[k] = v] on an object reference.  Writing an index
    past the end of an array, or a named property on an array or on the
    immutable-style container, is not modelled and leaves the heap as it
    is. *)
Definition set_prop (h : heap) (l : loc) (k : string) (v : value) : heap :=
  match h !! l with
  | Some (OPlain ps) => <[l := OPlain (assoc_set k v ps)]> h
  | Some (OArray vs) =>
      match array_index k with
      | Some n => <[l := OArray (<[N.to_nat n := v]> vs)]> h
      | None => h
      end
  | _ => h
  end.

Definition del_prop (h : heap) (l : loc) (k : string) : heap :=
  match h !! l with
  | Some (OPlain ps) => <[l := OPlain (assoc_del k ps)]> h
  | _ => h
  end.

(* ===================================================================== *)
(** ** Computations: per-call state, errors, fuel *)
(* ===================================================================== *)

(** The state of one call.  [st_visited] is the [visitedEntities] tracker
    of a normalize call (type, then id, then the input references already
    processed); [st_cache] and [st_inProgress] are the [cache] and
    [inProgress] of [createEagerUnvisit].  All three are private to the
    call and never escape; the objects a caller can see live in
    [st_heap]. *)
Record state := State {
  st_heap : heap;
  st_visited : gmap string (gmap string (list value));
  st_cache : gmap string (gmap string value);
  st_inProgress : gset string
}.

Definition with_heap (h : heap) (s : state) : state :=
  State h (st_visited s) (st_cache s) (st_inProgress s).
Definition with_visited (v : gmap string (gmap string (list value)))
  (s : state) : state :=
  State (st_heap s) v (st_cache s) (st_inProgress s).
Definition with_cache (c : gmap string (gmap string value)) (s : state)
  : state :=
  State (st_heap s) (st_visited s) c (st_inProgress s).
Definition with_inProgress (p : gset string) (s : state) : state :=
  State (st_heap s) (st_visited s) (st_cache s) p.

(** [Error] is [new Error(message)] thrown by the library; [TypeError] is
    raised by the host on a property access or method call that is not
    possible. *)
Inductive error :=
| Error (message : string)
| TypeError (message : string).

Inductive outcome (A : Type) :=
| Ok (a : A) (s : state)
| Throw (e : error) (s : state)
| Diverge.
Arguments Ok {A} a s.
Arguments Throw {A} e s.
Arguments Diverge {A}.

Definition M (A : Type) := state → outcome A.

(** What a caller of [normalize] or [denormalize] observes: the trackers
    of the call are gone, the heap remains. *)
Inductive answer (A : Type) :=
| Returned (a : A) (h : heap)
| Thrown (e : error) (h : heap)
| OutOfFuel.
Arguments Returned {A} a h.
Arguments Thrown {A} e h.
Arguments OutOfFuel {A}.

Definition run {A} (m : M A) (h : heap) : answer A :=
  match m (State h ∅ ∅ ∅) with
  | Ok a s => Returned a (st_heap s)
  | Throw e s => Thrown e (st_heap s)
  | Diverge => OutOfFuel
  end.

Definition ret {A} (a : A) : M A := λ s, Ok a s.

Definition bind {A B} (m : M A) (k : A → M B) : M B :=
  λ s, match m s with
       | Ok a s' => k a s'
       | Throw e s' => Throw e s'
       | Diverge => Diverge
       end.

Definition throw {A} (e : error) : M A := λ s, Throw e s.

Notation "'let*' x ':=' m 'in' k" := (bind m (λ x, k))
  (at level 10, x name, m at level 100, k at level 200).
Notation "'do*' m 'in' k" := (bind m (λ _, k))
  (at level 10, m at level 100, k at level 200).

Definition get_heap : M heap := λ s, Ok (st_heap s) s.
Definition put_heap (h : heap) : M unit := λ s, Ok tt (with_heap h s).

(** Allocation of a fresh object: its reference is the next free
    location. *)
Definition alloc (o : obj) : M value :=
  λ s, Ok (VObject (List.length (st_heap s))) (with_heap (st_heap s ++ [o]) s).

(** A user strategy reads the heap, allocates the objects it returns in
    its first component, and yields its second component. *)
Definition strategy := heap → list obj * value.

Definition call_strategy (f : strategy) : M value :=
  λ s, let r := f (st_heap s) in Ok r.2 (with_heap (st_heap s ++ r.1) s).

Fixpoint mapM {A B} (f : A → M B) (l : list A) : M (list B) :=
  match l with
  | [] => ret []
  | x :: l' => let* y := f x in let* ys := mapM f l' in ret (y :: ys)
  end.

Fixpoint forM_ {A} (f : A → M unit) (l : list A) : M unit :=
  match l with
  | [] => ret tt
  | x :: l' => do* f x in forM_ f l'
  end.

Fixpoint foldM {A B} (f : B → A → M B) (acc : B) (l : list A) : M B :=
  match l with
  | [] => ret acc
  | x :: l' => let* acc' := f acc x in foldM f acc' l'
  end.

(** Host operations that fail on [undefined] and [null]. *)
Definition nullish_name (v : value) : string :=
  match v with VNull => "null" | _ => "undefined" end.

Definition read_prop (v : value) (k : string) : M value :=
  if is_nullish v then
    throw (TypeError ("Cannot read properties of " +:+ nullish_name v +:+
                      " (reading '" +:+ k +:+ "')"))
  else let* h := get_heap in ret (get_prop h v k).

Definition to_object_error : error :=
  TypeError "Cannot convert undefined or null to object".

(** [hasOwn(obj, key)] of [utils/hasOwn.ts]: [Object.hasOwn], which
    converts its first argument to an object and so fails on [undefined]
    and [null]. *)
Definition hasOwn (v : value) (k : string) : M bool :=
  if is_nullish v then throw to_object_error
  else let* h := get_heap in ret (has_own h v k).

(** [Object.keys(v).map(k => [k, v[k]])]. *)
Definition own_entries_of (v : value) : M (list (string * value)) :=
  if is_nullish v then throw to_object_error
  else let* h := get_heap in ret (spread_props h v).

(** [{...v}]: a fresh plain object with the own entries of [v]. *)
Definition spread (v : value) : M value :=
  let* h := get_heap in alloc (OPlain (spread_props h v)).

Definition assign (o : value) (k : string) (v : value) : M unit :=
  match o with
  | VObject l => let* h := get_heap in put_heap (set_prop h l k v)
  | VUndefined | VNull =>
      throw (TypeError ("Cannot set properties of " +:+ nullish_name o +:+
                        " (setting '" +:+ k +:+ "')"))
  | _ => ret tt
  end.

Definition delete (o : value) (k : string) : M unit :=
  match o with
  | VObject l => let* h := get_heap in put_heap (del_prop h l k)
  | _ => ret tt
  end.

(* ===================================================================== *)
(** ** The schema model ([types.ts]) *)
(* ===================================================================== *)

(** A [Schema] is an instance of a schema class (held in the schema table
    and named by its index, so that [define] can build cyclic graphs), the
    array shorthand [[S]], the object shorthand [{k: S}], or a dynamic
    schema function of the parent value. *)
Inductive Schema :=
| SClass (sid : nat)
| SArray (elems : list Schema)
| SObject (fields : list (string * Schema))
| SFunction (f : heap → value → Schema).
Arguments SClass sid%_nat.

Definition SchemaDefinition := list (string * Schema).

Inductive IdAttribute :=
| IdString (attr : string)
| IdFunction (f : heap → value → value → option string → value).

Inductive SchemaAttribute :=
| AttrString (attr : string)
| AttrFunction (f : heap → value → value → string → value).

(** [EntitySchema] of [schemas/Entity.ts].  The [schemaRef] argument that
    the source passes to the fallback strategy is the schema itself; a
    strategy given here as a function already knows its schema. *)
Record EntitySchema := {
  key : string;
  idAttribute : IdAttribute;
  mergeStrategy : value → value → strategy;
  processStrategy : value → value → option string → strategy;
  fallbackStrategy : value → strategy;
  definition : SchemaDefinition
}.

(** [PolymorphicSchema] of [schemas/Polymorphic.ts]: the base of
    [ArraySchema], [ValuesSchema] and [UnionSchema]. *)
Record PolymorphicSchema := {
  p_schema : Schema;
  schemaAttribute : option SchemaAttribute
}.

Inductive SchemaClass :=
| CEntity (e : EntitySchema)
| CObject (d : SchemaDefinition)
| CArray (p : PolymorphicSchema)
| CValues (p : PolymorphicSchema)
| CUnion (p : PolymorphicSchema).

Definition schema_table := list SchemaClass.

(** The normalization context types. *)
Definition VisitFn := value → value → option string → option Schema → M value.
Definition AddEntityFn :=
  EntitySchema → value → value → value → option string → M unit.
Definition UnvisitFn := value → option Schema → M value.

(* ===================================================================== *)
(** ** [utils/immutable.ts] *)
(* ===================================================================== *)

(** [isImmutable]: structural detection.  The immutable-style container
    is detected, and so is any plain object that carries an own
    [__ownerID] (or a truthy [_map] carrying one) different from
    [undefined]. *)
Definition isImmutable (h : heap) (v : value) : bool :=
  match v with
  | VObject l =>
      match h !! l with
      | Some (OImmutable _) => true
      | Some (OPlain _) =>
          negb (strict_eq (get_prop h v "__ownerID") VUndefined)
          || (truthy (get_prop h v "_map")
              && negb (strict_eq (get_prop h (get_prop h v "_map") "__ownerID")
                         VUndefined))
      | _ => false
      end
  | _ => false
  end.

(** The narrow capability of the external container: [get], [has], [set]
    by key, [getIn] by path and [map] over its values.  [set] returns a new
    instance.  A value that is not the container has no such methods, and
    calling one is a host [TypeError]. *)
Definition not_a_function (method : string) : error :=
  TypeError (method +:+ " is not a function").

Definition imm_entries (method : string) (v : value)
  : M (list (string * value)) :=
  let* h := get_heap in
  match v with
  | VObject l =>
      match h !! l with
      | Some (OImmutable es) => ret es
      | _ => throw (not_a_function method)
      end
  | _ => throw (not_a_function method)
  end.

Definition imm_get (v : value) (k : string) : M value :=
  let* es := imm_entries "get" v in ret (default VUndefined (assoc_get k es)).

Definition imm_has (v : value) (k : string) : M bool :=
  let* es := imm_entries "has" v in ret (assoc_has k es).

Definition imm_set (v : value) (k : string) (x : value) : M value :=
  let* es := imm_entries "set" v in alloc (OImmutable (assoc_set k x es)).

Definition imm_getIn (v : value) (k1 k2 : string) : M value :=
  let* es := imm_entries "getIn" v in
  let* h := get_heap in
  match assoc_get k1 es with
  | Some (VObject l) =>
      match h !! l with
      | Some (OImmutable es') => ret (default VUndefined (assoc_get k2 es'))
      | Some (OPlain ps) => ret (default VUndefined (assoc_get k2 ps))
      | _ => ret VUndefined
      end
  | _ => ret VUndefined
  end.

(** Does the value carry a [map] method ([typeof v.map === 'function'])?
    Arrays do, and so does the container. *)
Definition has_map (h : heap) (v : value) : bool :=
  match v with
  | VObject l =>
      match h !! l with
      | Some (OArray _) | Some (OImmutable _) => true
      | _ => false
      end
  | _ => false
  end.

(** [v.map(f)] for a value with [has_map]. *)
Definition map_method (f : value → M value) (v : value) : M value :=
  let* h := get_heap in
  match v with
  | VObject l =>
      match h !! l with
      | Some (OArray vs) => let* ws := mapM f vs in alloc (OArray ws)
      | Some (OImmutable es) =>
          let* ws := mapM (λ e, let* w := f e.2 in ret (e.1, w)) es in
          alloc (OImmutable ws)
      | _ => throw (not_a_function "map")
      end
  | _ => throw (not_a_function "map")
  end.

(** [denormalizeImmutable(schema, input, unvisit)]. *)
Definition denormalizeImmutable (schema : SchemaDefinition) (input : value)
  (unvisit : UnvisitFn) : M value :=
  foldM (λ object e,
           let* present := imm_has object e.1 in
           if present : bool then
             let* old := imm_get object e.1 in
             let* new := unvisit old (Some e.2) in
             imm_set object e.1 new
           else ret object)
        input (own_entries schema).

(* ===================================================================== *)
(** ** [schemas/Entity.ts] *)
(* ===================================================================== *)

Module Entity.

(** The defaults of the constructor's options. *)
Definition default_mergeStrategy (entityA entityB : value) : strategy :=
  λ h, ([OPlain (spread_onto (spread_props h entityA) (spread_props h entityB))],
        VObject (length h)).

Definition default_processStrategy (input _parent : value)
  (_key : option string) : strategy :=
  λ h, ([OPlain (spread_props h input)], VObject (length h)).

Definition default_fallbackStrategy (_id : value) : strategy :=
  λ h, ([], VUndefined).

Record EntityOptions := {
  opt_idAttribute : option IdAttribute;
  opt_mergeStrategy : option (value → value → strategy);
  opt_processStrategy : option (value → value → option string → strategy);
  opt_fallbackStrategy : option (value → strategy)
}.

Definition no_options : EntityOptions :=
  {| opt_idAttribute := None; opt_mergeStrategy := None;
     opt_processStrategy := None; opt_fallbackStrategy := None |}.

(** [define(definition)]: the declared fields are merged into the
    existing ones, key by key. *)
Definition define (e : EntitySchema) (d : SchemaDefinition) : EntitySchema :=
  {| key := key e; idAttribute := idAttribute e;
     mergeStrategy := mergeStrategy e; processStrategy := processStrategy e;
     fallbackStrategy := fallbackStrategy e;
     definition :=
       foldl (λ acc f, assoc_set f.1 f.2 acc) (definition e) (own_entries d) |}.

(** The constructor.  It fails on an empty key; otherwise the options
    take their defaults and the definition is installed by [define]. *)
Definition init (k : string) (options : EntityOptions) : EntitySchema :=
  {| key := k;
     idAttribute := default (IdString "id") (opt_idAttribute options);
     mergeStrategy :=
       default default_mergeStrategy (opt_mergeStrategy options);
     processStrategy :=
       default default_processStrategy (opt_processStrategy options);
     fallbackStrategy :=
       default default_fallbackStrategy (opt_fallbackStrategy options);
     definition := [] |}.

Definition new (k : string) (d : SchemaDefinition) (options : EntityOptions)
  : error + EntitySchema :=
  if String.eqb k EmptyString then
    inl (Error ("Expected a string key for Entity, but found " +:+ k +:+ "."))
  else inr (define (init k options) d).

(** [getDefaultGetId] and [getId]. *)
Definition getId (e : EntitySchema) (input parent : value)
  (k : option string) : M value :=
  let* h := get_heap in
  match idAttribute e with
  | IdFunction f => ret (f h input parent k)
  | IdString attr =>
      if isImmutable h input then imm_get input attr else read_prop input attr
  end.

Definition merge (e : EntitySchema) (existingEntity newEntity : value)
  : M value :=
  call_strategy (mergeStrategy e existingEntity newEntity).

Definition fallback (e : EntitySchema) (id : value) : M value :=
  call_strategy (fallbackStrategy e id).

Definition is_array (h : heap) (v : value) : bool :=
  match v with
  | VObject l => match h !! l with Some (OArray _) => true | _ => false end
  | _ => false
  end.

(** The kind of a rejected input, as the message of [validate] names it. *)
Definition received (h : heap) (input : value) : string :=
  match input with
  | VNull => "null"
  | _ => if is_array h input then "an array" else typeof input
  end.

Definition validate_message (k : string) (kind : string) : string :=
  "Expected an object for entity " +:+ dquote +:+ k +:+ dquote +:+
  ", but received " +:+ kind +:+ ".".

Definition validate (e : EntitySchema) (input : value) : M value :=
  let* h := get_heap in
  if strict_eq input VNull || negb (String.eqb (typeof input) "object")
     || is_array h input
  then throw (Error (validate_message (key e) (received h input)))
  else ret input.

(** The [visitedEntities] bookkeeping of [normalize]. *)
Definition ensure_visited (entityType id : string) : M unit :=
  λ s,
    let v := st_visited s in
    let v1 := match v !! entityType with
              | Some _ => v
              | None => <[entityType := ∅]> v
              end in
    let bucket := default ∅ (v1 !! entityType) in
    let v2 := match bucket !! id with
              | Some _ => v1
              | None => <[entityType := <[id := []]> bucket]> v1
              end in
    Ok tt (with_visited v2 s).

Definition visited_refs (entityType id : string) : M (list value) :=
  λ s, Ok (default [] (default ∅ (st_visited s !! entityType) !! id)) s.

Definition push_visited (entityType id : string) (ref : value) : M unit :=
  λ s,
    let v := st_visited s in
    let bucket := default ∅ (v !! entityType) in
    let refs := default [] (bucket !! id) in
    Ok tt (with_visited (<[entityType := <[id := refs ++ [ref]]> bucket]> v) s).

Definition resolve (h : heap) (parent : value) (s : Schema) : Schema :=
  match s with
  | SFunction f => f h parent
  | _ => s
  end.

Definition normalize (e : EntitySchema) (input parent : value)
  (k : option string) (visit : VisitFn) (addEntity : AddEntityFn) : M value :=
  let* typedInput := validate e input in
  let* id := getId e typedInput parent k in
  let entityType := key e in
  do* ensure_visited entityType (to_key id) in
  let* refs := visited_refs entityType (to_key id) in
  if existsb (λ entity, strict_eq entity typedInput) refs then ret id
  else
    do* push_visited entityType (to_key id) typedInput in
    let* processedEntity :=
      call_strategy (processStrategy e typedInput parent k) in
    do* forM_ (λ f : string * Schema,
                 let schemaKey := f.1 in
                 let* own := hasOwn processedEntity schemaKey in
                 let* field := read_prop processedEntity schemaKey in
                 if own && String.eqb (typeof field) "object" then
                   let* h := get_heap in
                   let resolvedSchema := resolve h typedInput f.2 in
                   let* v := visit field processedEntity (Some schemaKey)
                               (Some resolvedSchema) in
                   assign processedEntity schemaKey v
                 else ret tt)
              (own_entries (definition e)) in
    do* addEntity e processedEntity typedInput parent k in
    ret id.

Definition denormalize (e : EntitySchema) (entity : value)
  (unvisit : UnvisitFn) : M value :=
  let* h := get_heap in
  if isImmutable h entity then denormalizeImmutable (definition e) entity unvisit
  else
    do* forM_ (λ f : string * Schema,
                 let schemaKey := f.1 in
                 let* own := hasOwn entity schemaKey in
                 if own : bool then
                   let* field := read_prop entity schemaKey in
                   let* v := unvisit field (Some f.2) in
                   assign entity schemaKey v
                 else ret tt)
              (own_entries (definition e)) in
    ret entity.

End Entity.

(* ===================================================================== *)
(** ** [schemas/Object.ts] *)
(* ===================================================================== *)

Module ObjectUtils.

(** [normalize(schema, input, parent, key, visit, ...)] for the shorthand
    [{k: S}] and for [ObjectSchema]. *)
Definition normalize (schema : SchemaDefinition) (input _parent : value)
  (_key : option string) (visit : VisitFn) : M value :=
  let* object := spread input in
  do* forM_ (λ f : string * Schema,
               let schemaKey := f.1 in
               let* h := get_heap in
               let resolvedLocalSchema := Entity.resolve h input f.2 in
               let* field := read_prop input schemaKey in
               let* v := visit field input (Some schemaKey)
                           (Some resolvedLocalSchema) in
               if is_nullish v then delete object schemaKey
               else assign object schemaKey v)
            (own_entries schema) in
  ret object.

Definition denormalize (schema : SchemaDefinition) (input : value)
  (unvisit : UnvisitFn) : M value :=
  let* h := get_heap in
  if isImmutable h input then denormalizeImmutable schema input unvisit
  else
    let* object := spread input in
    do* forM_ (λ f : string * Schema,
                 let schemaKey := f.1 in
                 let* field := read_prop object schemaKey in
                 if is_nullish field then ret tt
                 else
                   let* v := unvisit field (Some f.2) in
                   assign object schemaKey v)
              (own_entries schema) in
    ret object.

(** [ObjectSchema.define]. *)
Definition define (d0 d : SchemaDefinition) : SchemaDefinition :=
  foldl (λ acc f, assoc_set f.1 f.2 acc) d0 (own_entries d).

End ObjectUtils.

(* ===================================================================== *)
(** ** [schemas/Array.ts] *)
(* ===================================================================== *)

Module ArrayUtils.

Definition arity_message (n : nat) : string :=
  "Expected schema definition to be a single schema, but found " +:+
  pretty (N.of_nat n) +:+ ".".

(** [validateSchema(definition)]: the single element of the shorthand, or
    [undefined] when the shorthand is empty. *)
Definition validateSchema (d : Schema) : M (option Schema) :=
  match d with
  | SArray elems =>
      if bool_decide (1 < length elems)%nat
      then throw (Error (arity_message (length elems)))
      else ret (head elems)
  | _ => ret (Some d)
  end.

(** [getValues(input)]: the elements of an array, the values of any other
    object. *)
Definition getValues (input : value) : M (list value) :=
  let* h := get_heap in
  match input with
  | VObject l =>
      match h !! l with
      | Some (OArray vs) => ret vs
      | _ => let* es := own_entries_of input in ret (snd <$> es)
      end
  | _ => let* es := own_entries_of input in ret (snd <$> es)
  end.

Definition normalize (schema : Schema) (input parent : value)
  (k : option string) (visit : VisitFn) : M value :=
  let* validatedSchema := validateSchema schema in
  let* values := getValues input in
  let* out := mapM (λ v, visit v parent k validatedSchema) values in
  alloc (OArray out).

Definition denormalize (schema : Schema) (input : value)
  (unvisit : UnvisitFn) : M value :=
  let* validatedSchema := validateSchema schema in
  let* h := get_heap in
  if truthy input && has_map h input
  then map_method (λ entityOrId, unvisit entityOrId validatedSchema) input
  else ret input.

End ArrayUtils.

(* ===================================================================== *)
(** ** [schemas/Polymorphic.ts], [Union.ts], [Values.ts], [ArraySchema] *)
(* ===================================================================== *)

Module Polymorphic.

(** The constructor keeps the discriminator only when it is truthy: the
    empty attribute name counts as none. *)
Definition new (d : Schema) (attr : option SchemaAttribute)
  : PolymorphicSchema :=
  {| p_schema := d;
     schemaAttribute :=
       match attr with
       | Some (AttrString EmptyString) => None
       | _ => attr
       end |}.

Definition isSingleSchema (p : PolymorphicSchema) : bool :=
  match schemaAttribute p with None => true | Some _ => false end.

Definition call_schemaAttribute (a : SchemaAttribute) (input parent : value)
  (k : string) : M value :=
  match a with
  | AttrString attr => read_prop input attr
  | AttrFunction f => let* h := get_heap in ret (f h input parent k)
  end.

(** [getSchemaAttribute]: [false] for a single schema, the discriminator's
    answer otherwise. *)
Definition getSchemaAttribute (p : PolymorphicSchema) (input parent : value)
  (k : string) : M value :=
  match schemaAttribute p with
  | None => ret (VBool false)
  | Some a => call_schemaAttribute a input parent k
  end.

(** The read [mapping[attr]] on a schema used as a mapping. *)
Definition mapping_lookup (d : Schema) (attr : string) : option Schema :=
  match d with
  | SObject fields => assoc_get attr fields
  | SArray elems =>
      match array_index attr with
      | Some n => elems !! N.to_nat n
      | None => None
      end
  | _ => None
  end.

Definition inferSchema (p : PolymorphicSchema) (input parent : value)
  (k : string) : M (option Schema) :=
  if isSingleSchema p then ret (Some (p_schema p))
  else
    let* attr := getSchemaAttribute p input parent k in
    if strict_eq attr (VBool false) then ret None
    else ret (mapping_lookup (p_schema p) (to_key attr)).

Definition normalizeValue (p : PolymorphicSchema) (v parent : value)
  (k : string) (visit : VisitFn) : M value :=
  let* schema := inferSchema p v parent k in
  match schema with
  | None => ret v
  | Some _ =>
      let* normalizedValue := visit v parent (Some k) schema in
      if isSingleSchema p || is_nullish normalizedValue
      then ret normalizedValue
      else
        let* attr := getSchemaAttribute p v parent k in
        alloc (OPlain [("id", normalizedValue); ("schema", attr)])
  end.

(** The optional read [v?.k]. *)
Definition optional_prop (h : heap) (v : value) (k : string) : value :=
  if is_nullish v then VUndefined else get_prop h v k.

Definition denormalizeValue (p : PolymorphicSchema) (v : value)
  (unvisit : UnvisitFn) : M value :=
  let* h := get_heap in
  let* schemaKey :=
    if isImmutable h v then imm_get v "schema"
    else ret (optional_prop h v "schema") in
  if negb (isSingleSchema p) && negb (truthy schemaKey) then ret v
  else
    let* id :=
      if isSingleSchema p then ret VUndefined
      else if isImmutable h v then imm_get v "id"
      else ret (optional_prop h v "id") in
    let schema :=
      if isSingleSchema p then Some (p_schema p)
      else mapping_lookup (p_schema p) (to_key schemaKey) in
    unvisit (if is_nullish id then v else id) schema.

End Polymorphic.

Module Union.

(** The constructor requires a discriminator. *)
Definition new (d : Schema) (attr : option SchemaAttribute)
  : error + PolymorphicSchema :=
  match attr with
  | None | Some (AttrString EmptyString) =>
      inl (Error ("Expected option " +:+ dquote +:+ "schemaAttribute" +:+
                  dquote +:+ " not found on UnionSchema."))
  | _ => inr (Polymorphic.new d attr)
  end.

Definition normalize (p : PolymorphicSchema) (input parent : value)
  (k : option string) (visit : VisitFn) : M value :=
  Polymorphic.normalizeValue p input parent (default EmptyString k) visit.

Definition denormalize (p : PolymorphicSchema) (input : value)
  (unvisit : UnvisitFn) : M value :=
  Polymorphic.denormalizeValue p input unvisit.

End Union.

Module Values.

Definition normalize (p : PolymorphicSchema) (input _parent : value)
  (_key : option string) (visit : VisitFn) : M value :=
  let* es := own_entries_of input in
  let* output :=
    foldM (λ output (e : string * value),
             if is_nullish e.2 then ret output
             else
               let* v := Polymorphic.normalizeValue p e.2 input e.1 visit in
               ret (assoc_set e.1 v output))
          [] es in
  alloc (OPlain output).

Definition denormalize (p : PolymorphicSchema) (input : value)
  (unvisit : UnvisitFn) : M value :=
  let* es := own_entries_of input in
  let* output :=
    foldM (λ output (e : string * value),
             let* v := Polymorphic.denormalizeValue p e.2 unvisit in
             ret (assoc_set e.1 v output))
          [] es in
  alloc (OPlain output).

End Values.

Module ArraySchema.

Definition normalize (p : PolymorphicSchema) (input parent : value)
  (k : option string) (visit : VisitFn) : M value :=
  let* values := ArrayUtils.getValues input in
  let* out :=
    mapM (λ v, Polymorphic.normalizeValue p v parent (default EmptyString k) visit)
         values in
  alloc (OArray (filter (λ v, is_nullish v = false) out)).

Definition denormalize (p : PolymorphicSchema) (input : value)
  (unvisit : UnvisitFn) : M value :=
  let* h := get_heap in
  if truthy input && has_map h input
  then map_method (λ v, Polymorphic.denormalizeValue p v unvisit) input
  else ret input.

End ArraySchema.

(* ===================================================================== *)
(** ** [normalize.ts] *)
(* ===================================================================== *)

(** One unfolding of [visit], with the recursive occurrence as a
    parameter.  A schema that is [undefined] (or a reference outside the
    schema table) is neither a schema class nor an array, so it is handed
    to [ObjectUtils.normalize], whose [Object.keys] fails on it; a dynamic
    schema function met here is an object with no keys. *)
Definition visit_body (T : schema_table) (addEntity : AddEntityFn)
  (visit : VisitFn) : VisitFn :=
  λ v parent k schema,
    if negb (String.eqb (typeof v) "object") || strict_eq v VNull then ret v
    else
      match schema with
      | Some (SArray elems) =>
          ArrayUtils.normalize (SArray elems) v parent k visit
      | Some (SObject fields) => ObjectUtils.normalize fields v parent k visit
      | Some (SFunction _) => ObjectUtils.normalize [] v parent k visit
      | Some (SClass sid) =>
          match T !! sid with
          | Some (CEntity e) => Entity.normalize e v parent k visit addEntity
          | Some (CObject d) => ObjectUtils.normalize d v parent k visit
          | Some (CArray p) => ArraySchema.normalize p v parent k visit
          | Some (CValues p) => Values.normalize p v parent k visit
          | Some (CUnion p) => Union.normalize p v parent k visit
          | None => do* spread v in throw to_object_error
          end
      | None => do* spread v in throw to_object_error
      end.

Fixpoint visit (fuel : nat) (T : schema_table) (addEntity : AddEntityFn)
  : VisitFn :=
  match fuel with
  | O => λ _ _ _ _ _, Diverge
  | S n => visit_body T addEntity (visit n T addEntity)
  end.

(** [addEntities(entities)]: the store builder bound to one store. *)
Definition addEntities (entities : value) : AddEntityFn :=
  λ schema processedEntity v parent k,
    let schemaKey := key schema in
    let* id := Entity.getId schema v parent k in
    let* known := hasOwn entities schemaKey in
    do* (if known : bool then ret tt
         else let* bucket := alloc (OPlain []) in
              assign entities schemaKey bucket) in
    let* bucket := read_prop entities schemaKey in
    let* present := hasOwn bucket (to_key id) in
    if present : bool then
      let* existingEntity := read_prop bucket (to_key id) in
      let* merged := Entity.merge schema existingEntity processedEntity in
      assign bucket (to_key id) merged
    else assign bucket (to_key id) processedEntity.

Record NormalizedSchema := {
  entities : value;
  result : value
}.

Definition unexpected_input_message (found : string) : string :=
  "Unexpected input given to normalize. Expected type to be " +:+ dquote +:+
  "object" +:+ dquote +:+ ", found " +:+ dquote +:+ found +:+ dquote +:+ ".".

Definition normalize_in (fuel : nat) (T : schema_table) (input : value)
  (schema : Schema) : M NormalizedSchema :=
  if negb (truthy input) || negb (String.eqb (typeof input) "object") then
    throw (Error (unexpected_input_message
                    (if strict_eq input VNull then "null" else typeof input)))
  else
    let* store := alloc (OPlain []) in
    let* res := visit fuel T (addEntities store) input input None
                  (Some schema) in
    ret {| entities := store; result := res |}.

(** [normalize(input, schema)], run on the caller's heap with a fresh
    [visitedEntities]. *)
Definition normalize (fuel : nat) (T : schema_table) (input : value)
  (schema : Schema) (h : heap) : answer NormalizedSchema :=
  run (normalize_in fuel T input schema) h.

(* ===================================================================== *)
(** ** [denormalize.ts] *)
(* ===================================================================== *)

Definition GetEntityFn := value → EntitySchema → M value.

(** [getEntities(entities)].  Whether the store is immutable-style is
    decided once, when the getter is created. *)
Definition getEntities (h0 : heap) (store : value) : GetEntityFn :=
  let isImmutableEntities := isImmutable h0 store in
  λ entityOrId schema,
    let schemaKey := key schema in
    if String.eqb (typeof entityOrId) "object" then ret entityOrId
    else if isImmutableEntities then
      if is_nullish entityOrId then
        throw (TypeError "Cannot read properties of undefined (reading 'toString')")
      else imm_getIn store schemaKey (to_key entityOrId)
    else
      let* known := hasOwn store schemaKey in
      if negb known then ret VUndefined
      else
        let* entityStore := read_prop store schemaKey in
        let* present := hasOwn entityStore (to_key entityOrId) in
        if negb present then ret VUndefined
        else read_prop entityStore (to_key entityOrId).

(** The [cache] and [inProgress] bookkeeping of [unvisitEntity]. *)
Definition ensure_cache (k : string) : M unit :=
  λ s, match st_cache s !! k with
       | Some _ => Ok tt s
       | None => Ok tt (with_cache (<[k := ∅]> (st_cache s)) s)
       end.

Definition cache_has (k id : string) : M bool :=
  λ s, Ok (bool_decide (is_Some (default ∅ (st_cache s !! k) !! id))) s.

Definition cache_get (k id : string) : M value :=
  λ s, Ok (default VUndefined (default ∅ (st_cache s !! k) !! id)) s.

Definition cache_set (k id : string) (v : value) : M unit :=
  λ s, Ok tt (with_cache
                (<[k := <[id := v]> (default ∅ (st_cache s !! k))]> (st_cache s))
                s).

Definition inProgress_has (token : string) : M bool :=
  λ s, Ok (bool_decide (token ∈ st_inProgress s)) s.

Definition inProgress_add (token : string) : M unit :=
  λ s, Ok tt (with_inProgress ({[token]} ∪ st_inProgress s) s).

Definition inProgress_delete (token : string) : M unit :=
  λ s, Ok tt (with_inProgress (st_inProgress s ∖ {[token]}) s).

Definition circular_message (k id : string) : string :=
  "Circular reference detected for Immutable.js entity " +:+ dquote +:+ k +:+
  dquote +:+ " with ID " +:+ dquote +:+ id +:+ dquote +:+ ". " +:+
  "Circular references are not supported with Immutable.js.".

Definition unvisitEntity (id : value) (schema : EntitySchema)
  (unvisit : UnvisitFn) (getEntity : GetEntityFn) : M value :=
  let* found := getEntity id schema in
  let* entity :=
    if strict_eq found VUndefined then Entity.fallback schema id
    else ret found in
  if negb (String.eqb (typeof entity) "object") || strict_eq entity VNull
  then ret entity
  else
    do* ensure_cache (key schema) in
    let cacheKey := key schema +:+ ":" +:+ to_key id in
    let* cyclic := inProgress_has cacheKey in
    let* h := get_heap in
    if cyclic : bool then
      if isImmutable h entity then
        throw (Error (circular_message (key schema) (to_key id)))
      else cache_get (key schema) (to_key id)
    else
      let* done := cache_has (key schema) (to_key id) in
      if done : bool then cache_get (key schema) (to_key id)
      else
        do* inProgress_add cacheKey in
        let* entityCopy :=
          if isImmutable h entity then ret entity else spread entity in
        do* cache_set (key schema) (to_key id) entityCopy in
        let* denormalized := Entity.denormalize schema entityCopy unvisit in
        do* cache_set (key schema) (to_key id) denormalized in
        do* inProgress_delete cacheKey in
        cache_get (key schema) (to_key id).

(** What [ObjectUtils.denormalize] does with a schema that is
    [undefined]: [Object.keys] fails on it, after the copy of a plain
    input has been made. *)
Definition denormalize_undefined (input : value) : M value :=
  let* h := get_heap in
  if isImmutable h input then throw to_object_error
  else do* spread input in throw to_object_error.

(** One unfolding of the [unvisit] closure of [createEagerUnvisit]. *)
Definition unvisit_body (T : schema_table) (getEntity : GetEntityFn)
  (unvisit : UnvisitFn) : UnvisitFn :=
  λ input schema,
    match schema with
    | Some (SArray elems) => ArrayUtils.denormalize (SArray elems) input unvisit
    | Some (SObject fields) => ObjectUtils.denormalize fields input unvisit
    | Some (SFunction _) => ObjectUtils.denormalize [] input unvisit
    | Some (SClass sid) =>
        match T !! sid with
        | Some c =>
            if is_nullish input then ret input
            else
              match c with
              | CEntity e => unvisitEntity input e unvisit getEntity
              | CObject d => ObjectUtils.denormalize d input unvisit
              | CArray p => ArraySchema.denormalize p input unvisit
              | CValues p => Values.denormalize p input unvisit
              | CUnion p => Union.denormalize p input unvisit
              end
        | None => denormalize_undefined input
        end
    | None => denormalize_undefined input
    end.

Fixpoint unvisit (fuel : nat) (T : schema_table) (getEntity : GetEntityFn)
  : UnvisitFn :=
  match fuel with
  | O => λ _ _ _, Diverge
  | S n => unvisit_body T getEntity (unvisit n T getEntity)
  end.

Definition denormalize_in (fuel : nat) (T : schema_table) (input : value)
  (schema : Schema) (store : value) : M value :=
  if String.eqb (typeof input) "undefined" then ret input
  else
    let* h := get_heap in
    unvisit fuel T (getEntities h store) input (Some schema).

(** [denormalize(input, schema, entities)] with the default eager
    resolution, run on the caller's heap with a fresh [cache] and
    [inProgress]. *)
Definition denormalize (fuel : nat) (T : schema_table) (input : value)
  (schema : Schema) (store : value) (h : heap) : answer value :=
  run (denormalize_in fuel T input schema store) h.

(* ===================================================================== *)
(** ** Deep equality *)
(* ===================================================================== *)

(** Structural comparison of two values in one heap: identical values are
    equal; two arrays are equal when they have the same length and equal
    elements; two objects when they have the same property names and equal
    values under each name, whatever the order; an [undefined] property is
    not the same as a missing one.  The comparison descends at most [fuel]
    levels. *)
Fixpoint deep_equal (fuel : nat) (h : heap) (a b : value) : bool :=
  match fuel with
  | O => false
  | S n =>
      strict_eq a b ||
      match a, b with
      | VObject la, VObject lb =>
          let same_entries (ps qs : list (string * value)) :=
            forallb (λ e, match assoc_get e.1 qs with
                          | Some w => deep_equal n h e.2 w
                          | None => false
                          end) ps
            && forallb (λ e, assoc_has e.1 ps) qs in
          match h !! la, h !! lb with
          | Some (OArray xs), Some (OArray ys) =>
              bool_decide (length xs = length ys)
              && forallb (λ p, deep_equal n h p.1 p.2) (zip xs ys)
          | Some (OPlain ps), Some (OPlain qs) => same_entries ps qs
          | Some (OImmutable ps), Some (OImmutable qs) => same_entries ps qs
          | _, _ => false
          end
      | _, _ => false
      end
  end.

Definition DeepEqual (h : heap) (a b : value) : Prop :=
  ∃ fuel, deep_equal fuel h a b = true.

(* ===================================================================== *)
(** ** The worked examples of the specification *)
(* ===================================================================== *)

Module Examples.

(** [new schema.Entity(k, d)] with the default options. *)
Definition entity (k : string) (d : SchemaDefinition) : EntitySchema :=
  Entity.define (Entity.init k Entity.no_options) d.

(** README, "Circular References":
    [const user = new schema.Entity('users'); user.define({friends: [user]})]
    and [const input = {id: '1', name: 'Alice', friends: []};
    input.friends.push(input)]. *)
Definition user : EntitySchema :=
  Entity.define (entity "users" []) [("friends", SArray [SClass 0])].

Definition user_table : schema_table := [CEntity user].

Definition alice_heap : heap :=
  [ OPlain [("id", VString "1"); ("name", VString "Alice");
            ("friends", VObject 1)];
    OArray [VObject 0] ].

(** The heap after [normalize(input, user)]: the store at 2, its [users]
    bucket at 5, the stored record at 3 and its [friends] list at 4. *)
Definition alice_normalized : heap :=
  alice_heap ++
  [ OPlain [("users", VObject 5)];
    OPlain [("id", VString "1"); ("name", VString "Alice");
            ("friends", VObject 4)];
    OArray [VString "1"];
    OPlain [("1", VObject 3)] ].

(** The heap after [denormalize('1', user, entities)]: the output at 6 and
    its [friends] list at 7. *)
Definition alice_denormalized : heap :=
  alice_normalized ++
  [ OPlain [("id", VString "1"); ("name", VString "Alice");
            ("friends", VObject 7)];
    OArray [VObject 6] ].

(** The merge test of [Entity.test.ts]:
    [normalize([{id: 1, name: 'foo'}, {id: 1, name: 'bar', alias: 'bar'}],
    [new schema.Entity('tacos')])]. *)
Definition taco_table : schema_table := [CEntity (entity "tacos" [])].

Definition taco_heap : heap :=
  [ OArray [VObject 1; VObject 2];
    OPlain [("id", VNumber 1); ("name", VString "foo")];
    OPlain [("id", VNumber 1); ("name", VString "bar");
            ("alias", VString "bar")] ].

Definition taco_normalized : heap :=
  taco_heap ++
  [ OPlain [("tacos", VObject 5)];
    OPlain [("id", VNumber 1); ("name", VString "foo")];
    OPlain [("1", VObject 7)];
    OPlain [("id", VNumber 1); ("name", VString "bar");
            ("alias", VString "bar")];
    OPlain [("id", VNumber 1); ("name", VString "bar");
            ("alias", VString "bar")];
    OArray [VNumber 1; VNumber 1] ].

(** The polymorphic example: [new schema.Union({user: userSchema,
    group: groupSchema}, 'type')] and the input [{id: 1, type: 'user'}]. *)
Definition union_schema : PolymorphicSchema :=
  Polymorphic.new (SObject [("user", SClass 1); ("group", SClass 2)])
    (Some (AttrString "type")).

Definition union_table : schema_table :=
  [CUnion union_schema; CEntity (entity "users" []);
   CEntity (entity "groups" [])].

Definition union_heap : heap :=
  [ OPlain [("id", VNumber 1); ("type", VString "user")] ].

(** The heap after normalizing the union example: the store at 1, its
    [users] bucket at 3, the stored record at 2 and the tagged result at
    4. *)
Definition union_normalized : heap :=
  union_heap ++
  [ OPlain [("users", VObject 3)];
    OPlain [("id", VNumber 1); ("type", VString "user")];
    OPlain [("1", VObject 2)];
    OPlain [("id", VNumber 1); ("schema", VString "user")] ].

(** A nested array where an entity is expected:
    [normalize([[]], [new schema.Entity('users')])]. *)
Definition nested_array_heap : heap := [ OArray [VObject 1]; OArray [] ].

(** An Array schema whose mapping has an entry under the empty key and
    whose discriminator function answers the empty string:
    [new schema.Array({'': user}, () => '')], and the input [[{id: 1}]]. *)
Definition empty_key_array : PolymorphicSchema :=
  Polymorphic.new (SObject [(EmptyString, SClass 1)])
    (Some (AttrFunction (λ _ _ _ _, VString EmptyString))).

Definition empty_key_table : schema_table :=
  [CArray empty_key_array; CEntity (entity "users" [])].

Definition one_user_heap : heap :=
  [ OArray [VObject 1]; OPlain [("id", VNumber 1)] ].

(** The array test of [Array.test.ts]:
    [normalize([{id: 1}], [catSchema, userSchema])]. *)
Definition two_schema_table : schema_table :=
  [CEntity (entity "cats" []); CEntity (entity "users" [])].

(** A tag whose schema key the Union does not map:
    [denormalize({id: 1, schema: 'nope'}, union, {})]. *)
Definition unmapped_tag_heap : heap :=
  [ OPlain [("id", VNumber 1); ("schema", VString "nope")]; OPlain [] ].

(** The fallback test of [Entity.test.ts]: users are missing from the
    store and are synthesized as [{userId: id, name: 'John Doe'}]. *)
Definition fallback_user : EntitySchema :=
  Entity.define
    (Entity.init "users"
       {| Entity.opt_idAttribute := Some (IdString "userId");
          Entity.opt_mergeStrategy := None;
          Entity.opt_processStrategy := None;
          Entity.opt_fallbackStrategy :=
            Some (λ id h, ([OPlain [("userId", id);
                                     ("name", VString "John Doe")]],
                           VObject (length h))) |})
    [].

Definition report_table : schema_table :=
  [ CEntity (entity "reports"
               [("draftedBy", SClass 1); ("publishedBy", SClass 1)]);
    CEntity fallback_user ].

Definition report_heap : heap :=
  [ OPlain [("reports", VObject 1); ("users", VObject 2)];
    OPlain [("123", VObject 3)];
    OPlain [];
    OPlain [("id", VString "123"); ("title", VString "Weekly report");
            ("draftedBy", VString "456"); ("publishedBy", VString "456")] ].

(** After [denormalize('123', report, entities)]: the report at 4, the
    synthesized user at 5 and its working copy at 6, a second synthesized
    user at 7 that is discarded in favour of the cached copy. *)
Definition report_denormalized : heap :=
  report_heap ++
  [ OPlain [("id", VString "123"); ("title", VString "Weekly report");
            ("draftedBy", VObject 6); ("publishedBy", VObject 6)];
    OPlain [("userId", VString "456"); ("name", VString "John Doe")];
    OPlain [("userId", VString "456"); ("name", VString "John Doe")];
    OPlain [("userId", VString "456"); ("name", VString "John Doe")] ].

(** A cyclic user held in an immutable-style record:
    [users['1'] = Map({id: 1, friends: [1]})]. *)
Definition immutable_cycle_heap : heap :=
  [ OPlain [("users", VObject 1)];
    OPlain [("1", VObject 2)];
    OImmutable [("id", VNumber 1); ("friends", VObject 3)];
    OArray [VNumber 1] ].

(** A list of ids and an empty store:
    [denormalize([1], [catSchema, userSchema], {})]. *)
Definition id_list_heap : heap := [ OArray [VNumber 1]; OPlain [] ].

(** A declared field holding [null]:
    [normalize({user: null}, {user: userSchema})]. *)
Definition null_field_heap : heap := [ OPlain [("user", VNull)] ].

(** Two entity types whose cache tokens collide: a draft ['7'] of type
    ['post:draft'] and its parent post ['draft:7'] of type ['post'] both
    give the token ['post:draft:7'].  The heap holds the normalized
    result [{x: '7', y: 'draft:7'}] (object 0) and the store
    [{'post:draft': {'7': {id: '7', parent: 'draft:7'}},
      post: {'draft:7': {id: 'draft:7'}}}] (object 1). *)
Definition collision_table : schema_table :=
  [ CEntity (entity "post:draft" [("parent", SClass 1)]);
    CEntity (entity "post" []) ].

Definition collision_schema : Schema :=
  SObject [("x", SClass 0); ("y", SClass 1)].

Definition collision_heap : heap :=
  [ OPlain [("x", VString "7"); ("y", VString "draft:7")];
    OPlain [("post:draft", VObject 2); ("post", VObject 3)];
    OPlain [("7", VObject 4)];
    OPlain [("draft:7", VObject 5)];
    OPlain [("id", VString "7"); ("parent", VString "draft:7")];
    OPlain [("id", VString "draft:7")] ].

(** The nested input that normalizes to [collision_heap]'s data:
    [{x: {id: '7', parent: P}, y: P}] with [P = {id: 'draft:7'}]. *)
Definition collision_input : heap :=
  [ OPlain [("x", VObject 1); ("y", VObject 2)];
    OPlain [("id", VString "7"); ("parent", VObject 2)];
    OPlain [("id", VString "draft:7")] ].

End Examples.

(* ===================================================================== *)
(** * The vocabulary of the properties *)
(* ===================================================================== *)

(** ** Outcomes of a computation *)

(** [wp m Q E s]: run from [s], [m] ends in a state and value satisfying
    [Q], or throws an error and state satisfying [E], or runs out of
    fuel. *)
Definition wp {A} (m : M A) (Q : A → state → Prop) (E : error → state → Prop)
  (s : state) : Prop :=
  match m s with
  | Ok a s' => Q a s'
  | Throw e s' => E e s'
  | Diverge => True
  end.

(** [keeps I m s]: [m] re-establishes [I] however it ends. *)
Definition keeps {A} (I : state → Prop) (m : M A) (s : state) : Prop :=
  wp m (λ _, I) (λ _, I) s.

(** Operations that leave the heap as it is: the reads, and the updates
    of the trackers. *)
Definition heap_stable {A} (m : M A) : Prop :=
  ∀ s, match m s with
       | Ok _ s' | Throw _ s' => st_heap s' = st_heap s
       | Diverge => True
       end.

(** [returns m Q s]: run from [s], [m] returns a value and a state that
    satisfy [Q]. *)
Definition returns {A} (m : M A) (Q : A → state → Prop) (s : state) : Prop :=
  match m s with
  | Ok a s' => Q a s'
  | _ => False
  end.

(** An operation that cannot throw at all. *)
Definition total {A} (m : M A) : Prop :=
  ∀ s, match m s with Throw _ _ => False | _ => True end.

(** [throws_only P m]: whatever the state, an error thrown by [m]
    satisfies [P]. *)
Definition throws_only {A} (P : error → Prop) (m : M A) : Prop :=
  ∀ s, wp m (λ _ _, True) (λ e _, P e) s.

(** The errors that can abort the traversal of a normalize call. *)
Definition normalize_error (e : error) : Prop :=
  (∃ k kind, e = Error (Entity.validate_message k kind))
  ∨ (∃ n, e = Error (ArrayUtils.arity_message n))
  ∨ (∃ m, e = TypeError m).

(** The errors that can abort a denormalize call. *)
Definition denormalize_error (e : error) : Prop :=
  (∃ k id, e = Error (circular_message k id))
  ∨ (∃ n, e = Error (ArrayUtils.arity_message n))
  ∨ (∃ m, e = TypeError m).

(** ** Heaps that only grow *)

(** The heap of [s] is the heap [h0] followed by newer objects: every
    object of [h0] is where it was and as it was. *)
Definition grows_from (h0 : heap) (s : state) : Prop :=
  h0 `prefix_of` st_heap s.

(** [frame_on P h h']: the heap grew, and the objects at the locations
    that satisfy [P] are as they were. *)
Definition frame_on (P : loc → Prop) (h h' : heap) : Prop :=
  (length h ≤ length h')%nat
  ∧ ∀ l : loc, (l < length h)%nat → P l → h' !! l = h !! l.

(** The caller's objects, at the locations of [h0], are as they were. *)
Definition below (h0 h : heap) : Prop :=
  ∀ l : loc, (l < length h0)%nat → h !! l = h0 !! l.

(** ** Plain objects *)

(** A plain object that does not look like the immutable-style
    container. *)
Definition not_immutable_like (ps : list (string * value)) : Prop :=
  default VUndefined (assoc_get "__ownerID" ps) = VUndefined
  ∧ truthy (default VUndefined (assoc_get "_map" ps)) = false.

(** [plain_keys ks]: none of the names [ks] is one of those that make a
    plain object look immutable-style. *)
Definition plain_keys (ks : list string) : Prop :=
  ("__ownerID" ∉ ks) ∧ ("_map" ∉ ks).

(** ** Inputs that conform to a schema *)

(** The part of an input that a schema describes, as a finite tree.  A
    leaf is any value, kept by reference; an array or object node is an
    array or plain object of the heap that the schema looks into. *)
Inductive tree :=
| TLeaf (v : value)
| TArr (ts : list tree)
| TObj (ps : list (string * tree)).

(** The number of nested nodes of a tree, which bounds the fuel that a
    traversal needs. *)
Fixpoint depth (t : tree) : nat :=
  match t with
  | TLeaf _ => O
  | TArr ts => S (fold_right (λ t n, Nat.max (depth t) n) O ts)
  | TObj ps => S (fold_right (λ p n, Nat.max (depth p.2) n) O ps)
  end.

(** [repr_from n h t v]: in the heap [h] the value [v] unfolds to the
    tree [t], through nodes at locations from [n] on.  A leaf is a value
    kept as it is; an object node has exactly the properties of the tree,
    in any order. *)
Inductive repr_from (n : nat) (h : heap) : tree → value → Prop :=
| repr_leaf v : repr_from n h (TLeaf v) v
| repr_arr (l : loc) vs ts :
    (n ≤ l)%nat →
    h !! l = Some (OArray vs) →
    Forall2 (repr_from n h) ts vs →
    repr_from n h (TArr ts) (VObject l)
| repr_obj (l : loc) qs ps :
    (n ≤ l)%nat →
    h !! l = Some (OPlain qs) →
    NoDup qs.*1 →
    qs.*1 ≡ₚ ps.*1 →
    Forall (λ p, ∃ v, assoc_get p.1 qs = Some v ∧ repr_from n h p.2 v) ps →
    repr_from n h (TObj ps) (VObject l).

(** [repr h t v]: the same, through nodes anywhere in the heap. *)
Definition repr (h : heap) : tree → value → Prop := repr_from 0 h.

(** An entity id that survives the round trip: a primitive other than
    [undefined] and [null]. *)
Definition id_ok (v : value) : Prop :=
  is_object v = false ∧ is_nullish v = false.

(** The cache token of an entity occurrence. *)
Definition token (kid : string * string) : string :=
  kid.1 +:+ ":" +:+ kid.2.

(** [fields_conform R fields ps idss]: the properties [ps] of an object
    node answer the declared [fields].  Property names are not repeated
    and none looks immutable-style; a declared field that is present
    holds a node that conforms (by [R]) to its schema, with the entities
    listed in the matching element of [idss]; a property that no field
    declares is a leaf. *)
Definition fields_conform (R : Schema → tree → list (string * string) → Prop)
  (fields : SchemaDefinition) (ps : list (string * tree))
  (idss : list (list (string * string))) : Prop :=
  NoDup fields.*1
  ∧ NoDup ps.*1
  ∧ plain_keys ps.*1
  ∧ Forall2 (λ d ids,
               (∀ tf, assoc_get d.1 ps = Some tf → R d.2 tf ids)
               ∧ (assoc_get d.1 ps = None → ids = []))
            (own_entries fields) idss
  ∧ Forall (λ p, assoc_get p.1 fields = None → ∃ v, p.2 = TLeaf v) ps.

(** [conf T s t ids]: the tree [t] has the shape that the schema [s]
    describes, and [ids] lists the (type, id) of the entity occurrences
    in it.  The schemas are entities with the default [processStrategy]
    and a string [idAttribute], under which the entity holds a primitive
    id; shorthand arrays of one element schema; object shorthands and
    Object schemas. *)
Inductive conf (T : schema_table)
  : Schema → tree → list (string * string) → Prop :=
| conf_entity sid e attr ps idv idss :
    T !! sid = Some (CEntity e) →
    idAttribute e = IdString attr →
    processStrategy e = Entity.default_processStrategy →
    plain_keys [key e] →
    assoc_get attr ps = Some (TLeaf idv) →
    id_ok idv →
    fields_conform (conf T) (definition e) ps idss →
    conf T (SClass sid) (TObj ps) ((key e, to_key idv) :: concat idss)
| conf_array s1 ts idss :
    Forall2 (conf T s1) ts idss →
    conf T (SArray [s1]) (TArr ts) (concat idss)
| conf_object fields ps idss :
    fields_conform (conf T) fields ps idss →
    conf T (SObject fields) (TObj ps) (concat idss)
| conf_object_class sid fields ps idss :
    T !! sid = Some (CObject fields) →
    fields_conform (conf T) fields ps idss →
    conf T (SClass sid) (TObj ps) (concat idss).

(** ** The store as the normalizer builds it *)

(** [store_get h E k i]: the record under type [k] and id [i] in the
    store object [E]. *)
Definition store_get (h : heap) (E : loc) (k i : string) : option value :=
  match h !! E with
  | Some (OPlain buckets) =>
      match assoc_get k buckets with
      | Some (VObject b) =>
          match h !! b with
          | Some (OPlain records) => assoc_get i records
          | _ => None
          end
      | _ => None
      end
  | _ => None
  end.

(** The objects the store builder writes to after their creation: the
    store and its buckets. *)
Definition is_store (h : heap) (E l : loc) : Prop :=
  l = E ∨ ∃ k, get_prop h (VObject E) k = VObject l.

(** The store is a plain object whose properties are buckets: plain
    objects created after it, one per entity type, under names that do
    not look immutable-style. *)
Definition store_ok (h : heap) (E : loc) : Prop :=
  ∃ buckets,
    h !! E = Some (OPlain buckets)
    ∧ plain_keys buckets.*1
    ∧ ∀ k v, assoc_get k buckets = Some v →
        ∃ b records,
          v = VObject b ∧ (E < b)%nat ∧ h !! b = Some (OPlain records)
          ∧ ∀ k', assoc_get k' buckets = Some (VObject b) → k' = k.

(** The store and its buckets are in [h'] as they are in [h]. *)
Definition store_same (E : loc) (h h' : heap) : Prop :=
  ∀ l, is_store h E l → h' !! l = h !! l.

(** How the heap changes over a visit: it grows; an object other than
    the store and its buckets stays other than them, and stays as it is
    when [P] holds of its location; stored records stay. *)
Definition evolves_on (P : loc → Prop) (E : loc) (h h' : heap) : Prop :=
  (length h ≤ length h')%nat
  ∧ (∀ l : loc, (l < length h)%nat → ¬ is_store h E l →
          ¬ is_store h' E l ∧ (P l → h' !! l = h !! l))
  ∧ (∀ k i v, store_get h E k i = Some v → store_get h' E k i = Some v).

(** The same, with every object other than the store and its buckets as
    it was. *)
Definition evolves : loc → heap → heap → Prop := evolves_on (λ _, True).

(** The references recorded as visited for a (type, id). *)
Definition visited_of (s : state) (k i : string) : list value :=
  default [] (default ∅ (st_visited s !! k) !! i).

(** The instance cached for a (type, id). *)
Definition cached_of (s : state) (k i : string) : option value :=
  default ∅ (st_cache s !! k) !! i.

(** [fields_stored R fields ps rs]: the record [rs] has the property
    names of the node [ps]; under a declared field that is present it
    holds the normalized form (by [R]) of the field's tree, and under
    any other name the leaf itself. *)
Definition fields_stored (R : Schema → tree → value → Prop)
  (fields : SchemaDefinition) (ps : list (string * tree))
  (rs : list (string * value)) : Prop :=
  NoDup rs.*1
  ∧ rs.*1 ≡ₚ ps.*1
  ∧ Forall (λ d, ∀ tf, assoc_get d.1 ps = Some tf →
                       ∃ v, assoc_get d.1 rs = Some v ∧ R d.2 tf v)
           (own_entries fields)
  ∧ Forall (λ p, assoc_get p.1 fields = None →
                 ∃ v, p.2 = TLeaf v ∧ assoc_get p.1 rs = Some v) ps.

(** [stored T n h E s t r]: in the heap [h], [r] is the normalized form
    of the tree [t] under the schema [s]: an entity is its id, with its
    record in the store [E]; an array or object is a copy holding the
    normalized forms.  Records and copies are at locations from [n] on
    and are other than the store and its buckets. *)
Inductive stored (T : schema_table) (n : nat) (h : heap) (E : loc)
  : Schema → tree → value → Prop :=
| stored_entity sid e ps idv (rl : loc) rs :
    T !! sid = Some (CEntity e) →
    (∀ attr, idAttribute e = IdString attr →
             assoc_get attr ps = Some (TLeaf idv)) →
    store_get h E (key e) (to_key idv) = Some (VObject rl) →
    (n ≤ rl)%nat →
    ¬ is_store h E rl →
    h !! rl = Some (OPlain rs) →
    fields_stored (stored T n h E) (definition e) ps rs →
    stored T n h E (SClass sid) (TObj ps) idv
| stored_array s1 ts (l : loc) vs :
    (n ≤ l)%nat →
    ¬ is_store h E l →
    h !! l = Some (OArray vs) →
    Forall2 (stored T n h E s1) ts vs →
    stored T n h E (SArray [s1]) (TArr ts) (VObject l)
| stored_object fields ps (l : loc) rs :
    (n ≤ l)%nat →
    ¬ is_store h E l →
    h !! l = Some (OPlain rs) →
    fields_stored (stored T n h E) fields ps rs →
    stored T n h E (SObject fields) (TObj ps) (VObject l)
| stored_object_class sid fields ps (l : loc) rs :
    T !! sid = Some (CObject fields) →
    (n ≤ l)%nat →
    ¬ is_store h E l →
    h !! l = Some (OPlain rs) →
    fields_stored (stored T n h E) fields ps rs →
    stored T n h E (SClass sid) (TObj ps) (VObject l).

(** ** What a visit establishes *)

(** No record and no visited reference yet for the entities [ids]. *)
Definition unvisited (E : loc) (ids : list (string * string)) (s : state)
  : Prop :=
  ∀ k i, (k, i) ∈ ids →
         store_get (st_heap s) E k i = None ∧ visited_of s k i = [].

(** The records and visited references of the other entities are as they
    were. *)
Definition same_outside (E : loc) (ids : list (string * string))
  (s s' : state) : Prop :=
  ∀ k i, (k, i) ∉ ids →
         store_get (st_heap s') E k i = store_get (st_heap s) E k i
         ∧ visited_of s' k i = visited_of s k i.

(** After a visit from [s] that returned [r] in [s']. *)
Definition visit_post (T : schema_table) (E : loc) (sch : Schema) (t : tree)
  (ids : list (string * string)) (s : state) (r : value) (s' : state)
  : Prop :=
  evolves E (st_heap s) (st_heap s')
  ∧ store_ok (st_heap s') E
  ∧ same_outside E ids s s'
  ∧ stored T (length (st_heap s)) (st_heap s') E sch t r
  ∧ is_nullish r = false.

(** [visit_spec T h0 E vis d]: on an input of the caller's heap [h0]
    that conforms, through a tree of depth below [d], with entities not
    met before, [vis] returns and establishes [visit_post]. *)
Definition visit_spec (T : schema_table) (h0 : heap) (E : loc)
  (vis : VisitFn) (d : nat) : Prop :=
  ∀ sch t ids v parent k s,
    conf T sch t ids → (depth t < d)%nat → NoDup ids → repr h0 t v →
    below h0 (st_heap s) → store_ok (st_heap s) E → unvisited E ids s →
    ∃ r s', vis v parent k (Some sch) s = Ok r s'
            ∧ visit_post T E sch t ids s r s'.

(** What a schema field [d] asks of the input [ps], with the entities
    [ids] under it. *)
Definition field_conf (T : schema_table) (ps : list (string * tree))
  (d : string * Schema) (ids : list (string * string)) : Prop :=
  (∀ tf, assoc_get d.1 ps = Some tf → conf T d.2 tf ids)
  ∧ (assoc_get d.1 ps = None → ids = []).

(** Before the fields [ds] are processed, the copy [p] has the
    properties [cur], with the values of the input [qs] under [ds]. *)
Definition field_pre (h0 : heap) (E p : loc) (qs : list (string * value))
  (ds : list (string * Schema)) (cur : list (string * value)) (s : state)
  : Prop :=
  st_heap s !! p = Some (OPlain cur)
  ∧ (∀ d, d ∈ ds → assoc_get d.1 cur = assoc_get d.1 qs)
  ∧ ¬ is_store (st_heap s) E p
  ∧ below h0 (st_heap s)
  ∧ store_ok (st_heap s) E.

(** After the fields [ds]: the copy [p] has the same property names,
    the normalized forms under the fields of [ds] that are present, and
    its other properties as before. *)
Definition field_post (T : schema_table) (E p : loc)
  (ps : list (string * tree)) (ds : list (string * Schema))
  (ids : list (string * string)) (cur : list (string * value))
  (s s' : state) : Prop :=
  ∃ cur',
    st_heap s' !! p = Some (OPlain cur')
    ∧ cur'.*1 = cur.*1
    ∧ (∀ k, k ∉ ds.*1 → assoc_get k cur' = assoc_get k cur)
    ∧ (∀ d tf, d ∈ ds → assoc_get d.1 ps = Some tf →
               ∃ v, assoc_get d.1 cur' = Some v
                    ∧ stored T (S p) (st_heap s') E d.2 tf v)
    ∧ evolves_on (λ l, l ≠ p) E (st_heap s) (st_heap s')
    ∧ store_ok (st_heap s') E
    ∧ same_outside E ids s s'.

(** The body of the loop takes one field from [field_pre] to
    [field_post]. *)
Definition field_step (T : schema_table) (h0 : heap) (E p : loc)
  (ps : list (string * tree)) (qs : list (string * value))
  (body : string * Schema → M unit) : Prop :=
  ∀ d ids cur s,
    field_conf T ps d ids → NoDup ids → field_pre h0 E p qs [d] cur s →
    unvisited E ids s →
    ∃ s', body d s = Ok tt s' ∧ field_post T E p ps [d] ids cur s s'.

(** ** What an unvisit establishes *)

(** Nothing cached and nothing in progress yet for the entities [ids]. *)
Definition uncached (ids : list (string * string)) (s : state) : Prop :=
  ∀ k i, (k, i) ∈ ids →
         cached_of s k i = None ∧ token (k, i) ∉ st_inProgress s.

(** The cached instances of the other entities are as they were. *)
Definition cache_same_outside (ids : list (string * string)) (s s' : state)
  : Prop :=
  ∀ k i, (k, i) ∉ ids → cached_of s' k i = cached_of s k i.

(** After an unvisit from [s] that returned [y] in [s']: no object of
    the heap of [s] has changed, and [y] unfolds to the tree through
    new objects only. *)
Definition unvisit_post (t : tree) (ids : list (string * string)) (s : state)
  (y : value) (s' : state) : Prop :=
  frame_on (λ _, True) (st_heap s) (st_heap s')
  ∧ repr_from (length (st_heap s)) (st_heap s') t y
  ∧ st_inProgress s' = st_inProgress s
  ∧ cache_same_outside ids s s'.

(** [unvisit_spec T hD E unv d]: on the normalized form, in the heap
    [hD], of a conforming tree of depth below [d] whose entities have
    pairwise different cache tokens, none cached or in progress, [unv]
    returns and establishes [unvisit_post]. *)
Definition unvisit_spec (T : schema_table) (hD : heap) (E : loc)
  (unv : UnvisitFn) (d : nat) : Prop :=
  ∀ sch t ids r s,
    conf T sch t ids → (depth t < d)%nat → NoDup (token <$> ids) →
    stored T 0 hD E sch t r →
    below hD (st_heap s) → uncached ids s →
    ∃ y s', unv r (Some sch) s = Ok y s' ∧ unvisit_post t ids s y s'.

(** What a schema field [d] asks of the tree [ps] and of its stored
    record [rs]. *)
Definition dfield_conf (T : schema_table) (hD : heap) (E : loc)
  (ps : list (string * tree)) (rs : list (string * value)) (dmax : nat)
  (d : string * Schema) (ids : list (string * string)) : Prop :=
  (∀ tf, assoc_get d.1 ps = Some tf →
         conf T d.2 tf ids ∧ (depth tf < dmax)%nat
         ∧ ∃ v, assoc_get d.1 rs = Some v ∧ stored T 0 hD E d.2 tf v)
  ∧ (assoc_get d.1 ps = None → ids = [] ∧ assoc_get d.1 rs = None).

(** Before the fields [ds] are processed, the copy [c] has the
    properties [cur], with the values of the record [rs] under [ds]. *)
Definition dfield_pre (hD : heap) (c : loc) (rs : list (string * value))
  (ds : list (string * Schema)) (cur : list (string * value)) (s : state)
  : Prop :=
  st_heap s !! c = Some (OPlain cur)
  ∧ (∀ d, d ∈ ds → assoc_get d.1 cur = assoc_get d.1 rs)
  ∧ below hD (st_heap s)
  ∧ (length hD ≤ c)%nat.

(** After the fields [ds]: the copy [c] has the same property names,
    the denormalized values under the fields of [ds] that are present,
    and its other properties as before. *)
Definition dfield_post (c : loc) (ps : list (string * tree))
  (ds : list (string * Schema)) (ids : list (string * string))
  (cur : list (string * value)) (s s' : state) : Prop :=
  ∃ cur',
    st_heap s' !! c = Some (OPlain cur')
    ∧ cur'.*1 = cur.*1
    ∧ (∀ k, k ∉ ds.*1 → assoc_get k cur' = assoc_get k cur)
    ∧ (∀ d tf, d ∈ ds → assoc_get d.1 ps = Some tf →
               ∃ y, assoc_get d.1 cur' = Some y
                    ∧ repr_from (S c) (st_heap s') tf y)
    ∧ frame_on (λ l, l ≠ c) (st_heap s) (st_heap s')
    ∧ st_inProgress s' = st_inProgress s
    ∧ cache_same_outside ids s s'.

(** The body of the loop takes one field from [dfield_pre] to
    [dfield_post]. *)
Definition dfield_step (T : schema_table) (hD : heap) (E c : loc)
  (ps : list (string * tree)) (rs : list (string * value)) (dmax : nat)
  (body : string * Schema → M unit) : Prop :=
  ∀ d ids cur s,
    dfield_conf T hD E ps rs dmax d ids → NoDup (token <$> ids) →
    dfield_pre hD c rs [d] cur s → uncached ids s →
    ∃ s', body d s = Ok tt s' ∧ dfield_post c ps [d] ids cur s s'.

(** ** A conforming input *)

Module RoundTripExample.

(** The example of [normalize.ts]: an article with its author. *)
Definition article_table : schema_table :=
  [ CEntity (Examples.entity "users" []);
    CEntity (Examples.entity "articles" [("author", SClass 0)]) ].

Definition article_heap : heap :=
  [ OPlain [("id", VString "123"); ("title", VString "My Article");
            ("author", VObject 1)];
    OPlain [("id", VString "1"); ("name", VString "Paul")] ].

Definition author_tree : tree :=
  TObj [("id", TLeaf (VString "1")); ("name", TLeaf (VString "Paul"))].

Definition article_tree : tree :=
  TObj [("id", TLeaf (VString "123")); ("title", TLeaf (VString "My Article"));
        ("author", author_tree)].

(** An article whose [author] is an id that no entity of the input
    carries. *)
Definition unresolved_author_heap : heap :=
  [ OPlain [("id", VString "123"); ("author", VString "1")] ].

End RoundTripExample.

(** ** A hand-written store *)

Module StoreExample.

(** [{articles: {'123': {id: '123', title: 'My Article', author: '1'}},
      users: {'1': {id: '1', name: 'Paul'}}}]: the store at 0, its buckets
    at 1 and 2, the records at 3 and 4. *)
Definition article_store : heap :=
  [ OPlain [("articles", VObject 1); ("users", VObject 2)];
    OPlain [("123", VObject 3)];
    OPlain [("1", VObject 4)];
    OPlain [("id", VString "123"); ("title", VString "My Article");
            ("author", VString "1")];
    OPlain [("id", VString "1"); ("name", VString "Paul")] ].

(** The same store with two processed users about to be added: at 5 one
    whose id the store holds, at 6 one whose id it does not. *)
Definition incoming_users : heap :=
  article_store ++
  [ OPlain [("id", VString "1"); ("age", VNumber 30)];
    OPlain [("id", VString "2"); ("name", VString "Nicole")] ].

End StoreExample.

(** ** Normalization and the caller's objects *)

(** Every process strategy of the table answers an object that it has
    just created, as the default strategy (a shallow copy) does, or a
    value that is no object. *)
Definition fresh_process (T : schema_table) : Prop :=
  ∀ sid e, T !! sid = Some (CEntity e) →
    ∀ input parent k h (l : loc),
      (processStrategy e input parent k h).2 = VObject l →
      (length h ≤ l)%nat.

(** [protects P E H s]: in the state [s] of a normalize call with the
    store [E], the objects at the locations [P] exist and are as they are
    in [H]; the store is not one of them, and it holds under every name
    an object that was created after it and is not one of them either. *)
Definition protects (P : loc → Prop) (E : loc) (H : heap) (s : state)
  : Prop :=
  (∀ l : loc, P l → (l < length (st_heap s))%nat ∧ st_heap s !! l = H !! l)
  ∧ ¬ P E
  ∧ ∃ buckets,
      st_heap s !! E = Some (OPlain buckets)
      ∧ ∀ k v, assoc_get k buckets = Some v →
          ∃ b : loc, v = VObject b ∧ ¬ P b ∧ (E < b)%nat.

(** The loop of [ObjectUtils.normalize] over the declared fields, seen
    from the state [s]: the object under construction [L] is written by
    nothing else; a field that the loop has been through ([done]) holds
    neither [null] nor [undefined]; every other property is as it is in
    the copy [orig] the loop started from. *)
Definition fields_written (E L : loc) (orig : list (string * value))
  (done : list string) (s : state) : Prop :=
  protects (eq L) E (st_heap s) s
  ∧ ∃ cur,
      st_heap s !! L = Some (OPlain cur)
      ∧ (∀ k v, k ∈ done → assoc_get k cur = Some v → is_nullish v = false)
      ∧ (∀ k, k ∉ done → assoc_get k cur = assoc_get k orig).

Module InPlaceExample.

(** The article schema of [RoundTripExample] with the process strategy
    [(entity) => entity], which hands the input itself to the
    normalizer. *)
Definition in_place_table : schema_table :=
  [ CEntity (Examples.entity "users" []);
    CEntity (Entity.define
               (Entity.init "articles"
                  {| Entity.opt_idAttribute := None;
                     Entity.opt_mergeStrategy := None;
                     Entity.opt_processStrategy :=
                       Some (λ input _ _ _, ([], input));
                     Entity.opt_fallbackStrategy := None |})
               [("author", SClass 0)]) ].

End InPlaceExample.

(* ===================================================================== *)
(** * Properties *)
(* ===================================================================== *)

(** ** Basic facts about computations and property lists *)

Arguments isImmutable : simpl never.
Arguments spread_props : simpl never.
Arguments get_prop : simpl never.
Arguments has_own : simpl never.
Arguments set_prop : simpl never.
Arguments del_prop : simpl never.

(** [Object.keys] lists integer-like names first, in ascending order. *)
Example own_entries_order :
  fst <$> own_entries [("b", 1); ("10", 2); ("a", 3); ("2", 4); ("01", 5)]
  = ["2"; "10"; "b"; "a"; "01"].
Proof. vm_compute. reflexivity. Qed.

Lemma state_eta (s : state) :
  State (st_heap s) (st_visited s) (st_cache s) (st_inProgress s) = s.
Proof. destruct s; reflexivity. Qed.

Lemma bind_ok {A B} (m : M A) (k : A → M B) s a s' :
  m s = Ok a s' → bind m k s = k a s'.
Proof. unfold bind; intros ->; reflexivity. Qed.

(** A thrown error aborts everything that was to follow. *)
Lemma bind_throw {A B} (m : M A) (k : A → M B) s e s' :
  m s = Throw e s' → bind m k s = Throw e s'.
Proof. unfold bind; intros ->; reflexivity. Qed.

Lemma bind_ret_r {A} (m : M A) s : bind m ret s = m s.
Proof. unfold bind, ret; destruct (m s); reflexivity. Qed.

Lemma assoc_get_set {A} k k' (v : A) ps :
  assoc_get k (assoc_set k' v ps) =
  if String.eqb k k' then Some v else assoc_get k ps.
Proof.
  induction ps as [|[k0 v0] ps IH]; simpl.
  - reflexivity.
  - destruct (String.eqb k' k0) eqn:E0; simpl.
    + apply String.eqb_eq in E0; subst k0.
      destruct (String.eqb k k'); reflexivity.
    + rewrite IH. destruct (String.eqb k k0) eqn:E1; [|reflexivity].
      apply String.eqb_eq in E1; subst k0.
      destruct (String.eqb k k') eqn:E2; [|reflexivity].
      apply String.eqb_eq in E2; subst k'. rewrite String.eqb_refl in E0.
      discriminate.
Qed.

Lemma assoc_get_app {A} k (ps qs : list (string * A)) :
  assoc_get k (ps ++ qs) =
  match assoc_get k ps with Some v => Some v | None => assoc_get k qs end.
Proof.
  induction ps as [|[k0 v0] ps IH]; simpl; [reflexivity|].
  destruct (String.eqb k k0); [reflexivity | exact IH].
Qed.

(** In [{...a, ...b}] the last binding of a key in [b] wins over every
    binding in [a]. *)
Lemma assoc_get_spread_onto k (a b : list (string * value)) :
  assoc_get k (spread_onto a b) =
  match assoc_get k (reverse b) with
  | Some v => Some v
  | None => assoc_get k a
  end.
Proof.
  unfold spread_onto. revert a.
  induction b as [|[k0 v0] b IH]; intros a; simpl; [reflexivity|].
  rewrite IH, reverse_cons, assoc_get_app. simpl.
  destruct (assoc_get k (reverse b)); [reflexivity|].
  rewrite assoc_get_set. destruct (String.eqb k k0); reflexivity.
Qed.

(** Without duplicate keys the last binding is the only one. *)
Lemma assoc_get_reverse {A} k (b : list (string * A)) :
  NoDup b.*1 → assoc_get k (reverse b) = assoc_get k b.
Proof.
  induction b as [|[k0 v0] b IH]; simpl; intros Hnd; [reflexivity|].
  apply NoDup_cons in Hnd as [Hnotin Hnd].
  rewrite reverse_cons, assoc_get_app, IH by assumption. simpl.
  destruct (String.eqb k k0) eqn:E; [|destruct (assoc_get k b); reflexivity].
  apply String.eqb_eq in E; subst k0.
  destruct (assoc_get k b) eqn:G; [|reflexivity].
  exfalso. apply Hnotin. clear -G.
  induction b as [|[k1 v1] b IH]; simpl in *; [discriminate|].
  destruct (String.eqb k k1) eqn:E.
  - apply String.eqb_eq in E; subst. left.
  - right. auto.
Qed.

(* --------------------------------------------------------------------- *)
(** ** Cycle safety of normalization *)



(* --------------------------------------------------------------------- *)
(** ** The default merge *)

(** C4.  Normalizing [[{id: 1, name: 'foo'}, {id: 1, name: 'bar',
    alias: 'bar'}]] through an entity schema with the default options
    leaves exactly one record in the store, [{id: 1, name: 'bar',
    alias: 'bar'}] (object 7, the only entry of the only bucket).  The
    default merge strategy is the spread [{...entityA, ...entityB}]: a
    field-wise union where a key of the incoming entity wins over the
    same key of the existing one. *)
Theorem default_merge_later_wins :
  (∀ n, normalize (3 + n) Examples.taco_table (VObject 0) (SArray [SClass 0])
          Examples.taco_heap
        = Returned {| entities := VObject 3; result := VObject 8 |}
            Examples.taco_normalized)
  ∧ Examples.taco_normalized !! 3%nat = Some (OPlain [("tacos", VObject 5)])
  ∧ Examples.taco_normalized !! 5%nat = Some (OPlain [("1", VObject 7)])
  ∧ Examples.taco_normalized !! 7%nat
    = Some (OPlain [("id", VNumber 1); ("name", VString "bar");
                    ("alias", VString "bar")])
  ∧ (∀ k d, mergeStrategy (Examples.entity k d) = Entity.default_mergeStrategy)
  ∧ (∀ h existing incoming,
       ∃ merged,
         Entity.default_mergeStrategy existing incoming h
         = ([OPlain merged], VObject (length h))
         ∧ ∀ k, assoc_get k merged =
                match assoc_get k (reverse (spread_props h incoming)) with
                | Some v => Some v
                | None => assoc_get k (spread_props h existing)
                end).
Proof.
  split; [intros n; vm_compute; reflexivity|].
  repeat (split; [reflexivity|]).
  intros h existing incoming. eexists. split; [reflexivity|].
  intros k. apply assoc_get_spread_onto.
Qed.

(* --------------------------------------------------------------------- *)
(** ** Polymorphic containers *)

(** C5.  The Union [{user: userSchema, group: groupSchema}] with the
    discriminator ['type'] normalizes [{id: 1, type: 'user'}] to the tag
    [{id: 1, schema: 'user'}] (object 4), and denormalizing that tag
    through the same Union returns an object (5) with exactly the
    properties of the original input (object 0).  A polymorphic container
    without a discriminator returns what [visit] returns for its single
    schema: the bare id, not a tag. *)
Theorem union_round_trip_and_single_schema :
  (∀ n, normalize (3 + n) Examples.union_table (VObject 0) (SClass 0)
          Examples.union_heap
        = Returned {| entities := VObject 1; result := VObject 4 |}
            Examples.union_normalized)
  ∧ Examples.union_normalized !! 4%nat
    = Some (OPlain [("id", VNumber 1); ("schema", VString "user")])
  ∧ (∀ n, denormalize (3 + n) Examples.union_table (VObject 4) (SClass 0)
            (VObject 1) Examples.union_normalized
          = Returned (VObject 5)
              (Examples.union_normalized ++
               [OPlain [("id", VNumber 1); ("type", VString "user")]]))
  ∧ Examples.union_normalized !! 0%nat
    = Some (OPlain [("id", VNumber 1); ("type", VString "user")])
  ∧ (∀ d v parent k visit s,
       Polymorphic.normalizeValue (Polymorphic.new d None) v parent k visit s
       = visit v parent (Some k) (Some d) s).
Proof.
  split; [intros n; vm_compute; reflexivity|].
  split; [reflexivity|].
  split; [intros n; vm_compute; reflexivity|].
  split; [reflexivity|].
  intros d v parent k visit s.
  unfold Polymorphic.normalizeValue, Polymorphic.inferSchema. simpl.
  unfold bind, ret. destruct (visit v parent (Some k) (Some d) s); reflexivity.
Qed.




(* --------------------------------------------------------------------- *)
(** ** Entity validation *)

Lemma validate_cases (e : EntitySchema) (input : value) (s : state) :
  (is_object input = true ∧ Entity.is_array (st_heap s) input = false
   ∧ Entity.validate e input s = Ok input s)
  ∨ ((is_object input = false ∨ Entity.is_array (st_heap s) input = true)
     ∧ Entity.validate e input s
       = Throw (Error (Entity.validate_message (key e)
                         (Entity.received (st_heap s) input))) s).
Proof.
  unfold Entity.validate, bind, get_heap, throw, ret.
  destruct input as [| |b|n|str|l];
    try (right; split; [left; reflexivity | reflexivity]).
  destruct (Entity.is_array (st_heap s) (VObject l)) eqn:Ha.
  - right. split; [right; reflexivity|]. reflexivity.
  - left. split; [reflexivity|]. split; reflexivity.
Qed.

Lemma received_array h input :
  Entity.is_array h input = true → Entity.received h input = "an array".
Proof.
  intros Ha. unfold Entity.received. rewrite Ha.
  destruct input; try reflexivity. simpl in Ha. discriminate.
Qed.

Lemma is_array_app h h' v :
  Entity.is_array h v = true → Entity.is_array (h ++ h') v = true.
Proof.
  destruct v as [| | | | |l]; simpl; try discriminate.
  destruct (h !! l) as [o|] eqn:Hl; [|discriminate].
  rewrite (lookup_app_l_Some _ _ _ _ Hl). trivial.
Qed.

(** C8.  [validate] throws exactly when its input is [null], an array, or
    not an object; the message names the entity key and the kind received
    ([null], [an array], or the [typeof] name); otherwise the input is
    returned.  The error aborts the entity's normalization before anything
    is recorded, and with it the whole [normalize] call. *)
Theorem entity_validate_rejects :
  ∀ (e : EntitySchema) (input : value) (s : state),
    (Entity.validate e input s = Ok input s
     ∨ ∃ kind, Entity.validate e input s
               = Throw (Error (Entity.validate_message (key e) kind)) s
               ∧ kind = Entity.received (st_heap s) input)
    ∧ (Entity.validate e input s = Ok input s ↔
       is_object input = true ∧ Entity.is_array (st_heap s) input = false)
    ∧ (input = VNull → Entity.received (st_heap s) input = "null")
    ∧ (Entity.is_array (st_heap s) input = true →
       Entity.received (st_heap s) input = "an array")
    ∧ (is_object input = false → input ≠ VNull →
       Entity.received (st_heap s) input = typeof input)
    ∧ (∀ parent k visit addEntity err s',
         Entity.validate e input s = Throw err s' →
         Entity.normalize e input parent k visit addEntity s = Throw err s')
    ∧ (∀ fuel T sid h,
         T !! sid = Some (CEntity e) →
         Entity.is_array h input = true →
         normalize (S fuel) T input (SClass sid) h
         = Thrown (Error (Entity.validate_message (key e) "an array"))
             (h ++ [OPlain []])).
Proof.
  intros e input s.
  pose proof (validate_cases e input s) as Hcases.
  split; [|split; [|split; [|split; [|split; [|split]]]]].
  - destruct Hcases as [(_ & _ & H) | (_ & H)]; [left | right; eauto].
    exact H.
  - split.
    + intros H. destruct Hcases as [(? & ? & _) | (_ & H')]; [auto|].
      rewrite H in H'. discriminate.
    + intros [Ho Ha]. destruct Hcases as [(_ & _ & H) | ([H'|H'] & _)];
        [exact H | congruence | congruence].
  - intros ->. reflexivity.
  - apply received_array.
  - intros Ho Hn. destruct input; simpl in *; try reflexivity; congruence.
  - intros parent k visit addEntity err s' H. unfold Entity.normalize.
    apply bind_throw. exact H.
  - intros fuel T sid h Hsid Ha.
    assert (Hobj : is_object input = true).
    { destruct input; simpl in Ha; try discriminate. reflexivity. }
    set (s1 := State (h ++ [OPlain []]) ∅ ∅ ∅).
    assert (Hv : visit (S fuel) T (addEntities (VObject (length h)))
                   input input None (Some (SClass sid)) s1
                 = Throw (Error (Entity.validate_message (key e) "an array"))
                     s1).
    { simpl. unfold visit_body.
      destruct input; simpl in Hobj; try discriminate. simpl. rewrite Hsid.
      unfold Entity.normalize. apply bind_throw.
      assert (Ha1 : Entity.is_array (st_heap s1) (VObject l) = true)
        by apply (is_array_app h [OPlain []] _ Ha).
      destruct (validate_cases e (VObject l) s1) as [(_ & Hna & _) | (_ & H)].
      - congruence.
      - rewrite H, (received_array _ _ Ha1). reflexivity. }
    unfold normalize, run, normalize_in.
    destruct input; simpl in Hobj; try discriminate. simpl.
    unfold bind at 1. simpl.
    change (with_heap (h ++ [OPlain []]) (State h ∅ ∅ ∅)) with s1.
    rewrite (bind_throw _ _ _ _ _ Hv). reflexivity.
Qed.

(** [normalize([[]], [users])] of the array test: the inner array reaches
    the entity schema and the call is aborted. *)
Lemma entity_validate_rejects_witness :
  Entity.validate (Examples.entity "users" []) (VObject 1)
    (State Examples.nested_array_heap ∅ ∅ ∅)
  = Throw (Error (Entity.validate_message "users" "an array"))
      (State Examples.nested_array_heap ∅ ∅ ∅)
  ∧ normalize 1 [CEntity (Examples.entity "users" [])] (VObject 1) (SClass 0)
      Examples.nested_array_heap
    = Thrown (Error (Entity.validate_message "users" "an array"))
        (Examples.nested_array_heap ++ [OPlain []]).
Proof.
  pose proof (entity_validate_rejects (Examples.entity "users" []) (VObject 1)
                (State Examples.nested_array_heap ∅ ∅ ∅)) as H.
  split.
  - reflexivity.
  - apply (proj2 (proj2 (proj2 (proj2 (proj2 (proj2 H)))))).
    + reflexivity.
    + reflexivity.
Defined.

(* --------------------------------------------------------------------- *)
(** ** Reasoning about computations *)

Lemma wp_ret {A} (a : A) Q E s : Q a s → wp (ret a) Q E s.
Proof. exact id. Qed.

Lemma wp_throw {A} e (Q : A → state → Prop) (E : error → state → Prop) s :
  E e s → wp (throw e) Q E s.
Proof. exact id. Qed.

Lemma wp_bind {A B} (m : M A) (k : A → M B) Q E s :
  wp m (λ a s', wp (k a) Q E s') E s → wp (bind m k) Q E s.
Proof. unfold wp, bind. destruct (m s); exact id. Qed.

Lemma wp_mono {A} (m : M A) (Q Q' : A → state → Prop)
  (E E' : error → state → Prop) s :
  wp m Q E s →
  (∀ a s', Q a s' → Q' a s') → (∀ e s', E e s' → E' e s') →
  wp m Q' E' s.
Proof. unfold wp. destruct (m s); auto. Qed.

Lemma wp_forM_ {A} (f : A → M unit) (l : list A) (I : state → Prop) E s :
  I s →
  (∀ x s', x ∈ l → I s' → wp (f x) (λ _, I) E s') →
  wp (forM_ f l) (λ _, I) E s.
Proof.
  revert s. induction l as [|x l IH]; intros s Hs Hf; simpl.
  - exact Hs.
  - apply wp_bind. eapply wp_mono.
    + apply Hf; [left | exact Hs].
    + intros u s' Hs'. apply IH; [exact Hs'|].
      intros y s'' Hy. apply Hf. right. exact Hy.
    + auto.
Qed.

Lemma wp_mapM {A B} (f : A → M B) (l : list A) (I : state → Prop) E s :
  I s →
  (∀ x s', x ∈ l → I s' → wp (f x) (λ _, I) E s') →
  wp (mapM f l) (λ _, I) E s.
Proof.
  revert s. induction l as [|x l IH]; intros s Hs Hf; simpl.
  - exact Hs.
  - apply wp_bind. eapply wp_mono.
    + apply Hf; [left | exact Hs].
    + intros y s' Hs'. apply wp_bind. eapply wp_mono.
      * apply IH; [exact Hs'|].
        intros z s'' Hz. apply Hf. right. exact Hz.
      * intros ys s'' Hs''. exact Hs''.
      * auto.
    + auto.
Qed.

Lemma wp_foldM {A B} (f : B → A → M B) (l : list A) (I : state → Prop) E
  acc s :
  I s →
  (∀ b x s', x ∈ l → I s' → wp (f b x) (λ _, I) E s') →
  wp (foldM f acc l) (λ _, I) E s.
Proof.
  revert acc s. induction l as [|x l IH]; intros acc s Hs Hf; simpl.
  - exact Hs.
  - apply wp_bind. eapply wp_mono.
    + apply Hf; [left | exact Hs].
    + intros b s' Hs'. apply IH; [exact Hs'|].
      intros b' y s'' Hy. apply Hf. right. exact Hy.
    + auto.
Qed.

Lemma wp_stable {A} (m : M A) Q E s :
  heap_stable m →
  (∀ a s', st_heap s' = st_heap s → Q a s') →
  (∀ e s', st_heap s' = st_heap s → E e s') →
  wp m Q E s.
Proof.
  intros Hm HQ HE. unfold wp. specialize (Hm s).
  destruct (m s); auto.
Qed.

Ltac stable_tac :=
  intros s; cbv beta delta [bind ret throw get_heap];
  repeat (simpl; case_match); simpl; try reflexivity; try congruence.

Lemma stable_get_heap : heap_stable get_heap.
Proof. intros s. reflexivity. Qed.

Lemma stable_read_prop v k : heap_stable (read_prop v k).
Proof. unfold read_prop. stable_tac. Qed.

Lemma stable_hasOwn v k : heap_stable (hasOwn v k).
Proof. unfold hasOwn. stable_tac. Qed.

Lemma stable_own_entries_of v : heap_stable (own_entries_of v).
Proof. unfold own_entries_of. stable_tac. Qed.

Lemma stable_imm_entries m v : heap_stable (imm_entries m v).
Proof. unfold imm_entries. stable_tac. Qed.

Lemma stable_bind {A B} (m : M A) (k : A → M B) :
  heap_stable m → (∀ a, heap_stable (k a)) → heap_stable (bind m k).
Proof.
  intros Hm Hk s. unfold bind. specialize (Hm s).
  destruct (m s) as [a s'|e s'|]; auto.
  specialize (Hk a s'). destruct (k a s'); congruence.
Qed.

Lemma stable_ret {A} (a : A) : heap_stable (ret a).
Proof. intros s. reflexivity. Qed.

Lemma stable_throw {A} e : heap_stable (@throw A e).
Proof. intros s. reflexivity. Qed.

Lemma stable_imm_get v k : heap_stable (imm_get v k).
Proof.
  apply stable_bind; [apply stable_imm_entries | intros; apply stable_ret].
Qed.

Lemma stable_imm_has v k : heap_stable (imm_has v k).
Proof.
  apply stable_bind; [apply stable_imm_entries | intros; apply stable_ret].
Qed.

Lemma stable_imm_getIn v k1 k2 : heap_stable (imm_getIn v k1 k2).
Proof.
  apply stable_bind; [apply stable_imm_entries | intros es].
  apply stable_bind; [apply stable_get_heap | intros h].
  repeat case_match; first [apply stable_ret | apply stable_throw].
Qed.

Lemma stable_ensure_cache k : heap_stable (ensure_cache k).
Proof. intros s. unfold ensure_cache. destruct (st_cache s !! k); reflexivity. Qed.

Lemma stable_cache_has k id : heap_stable (cache_has k id).
Proof. intros s. reflexivity. Qed.

Lemma stable_cache_get k id : heap_stable (cache_get k id).
Proof. intros s. reflexivity. Qed.

Lemma stable_cache_set k id v : heap_stable (cache_set k id v).
Proof. intros s. reflexivity. Qed.

Lemma stable_inProgress_has t : heap_stable (inProgress_has t).
Proof. intros s. reflexivity. Qed.

Lemma stable_inProgress_add t : heap_stable (inProgress_add t).
Proof. intros s. reflexivity. Qed.

Lemma stable_inProgress_delete t : heap_stable (inProgress_delete t).
Proof. intros s. reflexivity. Qed.

Lemma stable_ensure_visited t id : heap_stable (Entity.ensure_visited t id).
Proof. intros s. reflexivity. Qed.

Lemma stable_visited_refs t id : heap_stable (Entity.visited_refs t id).
Proof. intros s. reflexivity. Qed.

Lemma stable_push_visited t id r : heap_stable (Entity.push_visited t id r).
Proof. intros s. reflexivity. Qed.

Lemma stable_getId e input parent k : heap_stable (Entity.getId e input parent k).
Proof.
  unfold Entity.getId. apply stable_bind; [apply stable_get_heap | intros h].
  repeat case_match;
    first [apply stable_ret | apply stable_imm_get | apply stable_read_prop].
Qed.

Lemma stable_validate e input : heap_stable (Entity.validate e input).
Proof.
  unfold Entity.validate. apply stable_bind; [apply stable_get_heap | intros h].
  case_match; [apply stable_throw | apply stable_ret].
Qed.

Lemma stable_getSchemaAttribute p v parent k :
  heap_stable (Polymorphic.getSchemaAttribute p v parent k).
Proof.
  unfold Polymorphic.getSchemaAttribute, Polymorphic.call_schemaAttribute.
  repeat case_match; try apply stable_ret; try apply stable_read_prop.
  apply stable_bind; [apply stable_get_heap | intros; apply stable_ret].
Qed.

Lemma stable_inferSchema p v parent k :
  heap_stable (Polymorphic.inferSchema p v parent k).
Proof.
  unfold Polymorphic.inferSchema. case_match; [apply stable_ret|].
  apply stable_bind; [apply stable_getSchemaAttribute | intros a].
  case_match; apply stable_ret.
Qed.

Lemma stable_validateSchema d : heap_stable (ArrayUtils.validateSchema d).
Proof.
  unfold ArrayUtils.validateSchema.
  repeat case_match; first [apply stable_ret | apply stable_throw].
Qed.

Lemma stable_getValues v : heap_stable (ArrayUtils.getValues v).
Proof.
  unfold ArrayUtils.getValues.
  apply stable_bind; [apply stable_get_heap | intros h].
  repeat case_match; try apply stable_ret;
    (apply stable_bind; [apply stable_own_entries_of | intros; apply stable_ret]).
Qed.

Lemma stable_getEntities h0 store id e :
  heap_stable (getEntities h0 store id e).
Proof.
  unfold getEntities.
  repeat case_match;
    try first [apply stable_ret | apply stable_throw | apply stable_imm_getIn].
  apply stable_bind; [apply stable_hasOwn | intros known].
  case_match; [apply stable_ret|].
  apply stable_bind; [apply stable_read_prop | intros st].
  apply stable_bind; [apply stable_hasOwn | intros present].
  case_match; [apply stable_ret | apply stable_read_prop].
Qed.

(* --------------------------------------------------------------------- *)
(** ** Denormalization does not touch existing objects *)

Lemma grows_stable h0 s s' :
  st_heap s' = st_heap s → grows_from h0 s → grows_from h0 s'.
Proof. unfold grows_from. intros ->. exact id. Qed.

Lemma grows_app h0 s objs :
  grows_from h0 s → grows_from h0 (with_heap (st_heap s ++ objs) s).
Proof. unfold grows_from. simpl. apply prefix_app_r. Qed.

Lemma grows_length h0 s : grows_from h0 s → (length h0 ≤ length (st_heap s))%nat.
Proof. apply prefix_length. Qed.

Lemma prefix_insert_ge (h0 h : heap) l o :
  h0 `prefix_of` h → (length h0 ≤ l)%nat → h0 `prefix_of` <[l := o]> h.
Proof.
  intros [t ->] Hl. exists (<[(l - length h0)%nat := o]> t).
  apply insert_app_r_alt. exact Hl.
Qed.

Lemma grows_set_prop h0 s l k v :
  grows_from h0 s → (length h0 ≤ l)%nat →
  grows_from h0 (with_heap (set_prop (st_heap s) l k v) s).
Proof.
  unfold grows_from, set_prop. simpl. intros Hs Hl.
  repeat case_match; auto using prefix_insert_ge.
Qed.

Lemma grows_del_prop h0 s l k :
  grows_from h0 s → (length h0 ≤ l)%nat →
  grows_from h0 (with_heap (del_prop (st_heap s) l k) s).
Proof.
  unfold grows_from, del_prop. simpl. intros Hs Hl.
  repeat case_match; auto using prefix_insert_ge.
Qed.

Section frame.
Variable h0 : heap.

Local Abbreviation I := (grows_from h0).

Lemma keeps_stable {A} (m : M A) s : heap_stable m → I s → keeps I m s.
Proof.
  intros Hm Hs. apply wp_stable; [exact Hm | |];
    intros ? s' Heq; exact (grows_stable _ _ _ Heq Hs).
Qed.

(** A heap-stable step in front of a continuation. *)
Lemma keeps_bind_stable {A B} (m : M A) (k : A → M B) s :
  heap_stable m → I s →
  (∀ a s', I s' → st_heap s' = st_heap s → keeps I (k a) s') →
  keeps I (bind m k) s.
Proof.
  intros Hm Hs Hk. apply wp_bind. apply wp_stable; [exact Hm | |].
  - intros a s' Heq. apply Hk; [|exact Heq]. exact (grows_stable _ _ _ Heq Hs).
  - intros e s' Heq. exact (grows_stable _ _ _ Heq Hs).
Qed.

Lemma keeps_bind {A B} (m : M A) (k : A → M B) s :
  keeps I m s → (∀ a s', I s' → keeps I (k a) s') → keeps I (bind m k) s.
Proof.
  intros Hm Hk. apply wp_bind. eapply wp_mono; [exact Hm | | auto].
  intros a s' Hs'. apply Hk. exact Hs'.
Qed.

Lemma keeps_ret {A} (a : A) s : I s → keeps I (ret a) s.
Proof. exact id. Qed.

Lemma keeps_throw {A} e s : I s → keeps I (@throw A e) s.
Proof. exact id. Qed.

Lemma keeps_alloc o s : I s → keeps I (alloc o) s.
Proof. intros Hs. apply (grows_app _ _ [o] Hs). Qed.

Lemma keeps_spread v s : I s → keeps I (spread v) s.
Proof. intros Hs. apply (grows_app _ _ [_] Hs). Qed.

Lemma keeps_call_strategy f s : I s → keeps I (call_strategy f) s.
Proof. intros Hs. apply (grows_app _ _ _ Hs). Qed.

Lemma keeps_imm_set v k x s : I s → keeps I (imm_set v k x) s.
Proof.
  intros Hs. unfold imm_set. apply keeps_bind_stable;
    [apply stable_imm_entries | exact Hs |].
  intros es s' Hs' _. apply keeps_alloc. exact Hs'.
Qed.

(** An assignment to an object allocated after [h0]. *)
Lemma keeps_assign o k v s :
  I s → (∀ l, o = VObject l → (length h0 ≤ l)%nat) → keeps I (assign o k v) s.
Proof.
  intros Hs Hfresh. destruct o; try exact Hs.
  apply grows_set_prop; auto.
Qed.

Lemma keeps_delete o k s :
  I s → (∀ l, o = VObject l → (length h0 ≤ l)%nat) → keeps I (delete o k) s.
Proof.
  intros Hs Hfresh. destruct o; try exact Hs.
  apply grows_del_prop; auto.
Qed.

Lemma keeps_forM_ {A} (f : A → M unit) (l : list A) s :
  I s → (∀ x s', I s' → keeps I (f x) s') → keeps I (forM_ f l) s.
Proof. intros Hs Hf. apply wp_forM_; [exact Hs|]. intros; apply Hf; auto. Qed.

Lemma keeps_mapM {A B} (f : A → M B) (l : list A) s :
  I s → (∀ x s', I s' → keeps I (f x) s') → keeps I (mapM f l) s.
Proof. intros Hs Hf. apply wp_mapM; [exact Hs|]. intros; apply Hf; auto. Qed.

Lemma keeps_foldM {A B} (f : B → A → M B) (l : list A) acc s :
  I s → (∀ b x s', I s' → keeps I (f b x) s') → keeps I (foldM f acc l) s.
Proof. intros Hs Hf. apply wp_foldM; [exact Hs|]. intros; apply Hf; auto. Qed.

(** The recursive occurrence is assumed to keep the invariant. *)
Variable unvisit : UnvisitFn.
Hypothesis unvisit_keeps : ∀ v schema s, I s → keeps I (unvisit v schema) s.

Lemma keeps_denormalizeImmutable schema input s :
  I s → keeps I (denormalizeImmutable schema input unvisit) s.
Proof.
  intros Hs. unfold denormalizeImmutable. apply keeps_foldM; [exact Hs|].
  intros object e s1 Hs1.
  apply keeps_bind_stable; [apply stable_imm_has | exact Hs1 |].
  intros present s2 Hs2 _. destruct present; [|exact Hs2].
  apply keeps_bind_stable; [apply stable_imm_get | exact Hs2 |].
  intros old s3 Hs3 _.
  apply keeps_bind; [apply unvisit_keeps; exact Hs3|].
  intros new s4 Hs4. apply keeps_imm_set. exact Hs4.
Qed.

Lemma keeps_map_method (f : value → M value) v s :
  I s → (∀ x s', I s' → keeps I (f x) s') → keeps I (map_method f v) s.
Proof.
  intros Hs Hf. unfold map_method.
  apply keeps_bind_stable; [apply stable_get_heap | exact Hs |].
  intros h s1 Hs1 _.
  repeat case_match; try (apply keeps_throw; exact Hs1).
  - apply keeps_bind; [apply keeps_mapM; assumption|].
    intros ws s2 Hs2. apply keeps_alloc. exact Hs2.
  - apply keeps_bind.
    + apply keeps_mapM; [exact Hs1|]. intros e s2 Hs2.
      apply keeps_bind; [apply Hf; exact Hs2|]. intros w s3 Hs3. exact Hs3.
    + intros ws s2 Hs2. apply keeps_alloc. exact Hs2.
Qed.

(** [Entity.denormalize] writes to the entity it is given; that entity
    must be immutable-style (and is then rebuilt, not written) or newer
    than [h0]. *)
Lemma keeps_Entity_denormalize e entity s :
  I s →
  (isImmutable (st_heap s) entity = false →
   ∀ l, entity = VObject l → (length h0 ≤ l)%nat) →
  keeps I (Entity.denormalize e entity unvisit) s.
Proof.
  intros Hs Hfresh. unfold Entity.denormalize.
  apply wp_bind. change (wp get_heap ?Q ?E s) with (Q (st_heap s) s).
  cbv beta.
  destruct (isImmutable (st_heap s) entity) eqn:Himm.
  - apply keeps_denormalizeImmutable. exact Hs.
  - specialize (Hfresh eq_refl).
    apply keeps_bind; [|intros; apply keeps_ret; assumption].
    apply keeps_forM_; [exact Hs|]. intros f s1 Hs1.
    apply keeps_bind_stable; [apply stable_hasOwn | exact Hs1 |].
    intros own s2 Hs2 _. destruct own; [|exact Hs2].
    apply keeps_bind_stable; [apply stable_read_prop | exact Hs2 |].
    intros field s3 Hs3 _.
    apply keeps_bind; [apply unvisit_keeps; exact Hs3|].
    intros v s4 Hs4. apply keeps_assign; assumption.
Qed.

Lemma keeps_ObjectUtils_denormalize schema input s :
  I s → keeps I (ObjectUtils.denormalize schema input unvisit) s.
Proof.
  intros Hs. unfold ObjectUtils.denormalize.
  apply keeps_bind_stable; [apply stable_get_heap | exact Hs |].
  intros h s1 Hs1 _. case_match.
  - apply keeps_denormalizeImmutable. exact Hs1.
  - unfold spread. apply wp_bind.
    change (wp get_heap ?Q ?E s1) with (Q (st_heap s1) s1). cbv beta.
    apply wp_bind.
    set (object := VObject (length (st_heap s1))).
    set (s2 := with_heap (st_heap s1 ++ [OPlain (spread_props (st_heap s1) input)]) s1).
    change (wp (alloc ?o) ?Q ?E s1) with (Q object s2). cbv beta.
    assert (Hs2 : I s2) by apply (grows_app _ _ [_] Hs1).
    assert (Hobj : ∀ l, object = VObject l → (length h0 ≤ l)%nat).
    { intros l [= <-]. apply grows_length. exact Hs1. }
    apply keeps_bind; [|intros; apply keeps_ret; assumption].
    apply keeps_forM_; [exact Hs2|]. intros f s3 Hs3.
    apply keeps_bind_stable; [apply stable_read_prop | exact Hs3 |].
    intros field s4 Hs4 _. case_match; [exact Hs4|].
    apply keeps_bind; [apply unvisit_keeps; exact Hs4|].
    intros v s5 Hs5. apply keeps_assign; assumption.
Qed.

Lemma keeps_ArrayUtils_denormalize schema input s :
  I s → keeps I (ArrayUtils.denormalize schema input unvisit) s.
Proof.
  intros Hs. unfold ArrayUtils.denormalize.
  apply keeps_bind_stable; [apply stable_validateSchema | exact Hs |].
  intros validated s1 Hs1 _.
  apply keeps_bind_stable; [apply stable_get_heap | exact Hs1 |].
  intros h s2 Hs2 _. case_match; [|exact Hs2].
  apply keeps_map_method; [exact Hs2|]. intros; apply unvisit_keeps; assumption.
Qed.

Lemma keeps_denormalizeValue p v s :
  I s → keeps I (Polymorphic.denormalizeValue p v unvisit) s.
Proof.
  intros Hs. unfold Polymorphic.denormalizeValue.
  apply keeps_bind_stable; [apply stable_get_heap | exact Hs |].
  intros h s1 Hs1 _.
  apply keeps_bind_stable;
    [case_match; [apply stable_imm_get | apply stable_ret] | exact Hs1 |].
  intros schemaKey s2 Hs2 _. case_match; [exact Hs2|].
  apply keeps_bind_stable;
    [repeat case_match; first [apply stable_imm_get | apply stable_ret]
    | exact Hs2 |].
  intros id s3 Hs3 _. apply unvisit_keeps. exact Hs3.
Qed.

Lemma keeps_Values_denormalize p input s :
  I s → keeps I (Values.denormalize p input unvisit) s.
Proof.
  intros Hs. unfold Values.denormalize.
  apply keeps_bind_stable; [apply stable_own_entries_of | exact Hs |].
  intros es s1 Hs1 _. apply keeps_bind.
  - apply keeps_foldM; [exact Hs1|]. intros output e s2 Hs2.
    apply keeps_bind; [apply keeps_denormalizeValue; exact Hs2|].
    intros v s3 Hs3. exact Hs3.
  - intros output s2 Hs2. apply keeps_alloc. exact Hs2.
Qed.

Lemma keeps_ArraySchema_denormalize p input s :
  I s → keeps I (ArraySchema.denormalize p input unvisit) s.
Proof.
  intros Hs. unfold ArraySchema.denormalize.
  apply keeps_bind_stable; [apply stable_get_heap | exact Hs |].
  intros h s1 Hs1 _. case_match; [|exact Hs1].
  apply keeps_map_method; [exact Hs1|].
  intros; apply keeps_denormalizeValue; assumption.
Qed.

Lemma keeps_unvisitEntity id schema getEntity s :
  (∀ v e, heap_stable (getEntity v e)) →
  I s → keeps I (unvisitEntity id schema unvisit getEntity) s.
Proof.
  intros Hge Hs. unfold unvisitEntity.
  apply keeps_bind_stable; [apply Hge | exact Hs |].
  intros found s1 Hs1 _.
  apply keeps_bind.
  { case_match; [apply keeps_call_strategy | apply keeps_ret]; exact Hs1. }
  intros entity s2 Hs2. case_match; [exact Hs2|].
  apply keeps_bind_stable; [apply stable_ensure_cache | exact Hs2 |].
  intros _ s3 Hs3 _.
  apply keeps_bind_stable; [apply stable_inProgress_has | exact Hs3 |].
  intros cyclic s4 Hs4 _.
  apply wp_bind. change (wp get_heap ?Q ?E s4) with (Q (st_heap s4) s4).
  cbv beta.
  destruct cyclic.
  { case_match; [exact Hs4|]. apply keeps_stable;
      [apply stable_cache_get | exact Hs4]. }
  apply keeps_bind_stable; [apply stable_cache_has | exact Hs4 |].
  intros done s5 Hs5 H45. destruct done.
  { apply keeps_stable; [apply stable_cache_get | exact Hs5]. }
  apply keeps_bind_stable; [apply stable_inProgress_add | exact Hs5 |].
  intros _ s6 Hs6 H56.
  assert (Hafter : ∀ entityCopy s7,
            I s7 →
            (isImmutable (st_heap s7) entityCopy = false →
             ∀ l, entityCopy = VObject l → (length h0 ≤ l)%nat) →
            keeps I
              (do* cache_set (key schema) (to_key id) entityCopy in
               let* denormalized :=
                 Entity.denormalize schema entityCopy unvisit in
               do* cache_set (key schema) (to_key id) denormalized in
               do* inProgress_delete (key schema +:+ ":" +:+ to_key id) in
               cache_get (key schema) (to_key id)) s7).
  { intros entityCopy s7 Hs7 Hfresh.
    apply keeps_bind_stable; [apply stable_cache_set | exact Hs7 |].
    intros _ s8 Hs8 H78. apply keeps_bind.
    - apply keeps_Entity_denormalize; [exact Hs8|]. rewrite H78. exact Hfresh.
    - intros d s9 Hs9.
      apply keeps_bind_stable; [apply stable_cache_set | exact Hs9 |].
      intros _ s10 Hs10 _.
      apply keeps_bind_stable; [apply stable_inProgress_delete | exact Hs10 |].
      intros _ s11 Hs11 _.
      apply keeps_stable; [apply stable_cache_get | exact Hs11]. }
  destruct (isImmutable (st_heap s4) entity) eqn:Himm.
  - apply wp_bind. change (wp (ret entity) ?Q ?E s6) with (Q entity s6).
    cbv beta. apply Hafter; [exact Hs6|]. rewrite H56, H45. congruence.
  - apply wp_bind. unfold spread. apply wp_bind.
    change (wp get_heap ?Q ?E s6) with (Q (st_heap s6) s6). cbv beta.
    change (wp (alloc ?o) ?Q ?E s6)
      with (Q (VObject (length (st_heap s6))) (with_heap (st_heap s6 ++ [o]) s6)).
    cbv beta. apply Hafter.
    + apply (grows_app _ _ [_] Hs6).
    + intros _ l [= <-]. apply grows_length. exact Hs6.
Qed.

Lemma keeps_denormalize_undefined input s :
  I s → keeps I (denormalize_undefined input) s.
Proof.
  intros Hs. unfold denormalize_undefined.
  apply keeps_bind_stable; [apply stable_get_heap | exact Hs |].
  intros h s1 Hs1 _. case_match; [exact Hs1|].
  apply keeps_bind; [apply keeps_spread; exact Hs1|].
  intros _ s2 Hs2. exact Hs2.
Qed.

Lemma keeps_unvisit_body T getEntity input schema s :
  (∀ v e, heap_stable (getEntity v e)) →
  I s → keeps I (unvisit_body T getEntity unvisit input schema) s.
Proof.
  intros Hge Hs. unfold unvisit_body, Union.denormalize.
  repeat case_match;
    first [ apply keeps_ArrayUtils_denormalize
          | apply keeps_ObjectUtils_denormalize
          | apply keeps_denormalize_undefined
          | apply keeps_unvisitEntity
          | apply keeps_ArraySchema_denormalize
          | apply keeps_Values_denormalize
          | apply keeps_denormalizeValue
          | apply keeps_ret ]; assumption.
Qed.

End frame.

Lemma keeps_unvisit h0 fuel T getEntity :
  (∀ v e, heap_stable (getEntity v e)) →
  ∀ input schema s,
    grows_from h0 s →
    keeps (grows_from h0) (unvisit fuel T getEntity input schema) s.
Proof.
  intros Hge. induction fuel as [|fuel IH]; intros input schema s Hs.
  - exact Logic.I.
  - simpl. apply keeps_unvisit_body; assumption.
Qed.


(* --------------------------------------------------------------------- *)
(** ** Which errors a call can raise *)

Section errors.
Variable P : error → Prop.
Hypothesis P_TypeError : ∀ m, P (TypeError m).

Lemma to_ret {A} (a : A) : throws_only P (ret a).
Proof. intros s. exact Logic.I. Qed.

Lemma to_throw {A} e : P e → throws_only P (@throw A e).
Proof. intros He s. exact He. Qed.

Lemma to_bind {A B} (m : M A) (k : A → M B) :
  throws_only P m → (∀ a, throws_only P (k a)) → throws_only P (bind m k).
Proof.
  intros Hm Hk s. apply wp_bind. eapply wp_mono; [apply Hm | | auto].
  intros a s' _. apply Hk.
Qed.

Lemma to_forM_ {A} (f : A → M unit) l :
  (∀ x, throws_only P (f x)) → throws_only P (forM_ f l).
Proof.
  intros Hf s. eapply wp_mono.
  - apply (wp_forM_ f l (λ _, True)); [exact Logic.I|].
    intros x s' _ _. apply Hf.
  - auto.
  - auto.
Qed.

Lemma to_mapM {A B} (f : A → M B) l :
  (∀ x, throws_only P (f x)) → throws_only P (mapM f l).
Proof.
  intros Hf s. eapply wp_mono.
  - apply (wp_mapM f l (λ _, True)); [exact Logic.I|].
    intros x s' _ _. apply Hf.
  - auto.
  - auto.
Qed.

Lemma to_foldM {A B} (f : B → A → M B) l acc :
  (∀ b x, throws_only P (f b x)) → throws_only P (foldM f acc l).
Proof.
  intros Hf s. eapply wp_mono.
  - apply (wp_foldM f l (λ _, True)); [exact Logic.I|].
    intros b x s' _ _. apply Hf.
  - auto.
  - auto.
Qed.

Lemma to_total {A} (m : M A) : total m → throws_only P m.
Proof.
  intros Hm s. unfold wp. specialize (Hm s). destruct (m s); tauto.
Qed.

Lemma total_get_heap : total get_heap.
Proof. intros s. exact Logic.I. Qed.
Lemma total_put_heap h : total (put_heap h).
Proof. intros s. exact Logic.I. Qed.
Lemma total_alloc o : total (alloc o).
Proof. intros s. exact Logic.I. Qed.
Lemma total_spread v : total (spread v).
Proof. intros s. exact Logic.I. Qed.
Lemma total_call_strategy f : total (call_strategy f).
Proof. intros s. exact Logic.I. Qed.
Lemma total_delete o k : total (delete o k).
Proof. intros s. destruct o; exact Logic.I. Qed.
Lemma total_ensure_cache k : total (ensure_cache k).
Proof. intros s. unfold ensure_cache. destruct (st_cache s !! k); exact Logic.I. Qed.
Lemma total_cache_has k id : total (cache_has k id).
Proof. intros s. exact Logic.I. Qed.
Lemma total_cache_get k id : total (cache_get k id).
Proof. intros s. exact Logic.I. Qed.
Lemma total_cache_set k id v : total (cache_set k id v).
Proof. intros s. exact Logic.I. Qed.
Lemma total_inProgress_has t : total (inProgress_has t).
Proof. intros s. exact Logic.I. Qed.
Lemma total_inProgress_add t : total (inProgress_add t).
Proof. intros s. exact Logic.I. Qed.
Lemma total_inProgress_delete t : total (inProgress_delete t).
Proof. intros s. exact Logic.I. Qed.
Lemma total_ensure_visited t id : total (Entity.ensure_visited t id).
Proof. intros s. exact Logic.I. Qed.
Lemma total_visited_refs t id : total (Entity.visited_refs t id).
Proof. intros s. exact Logic.I. Qed.
Lemma total_push_visited t id r : total (Entity.push_visited t id r).
Proof. intros s. exact Logic.I. Qed.

(** One step of the syntax-directed proof that only errors in [P] are
    thrown. *)
Ltac to_step :=
  match goal with
  | |- throws_only _ (bind _ _) => apply to_bind; [|intro]
  | |- throws_only _ (ret _) => apply to_ret
  | |- throws_only _ (throw (TypeError _)) => apply to_throw, P_TypeError
  | |- throws_only _ (throw to_object_error) => apply to_throw, P_TypeError
  | |- throws_only _ (throw (not_a_function _)) => apply to_throw, P_TypeError
  | |- throws_only _ (forM_ _ _) => apply to_forM_; intro
  | |- throws_only _ (mapM _ _) => apply to_mapM; intro
  | |- throws_only _ (foldM _ _ _) => apply to_foldM; intros ? ?
  | |- throws_only _ get_heap => apply to_total, total_get_heap
  | |- throws_only _ (put_heap _) => apply to_total, total_put_heap
  | |- throws_only _ (alloc _) => apply to_total, total_alloc
  | |- throws_only _ (spread _) => apply to_total, total_spread
  | |- throws_only _ (call_strategy _) => apply to_total, total_call_strategy
  | |- throws_only _ (delete _ _) => apply to_total, total_delete
  | |- throws_only _ (ensure_cache _) => apply to_total, total_ensure_cache
  | |- throws_only _ (cache_has _ _) => apply to_total, total_cache_has
  | |- throws_only _ (cache_get _ _) => apply to_total, total_cache_get
  | |- throws_only _ (cache_set _ _ _) => apply to_total, total_cache_set
  | |- throws_only _ (inProgress_has _) => apply to_total, total_inProgress_has
  | |- throws_only _ (inProgress_add _) => apply to_total, total_inProgress_add
  | |- throws_only _ (inProgress_delete _) =>
      apply to_total, total_inProgress_delete
  | |- throws_only _ (Entity.ensure_visited _ _) =>
      apply to_total, total_ensure_visited
  | |- throws_only _ (Entity.visited_refs _ _) =>
      apply to_total, total_visited_refs
  | |- throws_only _ (Entity.push_visited _ _ _) =>
      apply to_total, total_push_visited
  | |- throws_only _ (Entity.merge _ _ _) => apply to_total, total_call_strategy
  | |- throws_only _ (Entity.fallback _ _) =>
      apply to_total, total_call_strategy
  | |- throws_only _ (match ?x with _ => _ end) => destruct x
  | |- throws_only _ (if ?x then _ else _) => destruct x
  end.

Ltac to_auto := repeat first [to_step | solve [auto]].

Lemma to_read_prop v k : throws_only P (read_prop v k).
Proof. unfold read_prop. to_auto. Qed.

Lemma to_hasOwn v k : throws_only P (hasOwn v k).
Proof. unfold hasOwn. to_auto. Qed.

Lemma to_own_entries_of v : throws_only P (own_entries_of v).
Proof. unfold own_entries_of. to_auto. Qed.

Lemma to_assign o k v : throws_only P (assign o k v).
Proof. unfold assign. to_auto. Qed.

Lemma to_imm_entries m v : throws_only P (imm_entries m v).
Proof. unfold imm_entries. to_auto. Qed.

Lemma to_imm_get v k : throws_only P (imm_get v k).
Proof. unfold imm_get. to_auto. apply to_imm_entries. Qed.

Lemma to_imm_has v k : throws_only P (imm_has v k).
Proof. unfold imm_has. to_auto. apply to_imm_entries. Qed.

Lemma to_imm_set v k x : throws_only P (imm_set v k x).
Proof. unfold imm_set. to_auto. apply to_imm_entries. Qed.

Lemma to_imm_getIn v k1 k2 : throws_only P (imm_getIn v k1 k2).
Proof. unfold imm_getIn. to_auto. apply to_imm_entries. Qed.

Hint Resolve to_read_prop to_hasOwn to_own_entries_of to_assign to_imm_get
  to_imm_has to_imm_set to_imm_getIn : core.

Lemma to_getId e input parent k : throws_only P (Entity.getId e input parent k).
Proof. unfold Entity.getId. to_auto. Qed.

Lemma to_getSchemaAttribute p v parent k :
  throws_only P (Polymorphic.getSchemaAttribute p v parent k).
Proof.
  unfold Polymorphic.getSchemaAttribute, Polymorphic.call_schemaAttribute.
  to_auto.
Qed.

Lemma to_inferSchema p v parent k :
  throws_only P (Polymorphic.inferSchema p v parent k).
Proof.
  unfold Polymorphic.inferSchema. to_auto. apply to_getSchemaAttribute.
Qed.

Lemma to_getValues v : throws_only P (ArrayUtils.getValues v).
Proof. unfold ArrayUtils.getValues. to_auto. Qed.

Lemma to_getEntities h0 store id e : throws_only P (getEntities h0 store id e).
Proof. unfold getEntities. to_auto. Qed.

Hint Resolve to_getId to_getSchemaAttribute to_inferSchema to_getValues
  to_getEntities : core.

Lemma to_addEntities store e processed v parent k :
  throws_only P (addEntities store e processed v parent k).
Proof. unfold addEntities. to_auto. Qed.

Hypothesis P_arity : ∀ n, P (Error (ArrayUtils.arity_message n)).

Lemma to_validateSchema d : throws_only P (ArrayUtils.validateSchema d).
Proof.
  unfold ArrayUtils.validateSchema. to_auto. apply to_throw, P_arity.
Qed.

Hint Resolve to_validateSchema to_addEntities : core.

(** *** Normalization *)

Section normalize_errors.
Hypothesis P_validate : ∀ k kind, P (Error (Entity.validate_message k kind)).
Variable visit : VisitFn.
Hypothesis visit_throws : ∀ v parent k schema,
  throws_only P (visit v parent k schema).

Lemma to_validate e input : throws_only P (Entity.validate e input).
Proof. unfold Entity.validate. to_auto. apply to_throw, P_validate. Qed.

Lemma to_Entity_normalize e input parent k addEntity :
  (∀ e' p v par k', throws_only P (addEntity e' p v par k')) →
  throws_only P (Entity.normalize e input parent k visit addEntity).
Proof.
  intros Hadd. unfold Entity.normalize. to_auto. apply to_validate.
Qed.

Lemma to_ObjectUtils_normalize schema input parent k :
  throws_only P (ObjectUtils.normalize schema input parent k visit).
Proof. unfold ObjectUtils.normalize. to_auto. Qed.

Lemma to_ArrayUtils_normalize schema input parent k :
  throws_only P (ArrayUtils.normalize schema input parent k visit).
Proof. unfold ArrayUtils.normalize. to_auto. Qed.

Lemma to_normalizeValue p v parent k :
  throws_only P (Polymorphic.normalizeValue p v parent k visit).
Proof. unfold Polymorphic.normalizeValue. to_auto. Qed.

Hint Resolve to_normalizeValue : core.

Lemma to_Values_normalize p input parent k :
  throws_only P (Values.normalize p input parent k visit).
Proof. unfold Values.normalize. to_auto. Qed.

Lemma to_ArraySchema_normalize p input parent k :
  throws_only P (ArraySchema.normalize p input parent k visit).
Proof. unfold ArraySchema.normalize. to_auto. Qed.

Lemma to_visit_body T addEntity v parent k schema :
  (∀ e' p v par k', throws_only P (addEntity e' p v par k')) →
  throws_only P (visit_body T addEntity visit v parent k schema).
Proof.
  intros Hadd. unfold visit_body, Union.normalize.
  to_auto;
    first [ apply to_ArrayUtils_normalize | apply to_ObjectUtils_normalize
          | apply to_Entity_normalize; exact Hadd
          | apply to_ArraySchema_normalize | apply to_Values_normalize ].
Qed.

End normalize_errors.

(** *** Denormalization *)

Section denormalize_errors.
Hypothesis P_circular : ∀ k id, P (Error (circular_message k id)).
Variable unvisit : UnvisitFn.
Hypothesis unvisit_throws : ∀ v schema, throws_only P (unvisit v schema).

Lemma to_denormalizeImmutable schema input :
  throws_only P (denormalizeImmutable schema input unvisit).
Proof. unfold denormalizeImmutable. to_auto. Qed.

Lemma to_map_method (f : value → M value) v :
  (∀ x, throws_only P (f x)) → throws_only P (map_method f v).
Proof. intros Hf. unfold map_method. to_auto. Qed.

Lemma to_Entity_denormalize e entity :
  throws_only P (Entity.denormalize e entity unvisit).
Proof. unfold Entity.denormalize. to_auto. apply to_denormalizeImmutable. Qed.

Lemma to_ObjectUtils_denormalize schema input :
  throws_only P (ObjectUtils.denormalize schema input unvisit).
Proof.
  unfold ObjectUtils.denormalize. to_auto. apply to_denormalizeImmutable.
Qed.

Lemma to_ArrayUtils_denormalize schema input :
  throws_only P (ArrayUtils.denormalize schema input unvisit).
Proof. unfold ArrayUtils.denormalize. to_auto. apply to_map_method. auto. Qed.

Lemma to_denormalizeValue p v :
  throws_only P (Polymorphic.denormalizeValue p v unvisit).
Proof. unfold Polymorphic.denormalizeValue. to_auto. Qed.

Hint Resolve to_denormalizeValue : core.

Lemma to_Values_denormalize p input :
  throws_only P (Values.denormalize p input unvisit).
Proof. unfold Values.denormalize. to_auto. Qed.

Lemma to_ArraySchema_denormalize p input :
  throws_only P (ArraySchema.denormalize p input unvisit).
Proof.
  unfold ArraySchema.denormalize. to_auto. apply to_map_method. auto.
Qed.

Lemma to_unvisitEntity id schema getEntity :
  (∀ v e, throws_only P (getEntity v e)) →
  throws_only P (unvisitEntity id schema unvisit getEntity).
Proof.
  intros Hge. unfold unvisitEntity. to_auto;
    first [apply to_throw, P_circular | apply to_Entity_denormalize].
Qed.

Lemma to_denormalize_undefined input :
  throws_only P (denormalize_undefined input).
Proof. unfold denormalize_undefined. to_auto. Qed.

Lemma to_unvisit_body T getEntity input schema :
  (∀ v e, throws_only P (getEntity v e)) →
  throws_only P (unvisit_body T getEntity unvisit input schema).
Proof.
  intros Hge. unfold unvisit_body, Union.denormalize.
  to_auto;
    first [ apply to_ArrayUtils_denormalize | apply to_ObjectUtils_denormalize
          | apply to_denormalize_undefined
          | apply to_unvisitEntity; exact Hge
          | apply to_ArraySchema_denormalize | apply to_Values_denormalize ].
Qed.

End denormalize_errors.
End errors.

Lemma visit_throws fuel T store v parent k schema :
  throws_only normalize_error
    (visit fuel T (addEntities store) v parent k schema).
Proof.
  revert v parent k schema.
  induction fuel as [|fuel IH]; intros v parent k schema.
  - intros s. exact Logic.I.
  - simpl. apply to_visit_body; unfold normalize_error; eauto.
    intros. apply to_addEntities; eauto.
Qed.

Lemma unvisit_throws fuel T h0 store v schema :
  throws_only denormalize_error
    (unvisit fuel T (getEntities h0 store) v schema).
Proof.
  revert v schema. induction fuel as [|fuel IH]; intros v schema.
  - intros s. exact Logic.I.
  - simpl. apply to_unvisit_body; unfold denormalize_error; eauto.
    intros. apply to_getEntities; eauto.
Qed.

Lemma unexpected_input_distinct found e :
  normalize_error e → e ≠ Error (unexpected_input_message found).
Proof.
  intros [(k & kind & ->) | [(n & ->) | (m & ->)]]; discriminate.
Qed.

(* --------------------------------------------------------------------- *)
(** ** The input check of [normalize] *)

(** C7 as stated fails: [normalize] also throws for inputs that are
    arrays.  The array test of the repository,
    [normalize([{id: 1}], [catSchema, userSchema])], is rejected for its
    schema, and [normalize([[]], [users])] for the array that reaches the
    entity schema. *)
Lemma normalize_throws_on_array_input :
  is_object (VObject 0) = true
  ∧ normalize 2 Examples.two_schema_table (VObject 0)
      (SArray [SClass 0; SClass 1]) Examples.one_user_heap
    = Thrown (Error (ArrayUtils.arity_message 2))
        (Examples.one_user_heap ++ [OPlain []])
  ∧ normalize 2 Examples.user_table (VObject 0) (SArray [SClass 0])
      Examples.nested_array_heap
    = Thrown (Error (Entity.validate_message "users" "an array"))
        (Examples.nested_array_heap ++ [OPlain []]).
Proof. repeat split; vm_compute; reflexivity. Qed.

(** C7, amended.  [normalize] throws its "Unexpected input" error exactly
    when the input is not a non-null object or array: for [null],
    [undefined] and every primitive it throws at once, the message names
    the kind received ([null] or the [typeof] name), the heap is untouched
    and no [{result, entities}] is returned.  For an object or array the
    call can still be aborted, but only by an entity [validate]
    rejection, by a shorthand array holding more than one schema, or by a
    host [TypeError]; never by the input check. *)
Theorem normalize_input_check :
  ∀ fuel T input schema h,
    (is_object input = false →
     normalize fuel T input schema h
     = Thrown (Error (unexpected_input_message
                        (if strict_eq input VNull then "null"
                         else typeof input))) h)
    ∧ (is_object input = true →
       ∀ e h', normalize fuel T input schema h = Thrown e h' →
               normalize_error e
               ∧ ∀ found, e ≠ Error (unexpected_input_message found)).
Proof.
  intros fuel T input schema h. split.
  - intros Hobj. unfold normalize, run, normalize_in.
    destruct input as [| |[]|n|str|l]; try discriminate; try reflexivity.
    + simpl. destruct (n =? 0); reflexivity.
    + simpl. destruct (String.eqb str EmptyString); reflexivity.
  - intros Hobj e h' Hthrown.
    assert (He : normalize_error e).
    { destruct input; try discriminate.
      unfold normalize, run, normalize_in in Hthrown. simpl in Hthrown.
      unfold bind at 1 in Hthrown. simpl in Hthrown.
      set (s1 := with_heap _ _) in Hthrown.
      pose proof (visit_throws fuel T (VObject (length h)) (VObject l)
                    (VObject l) None (Some schema) s1) as Hv.
      unfold wp in Hv. unfold bind in Hthrown.
      destruct (visit fuel T _ (VObject l) (VObject l) None (Some schema) s1);
        simpl in Hthrown; try discriminate.
      injection Hthrown as <- _. exact Hv. }
    split; [exact He|]. intros found. apply unexpected_input_distinct, He.
Qed.

(** [normalize(null, schema)]. *)
Lemma normalize_input_check_witness :
  normalize 0 [] VNull (SArray []) []
  = Thrown (Error (unexpected_input_message "null")) [].
Proof.
  apply (proj1 (normalize_input_check 0 [] VNull (SArray []) [])).
  reflexivity.
Defined.

(* --------------------------------------------------------------------- *)
(** ** Missing entities and the fatal cases of [denormalize] *)

Lemma Entity_denormalize_flat e entity unvisit s :
  definition e = [] → Entity.denormalize e entity unvisit s = Ok entity s.
Proof.
  intros Hd. unfold Entity.denormalize, denormalizeImmutable. rewrite Hd.
  unfold bind, get_heap. simpl. destruct (isImmutable _ _); reflexivity.
Qed.




(* --------------------------------------------------------------------- *)
(** ** Referential identity on denormalize *)

(** The README example: denormalizing the self-referential user returns
    an object (6) whose [friends] list (7) holds that very object. *)
Lemma denormalize_self_reference :
  (∀ n, denormalize (3 + n) Examples.user_table (VString "1") (SClass 0)
          (VObject 2) Examples.alice_normalized
        = Returned (VObject 6) Examples.alice_denormalized)
  ∧ get_prop Examples.alice_denormalized
      (get_prop Examples.alice_denormalized (VObject 6) "friends") "0"
    = VObject 6.
Proof. split; [intros n; vm_compute; reflexivity | reflexivity]. Qed.

(** A completed entity is answered from the cache: the instance built
    first is returned again, and nothing changes. *)
Lemma unvisitEntity_cached id e unvisit getEntity s entity v :
  getEntity id e s = Ok entity s →
  is_object entity = true →
  (key e +:+ ":" +:+ to_key id) ∉ st_inProgress s →
  default ∅ (st_cache s !! key e) !! to_key id = Some v →
  unvisitEntity id e unvisit getEntity s = Ok v s.
Proof.
  intros Hget Hobj Hnot Hhit.
  destruct entity; try discriminate.
  unfold unvisitEntity. rewrite (bind_ok _ _ _ _ _ Hget). simpl.
  unfold bind at 1. simpl. unfold bind at 1.
  assert (Hens : ensure_cache (key e) s = Ok tt s).
  { unfold ensure_cache. destruct (st_cache s !! key e); [reflexivity|].
    simpl in Hhit. rewrite lookup_empty in Hhit. discriminate. }
  rewrite Hens.
  unfold bind, inProgress_has, get_heap, cache_has, cache_get. simpl.
  rewrite (bool_decide_eq_false_2 _ Hnot), Hhit. simpl.
  rewrite Hhit. reflexivity.
Qed.

(** C2.  The code misses the claim where two cache tokens collide.  The
    in-progress set is keyed by the string [type + ':' + id], the cache by
    type and then id.  While the draft ['7'] of type ['post:draft'] is in
    progress its token ['post:draft:7'] is also the token of the post
    ['draft:7'] of type ['post'], so the draft's reference to that post is
    taken for a cycle and answered with the empty cache slot,
    [undefined] (object 7, field [parent]); the second reference to the
    same post, met after the draft is complete, is rebuilt (object 8).
    The two references to one (type, id) do not resolve to the same
    instance. *)
Theorem denormalize_token_collision :
  (∀ n, denormalize (3 + n) Examples.collision_table (VObject 0)
          Examples.collision_schema (VObject 1) Examples.collision_heap
        = Returned (VObject 6)
            (Examples.collision_heap ++
             [ OPlain [("x", VObject 7); ("y", VObject 8)];
               OPlain [("id", VString "7"); ("parent", VUndefined)];
               OPlain [("id", VString "draft:7")] ]))
  ∧ key (Examples.entity "post:draft" []) +:+ ":" +:+ to_key (VString "7")
    = key (Examples.entity "post" []) +:+ ":" +:+ to_key (VString "draft:7")
  ∧ get_prop Examples.collision_heap (VObject 4) "parent" = VString "draft:7"
  ∧ get_prop Examples.collision_heap (VObject 0) "y" = VString "draft:7"
  ∧ has_own Examples.collision_heap (VObject 3) "draft:7" = true.
Proof.
  split; [intros n; vm_compute; reflexivity|].
  repeat split; reflexivity.
Qed.

(* --------------------------------------------------------------------- *)
(** ** Round trip *)


(** *** Property lists as finite maps *)

Lemma insert_index_perm {A} n (e : string * A) l :
  insert_index n e l ≡ₚ (n, e) :: l.
Proof.
  induction l as [|[m e'] l IH]; simpl; [reflexivity|].
  destruct (n <? m)%N; [reflexivity|].
  rewrite IH. apply perm_swap.
Qed.

Lemma index_entries_perm {A} (ps : list (string * A)) :
  snd <$> index_entries ps ≡ₚ filter (λ e, ¬ array_index e.1 = None) ps.
Proof.
  induction ps as [|[k v] ps IH]; simpl; [reflexivity|].
  rewrite filter_cons. simpl.
  destruct (array_index k) as [n|] eqn:Hk.
  - rewrite insert_index_perm. simpl. rewrite IH.
    destruct (decide (¬ Some n = None)) as [_|Hn]; [reflexivity|].
    exfalso. apply Hn. discriminate.
  - rewrite IH.
    destruct (decide (¬ None = None)) as [Hn|_]; [|reflexivity].
    exfalso. apply Hn. reflexivity.
Qed.

(** [Object.keys] enumerates every own property once. *)
Lemma own_entries_perm {A} (ps : list (string * A)) : own_entries ps ≡ₚ ps.
Proof.
  unfold own_entries, named_entries. rewrite index_entries_perm.
  rewrite Permutation_app_comm. apply filter_app_complement.
Qed.

Lemma assoc_get_elem {A} k (v : A) ps : assoc_get k ps = Some v → (k, v) ∈ ps.
Proof.
  induction ps as [|[k0 v0] ps IH]; simpl; [discriminate|].
  destruct (String.eqb k k0) eqn:E.
  - apply String.eqb_eq in E. intros [= ->]. subst. left.
  - intros H. right. auto.
Qed.

Lemma assoc_get_None {A} k (ps : list (string * A)) :
  assoc_get k ps = None ↔ k ∉ ps.*1.
Proof.
  induction ps as [|[k0 v0] ps IH]; simpl.
  - split; [intros _ H; inversion H | reflexivity].
  - destruct (String.eqb k k0) eqn:E.
    + apply String.eqb_eq in E. subst. split; [discriminate|].
      intros H. exfalso. apply H. left.
    + apply String.eqb_neq in E. rewrite IH, not_elem_of_cons. tauto.
Qed.

Lemma assoc_get_NoDup {A} k (v : A) ps :
  NoDup ps.*1 → (k, v) ∈ ps → assoc_get k ps = Some v.
Proof.
  induction ps as [|[k0 v0] ps IH]; simpl; intros Hnd Hin; [inversion Hin|].
  apply NoDup_cons in Hnd as [Hnotin Hnd].
  apply elem_of_cons in Hin as [[= -> ->] | Hin].
  - rewrite String.eqb_refl. reflexivity.
  - destruct (String.eqb k k0) eqn:E; [|auto].
    apply String.eqb_eq in E. subst. exfalso. apply Hnotin.
    apply (list_elem_of_fmap_2 fst _ _ Hin).
Qed.

Lemma assoc_get_perm {A} k (ps qs : list (string * A)) :
  NoDup ps.*1 → ps ≡ₚ qs → assoc_get k ps = assoc_get k qs.
Proof.
  intros Hnd Hperm.
  assert (Hnd' : NoDup qs.*1) by (rewrite <- Hperm; exact Hnd).
  destruct (assoc_get k ps) as [v|] eqn:Hp.
  - symmetry. apply assoc_get_NoDup; [exact Hnd'|].
    rewrite <- Hperm. apply assoc_get_elem, Hp.
  - symmetry. apply assoc_get_None. rewrite <- Hperm.
    apply assoc_get_None, Hp.
Qed.

Lemma assoc_get_own_entries {A} k (ps : list (string * A)) :
  NoDup ps.*1 → assoc_get k (own_entries ps) = assoc_get k ps.
Proof.
  intros Hnd. symmetry. apply assoc_get_perm; [exact Hnd|].
  symmetry. apply own_entries_perm.
Qed.

Lemma own_entries_NoDup {A} (ps : list (string * A)) :
  NoDup ps.*1 → NoDup (own_entries ps).*1.
Proof. intros Hnd. rewrite own_entries_perm. exact Hnd. Qed.

(** A shallow copy is deep-equal to its original. *)
Lemma deep_equal_copy h la lb ps qs n :
  h !! la = Some (OPlain ps) → h !! lb = Some (OPlain qs) →
  NoDup ps.*1 → ps ≡ₚ qs →
  deep_equal (2 + n) h (VObject la) (VObject lb) = true.
Proof.
  intros Ha Hb Hnd Hperm.
  assert (Hnd' : NoDup qs.*1) by (rewrite <- Hperm; exact Hnd).
  change (2 + n)%nat with (S (S n)). cbn [deep_equal].
  apply orb_true_iff. right. rewrite Ha, Hb.
  apply andb_true_iff. split; apply forallb_forall; intros [k v] Hin.
  - apply list_elem_of_In in Hin. cbn [fst snd].
    rewrite (assoc_get_NoDup k v qs Hnd') by (rewrite <- Hperm; exact Hin).
    apply orb_true_iff. left. apply bool_decide_eq_true. reflexivity.
  - apply list_elem_of_In in Hin. cbn [fst]. unfold assoc_has.
    rewrite (assoc_get_NoDup k v ps Hnd) by (rewrite Hperm; exact Hin).
    reflexivity.
Qed.

(** *** Looking up and updating the objects a call has just allocated *)

Lemma lookup_app_old (h t : heap) l o :
  h !! l = Some o → (h ++ t) !! l = Some o.
Proof. apply lookup_app_l_Some. Qed.

Lemma lookup_app_new (h t : heap) i :
  (h ++ t) !! (length h + i)%nat = t !! i.
Proof. rewrite lookup_app_r by lia. f_equal. lia. Qed.

Lemma insert_app_new (h t : heap) i o :
  <[(length h + i)%nat := o]> (h ++ t) = h ++ <[i := o]> t.
Proof. rewrite insert_app_r_alt by lia. do 2 f_equal. lia. Qed.

Lemma isImmutable_plain h l ps :
  h !! l = Some (OPlain ps) → not_immutable_like ps →
  isImmutable h (VObject l) = false.
Proof.
  intros Hl [Ho Hm]. unfold isImmutable, get_prop. rewrite Hl, Ho, Hm.
  reflexivity.
Qed.

Lemma not_immutable_like_own_entries ps :
  NoDup ps.*1 → not_immutable_like ps → not_immutable_like (own_entries ps).
Proof.
  intros Hnd [Ho Hm]. unfold not_immutable_like.
  rewrite !assoc_get_own_entries by exact Hnd. auto.
Qed.

(* --------------------------------------------------------------------- *)
(** ** Round trip: inputs that conform to a schema *)

(** *** Facts about trees *)

Lemma depth_elem t ts : t ∈ ts → (depth t < depth (TArr ts))%nat.
Proof.
  intros Hin. cbn [depth]. apply Nat.lt_succ_r.
  induction ts as [|t' ts IH]; [inversion Hin|].
  cbn [fold_right]. apply elem_of_cons in Hin as [->|Hin].
  - apply Nat.le_max_l.
  - etransitivity; [apply IH, Hin | apply Nat.le_max_r].
Qed.

Lemma depth_field k t ps :
  assoc_get k ps = Some t → (depth t < depth (TObj ps))%nat.
Proof.
  intros Hget. apply assoc_get_elem in Hget. cbn [depth].
  apply Nat.lt_succ_r.
  induction ps as [|p ps IH]; [inversion Hget|].
  cbn [fold_right]. apply elem_of_cons in Hget as [<-|Hin].
  - apply Nat.le_max_l.
  - etransitivity; [apply IH, Hin | apply Nat.le_max_r].
Qed.

Lemma Forall2_impl_elem {A B} (R R' : A → B → Prop) l k :
  Forall2 R l k → (∀ x y, x ∈ l → R x y → R' x y) → Forall2 R' l k.
Proof.
  induction 1 as [|x y l k Hxy _ IH]; intros Himp; constructor.
  - apply Himp; [left | exact Hxy].
  - apply IH. intros x' y' Hin. apply Himp. right. exact Hin.
Qed.

(** *** Property lists under assignment *)

Lemma assoc_set_keys {A} k (v : A) ps :
  k ∈ ps.*1 → (assoc_set k v ps).*1 = ps.*1.
Proof.
  induction ps as [|[k0 v0] ps IH]; simpl; intros Hin; [inversion Hin|].
  destruct (String.eqb k k0) eqn:E.
  - apply String.eqb_eq in E. subst. reflexivity.
  - simpl. f_equal. apply IH. apply elem_of_cons in Hin as [->|Hin];
      [rewrite String.eqb_refl in E; discriminate | exact Hin].
Qed.

Lemma assoc_set_new {A} k (v : A) ps :
  k ∉ ps.*1 → assoc_set k v ps = ps ++ [(k, v)].
Proof.
  induction ps as [|[k0 v0] ps IH]; simpl; intros Hnot; [reflexivity|].
  apply not_elem_of_cons in Hnot as [Hne Hnot].
  destruct (String.eqb k k0) eqn:E.
  - apply String.eqb_eq in E. contradiction.
  - f_equal. apply IH, Hnot.
Qed.

Lemma assoc_del_absent {A} k (ps : list (string * A)) :
  k ∉ ps.*1 → assoc_del k ps = ps.
Proof.
  induction ps as [|[k0 v0] ps IH]; simpl; intros Hnot; [reflexivity|].
  apply not_elem_of_cons in Hnot as [Hne Hnot].
  destruct (String.eqb k k0) eqn:E.
  - apply String.eqb_eq in E. contradiction.
  - f_equal. apply IH, Hnot.
Qed.

Lemma assoc_get_Some_key {A} k (v : A) ps : assoc_get k ps = Some v → k ∈ ps.*1.
Proof.
  intros H. apply assoc_get_elem in H.
  apply (list_elem_of_fmap_2 fst _ _ H).
Qed.

Lemma assoc_get_is_Some {A} k (ps : list (string * A)) :
  k ∈ ps.*1 → ∃ v, assoc_get k ps = Some v.
Proof.
  intros Hin. destruct (assoc_get k ps) as [v|] eqn:H; [eauto|].
  apply assoc_get_None in H. contradiction.
Qed.

Lemma assoc_has_true {A} k (ps : list (string * A)) :
  assoc_has k ps = true ↔ k ∈ ps.*1.
Proof.
  unfold assoc_has. destruct (assoc_get k ps) eqn:H.
  - split; [intros _; eapply assoc_get_Some_key, H | reflexivity].
  - apply assoc_get_None in H. split; [discriminate | contradiction].
Qed.

(** *** Reading plain objects *)

Lemma get_prop_plain h l ps k :
  h !! l = Some (OPlain ps) →
  get_prop h (VObject l) k = default VUndefined (assoc_get k ps).
Proof. unfold get_prop. intros ->. reflexivity. Qed.

Lemma has_own_plain h l ps k :
  h !! l = Some (OPlain ps) → has_own h (VObject l) k = assoc_has k ps.
Proof. unfold has_own. intros ->. reflexivity. Qed.

Lemma spread_props_plain h l ps :
  h !! l = Some (OPlain ps) → spread_props h (VObject l) = own_entries ps.
Proof. unfold spread_props. intros ->. reflexivity. Qed.

Lemma set_prop_plain h l ps k v :
  h !! l = Some (OPlain ps) →
  set_prop h l k v = <[l := OPlain (assoc_set k v ps)]> h.
Proof. unfold set_prop. intros ->. reflexivity. Qed.

Lemma plain_keys_not_immutable_like (ps : list (string * value)) :
  plain_keys ps.*1 → not_immutable_like ps.
Proof.
  intros [Ho Hm]. unfold not_immutable_like.
  apply assoc_get_None in Ho, Hm. rewrite Ho, Hm. split; reflexivity.
Qed.

Lemma plain_keys_perm ks ks' : ks ≡ₚ ks' → plain_keys ks → plain_keys ks'.
Proof. unfold plain_keys. intros Hp. rewrite Hp. exact id. Qed.

(** *** Stability of the relations *)

Lemma is_store_same h h' E l :
  h' !! E = h !! E → is_store h' E l ↔ is_store h E l.
Proof.
  intros Heq. unfold is_store, get_prop. rewrite Heq. reflexivity.
Qed.

Lemma evolves_on_refl P E h : evolves_on P E h h.
Proof. repeat split; auto. Qed.

Lemma evolves_on_trans P E h1 h2 h3 :
  evolves_on P E h1 h2 → evolves_on P E h2 h3 → evolves_on P E h1 h3.
Proof.
  intros (Hlen1 & Hfr1 & Hst1) (Hlen2 & Hfr2 & Hst2).
  split; [lia|]. split.
  - intros l Hl Hns. destruct (Hfr1 l Hl Hns) as [Hns1 Heq1].
    destruct (Hfr2 l ltac:(lia) Hns1) as [Hns2 Heq2].
    split; [exact Hns2|]. intros HP. rewrite Heq2, Heq1 by exact HP.
    reflexivity.
  - intros k i v Hv. apply Hst2, Hst1, Hv.
Qed.

Lemma evolves_on_weaken (P Q : loc → Prop) E h h' :
  (∀ l, (l < length h)%nat → Q l → P l) →
  evolves_on P E h h' → evolves_on Q E h h'.
Proof.
  intros Hle (Hlen & Hfr & Hst). split; [exact Hlen|]. split; [|exact Hst].
  intros l Hl Hns. destruct (Hfr l Hl Hns) as [Hns' Heq].
  split; [exact Hns'|]. intros HQ. apply Heq, Hle; assumption.
Qed.

Lemma fields_stored_impl (R R' : Schema → tree → value → Prop) fields ps rs :
  fields_stored R fields ps rs →
  (∀ s tf v, (depth tf < depth (TObj ps))%nat → R s tf v → R' s tf v) →
  fields_stored R' fields ps rs.
Proof.
  intros (Hnd & Hperm & Hdecl & Hundecl) Himp.
  split; [exact Hnd|]. split; [exact Hperm|]. split; [|exact Hundecl].
  eapply Forall_impl; [exact Hdecl|]. intros d Hd tf Htf.
  destruct (Hd tf Htf) as (v & Hv & HR). exists v. split; [exact Hv|].
  apply Himp; [|exact HR]. eapply depth_field, Htf.
Qed.

Lemma stored_stable T (P : loc → Prop) n E h h' :
  (∀ l, (n ≤ l)%nat → P l) →
  evolves_on P E h h' →
  ∀ d s t r, (depth t < d)%nat → stored T n h E s t r → stored T n h' E s t r.
Proof.
  intros HP (Hlen & Hfr & Hst). induction d as [|d IH]; intros s t r Hd Hs;
    [lia|].
  assert (Hnode : ∀ (l : loc) o, (n ≤ l)%nat → ¬ is_store h E l →
                         h !! l = Some o →
                         h' !! l = Some o ∧ ¬ is_store h' E l).
  { intros l o Hn Hns Hl. destruct (Hfr l (lookup_lt_Some _ _ _ Hl) Hns)
      as [Hns' Heq]. split; [rewrite Heq by auto; exact Hl | exact Hns']. }
  assert (Hfields : ∀ fields ps rs, (depth (TObj ps) < S d)%nat →
            fields_stored (stored T n h E) fields ps rs →
            fields_stored (stored T n h' E) fields ps rs).
  { intros fields ps rs Hdp Hf. eapply fields_stored_impl; [exact Hf|].
    intros s' tf v Hlt. apply IH. lia. }
  inversion Hs; subst.
  - destruct (Hnode _ _ H2 H3 H4) as [Hl' Hns'].
    eapply stored_entity; eauto.
  - destruct (Hnode _ _ H H0 H1) as [Hl' Hns'].
    eapply stored_array; eauto.
    eapply Forall2_impl_elem; [exact H2|]. intros t' v' Hin. apply IH.
    pose proof (depth_elem _ _ Hin). lia.
  - destruct (Hnode _ _ H H0 H1) as [Hl' Hns'].
    eapply stored_object; eauto.
  - destruct (Hnode _ _ H0 H1 H2) as [Hl' Hns'].
    eapply stored_object_class; eauto.
Qed.

Lemma stored_weaken T n n' E h :
  (n' ≤ n)%nat →
  ∀ d s t r, (depth t < d)%nat → stored T n h E s t r → stored T n' h E s t r.
Proof.
  intros Hle. induction d as [|d IH]; intros s t r Hd Hs; [lia|].
  assert (Hfields : ∀ fields ps rs, (depth (TObj ps) < S d)%nat →
            fields_stored (stored T n h E) fields ps rs →
            fields_stored (stored T n' h E) fields ps rs).
  { intros fields ps rs Hdp Hf. eapply fields_stored_impl; [exact Hf|].
    intros s' tf v Hlt. apply IH. lia. }
  inversion Hs; subst.
  - eapply stored_entity; eauto. lia.
  - eapply stored_array; eauto; [lia|].
    eapply Forall2_impl_elem; [exact H2|]. intros t' v' Hin. apply IH.
    pose proof (depth_elem _ _ Hin). lia.
  - eapply stored_object; eauto. lia.
  - eapply stored_object_class; eauto. lia.
Qed.

Lemma repr_from_stable n h h' :
  (∀ l o, (n ≤ l)%nat → h !! l = Some o → h' !! l = Some o) →
  ∀ d t v, (depth t < d)%nat → repr_from n h t v → repr_from n h' t v.
Proof.
  intros Hfr. induction d as [|d IH]; intros t v Hd Hr; [lia|].
  inversion Hr; subst.
  - constructor.
  - eapply repr_arr; eauto.
    eapply Forall2_impl_elem; [exact H1|]. intros t' v' Hin. apply IH.
    pose proof (depth_elem _ _ Hin). lia.
  - eapply repr_obj; eauto.
    apply Forall_forall. intros p Hp.
    rewrite Forall_forall in H3. destruct (H3 p Hp) as (v & Hv & Hrv).
    exists v. split; [exact Hv|]. apply IH; [|exact Hrv].
    pose proof (depth_field p.1 p.2 ps) as Hdf.
    assert (Hnd : NoDup ps.*1) by (rewrite <- H2; exact H1).
    rewrite (assoc_get_NoDup p.1 p.2 ps Hnd) in Hdf
      by (destruct p; exact Hp).
    specialize (Hdf eq_refl). lia.
Qed.

Lemma repr_from_weaken n n' h :
  (n' ≤ n)%nat →
  ∀ d t v, (depth t < d)%nat → repr_from n h t v → repr_from n' h t v.
Proof.
  intros Hle. induction d as [|d IH]; intros t v Hd Hr; [lia|].
  inversion Hr; subst.
  - constructor.
  - eapply repr_arr; eauto; [lia|].
    eapply Forall2_impl_elem; [exact H1|]. intros t' v' Hin. apply IH.
    pose proof (depth_elem _ _ Hin). lia.
  - eapply repr_obj; eauto; [lia|].
    apply Forall_forall. intros p Hp.
    rewrite Forall_forall in H3. destruct (H3 p Hp) as (v & Hv & Hrv).
    exists v. split; [exact Hv|]. apply IH; [|exact Hrv].
    pose proof (depth_field p.1 p.2 ps) as Hdf.
    assert (Hnd : NoDup ps.*1) by (rewrite <- H2; exact H1).
    rewrite (assoc_get_NoDup p.1 p.2 ps Hnd) in Hdf
      by (destruct p; exact Hp).
    specialize (Hdf eq_refl). lia.
Qed.

Lemma repr_from_prefix n h h' t v :
  h `prefix_of` h' → repr_from n h t v → repr_from n h' t v.
Proof.
  intros [k ->] Hr. eapply (repr_from_stable n h); [|constructor|exact Hr].
  intros l o _ Hl. apply lookup_app_l_Some, Hl.
Qed.

(** *** Single steps *)

Lemma run_hasOwn l k s :
  hasOwn (VObject l) k s = Ok (has_own (st_heap s) (VObject l) k) s.
Proof. reflexivity. Qed.

Lemma run_read_prop l k s :
  read_prop (VObject l) k s = Ok (get_prop (st_heap s) (VObject l) k) s.
Proof. reflexivity. Qed.

Lemma run_assign l k v s :
  assign (VObject l) k v s = Ok tt (with_heap (set_prop (st_heap s) l k v) s).
Proof. reflexivity. Qed.

Lemma run_alloc o s :
  alloc o s = Ok (VObject (length (st_heap s))) (with_heap (st_heap s ++ [o]) s).
Proof. reflexivity. Qed.

Lemma run_spread v s :
  spread v s
  = Ok (VObject (length (st_heap s)))
      (with_heap (st_heap s ++ [OPlain (spread_props (st_heap s) v)]) s).
Proof. reflexivity. Qed.

Lemma run_get_heap s : get_heap s = Ok (st_heap s) s.
Proof. reflexivity. Qed.

Ltac step_with lem := unfold bind at 1; rewrite lem; cbv beta iota.
Ltac step_ok H := rewrite (bind_ok _ _ _ _ _ H).

Lemma validate_plain e l s ps :
  st_heap s !! l = Some (OPlain ps) →
  Entity.validate e (VObject l) s = Ok (VObject l) s.
Proof.
  intros Hl. unfold Entity.validate, bind, get_heap, Entity.is_array.
  rewrite Hl. reflexivity.
Qed.

Lemma getId_plain e attr l s ps parent k :
  idAttribute e = IdString attr →
  st_heap s !! l = Some (OPlain ps) →
  not_immutable_like ps →
  Entity.getId e (VObject l) parent k s
  = Ok (default VUndefined (assoc_get attr ps)) s.
Proof.
  intros Hattr Hl Hni. unfold Entity.getId. step_with run_get_heap.
  rewrite Hattr, (isImmutable_plain _ _ _ Hl Hni), run_read_prop.
  rewrite (get_prop_plain _ _ _ _ Hl). reflexivity.
Qed.

(** *** The store builder on a new (type, id) *)

Lemma store_get_eq h E k i bs b recs :
  h !! E = Some (OPlain bs) → assoc_get k bs = Some (VObject b) →
  h !! b = Some (OPlain recs) → store_get h E k i = assoc_get i recs.
Proof. unfold store_get. intros -> -> ->. reflexivity. Qed.

Lemma store_get_no_bucket h E k i bs :
  h !! E = Some (OPlain bs) → assoc_get k bs = None → store_get h E k i = None.
Proof. unfold store_get. intros -> ->. reflexivity. Qed.

Lemma is_store_bucket h E bs l :
  h !! E = Some (OPlain bs) →
  is_store h E l ↔ l = E ∨ ∃ k, assoc_get k bs = Some (VObject l).
Proof.
  intros HE. unfold is_store. setoid_rewrite (get_prop_plain _ _ _ _ HE).
  split; intros [->|[k Hk]]; auto; right; exists k.
  - destruct (assoc_get k bs); simpl in Hk; [congruence | discriminate].
  - rewrite Hk. reflexivity.
Qed.

Lemma addEntities_existing_bucket e input parent k s E p idv bs b recs :
  Entity.getId e input parent k s = Ok idv s →
  st_heap s !! E = Some (OPlain bs) →
  assoc_get (key e) bs = Some (VObject b) →
  st_heap s !! b = Some (OPlain recs) →
  assoc_get (to_key idv) recs = None →
  addEntities (VObject E) e (VObject p) input parent k s
  = Ok tt (with_heap
             (<[b := OPlain (assoc_set (to_key idv) (VObject p) recs)]>
                (st_heap s)) s).
Proof.
  intros Hid HE Hk Hb Hnone. unfold addEntities.
  step_ok Hid. step_with run_hasOwn.
  rewrite (has_own_plain _ _ _ _ HE). unfold assoc_has at 1. rewrite Hk.
  unfold bind at 1. cbv beta iota. unfold ret at 1. cbv beta iota.
  step_with run_read_prop. rewrite (get_prop_plain _ _ _ _ HE), Hk.
  cbn [default from_option id]. step_with run_hasOwn.
  rewrite (has_own_plain _ _ _ _ Hb).
  unfold assoc_has. rewrite Hnone. rewrite run_assign.
  rewrite (set_prop_plain _ _ _ _ _ Hb). reflexivity.
Qed.

Lemma addEntities_new_bucket e input parent k s E p idv bs :
  Entity.getId e input parent k s = Ok idv s →
  st_heap s !! E = Some (OPlain bs) →
  assoc_get (key e) bs = None →
  addEntities (VObject E) e (VObject p) input parent k s
  = Ok tt (with_heap
             (<[length (st_heap s) := OPlain [(to_key idv, VObject p)]]>
                (<[E := OPlain (assoc_set (key e)
                                  (VObject (length (st_heap s))) bs)]>
                   (st_heap s ++ [OPlain []]))) s).
Proof.
  intros Hid HE Hk. unfold addEntities.
  assert (HEl : (E < length (st_heap s))%nat) by (eapply lookup_lt_Some, HE).
  step_ok Hid. step_with run_hasOwn.
  rewrite (has_own_plain _ _ _ _ HE). unfold assoc_has at 1. rewrite Hk.
  unfold bind at 1. step_with run_alloc. rewrite run_assign. cbv beta iota.
  set (h1 := st_heap s ++ [OPlain []]).
  assert (HE1 : h1 !! E = Some (OPlain bs))
    by (apply lookup_app_l_Some, HE).
  cbn [st_heap with_heap].
  fold h1. rewrite (set_prop_plain _ _ _ _ _ HE1).
  set (b := length (st_heap s)).
  set (h2 := <[E := OPlain (assoc_set (key e) (VObject b) bs)]> h1).
  assert (HE2 : h2 !! E = Some (OPlain (assoc_set (key e) (VObject b) bs))).
  { apply list_lookup_insert_eq. unfold h1. rewrite length_app. simpl. lia. }
  assert (Hb2 : h2 !! b = Some (OPlain [])).
  { unfold h2. rewrite list_lookup_insert_ne by (unfold b; lia).
    unfold h1, b. rewrite lookup_app_r by lia. rewrite Nat.sub_diag.
    reflexivity. }
  step_with run_read_prop. cbn [st_heap with_heap].
  rewrite (get_prop_plain _ _ _ _ HE2), assoc_get_set, String.eqb_refl.
  cbn [default from_option id].
  step_with run_hasOwn. cbn [st_heap with_heap].
  rewrite (has_own_plain _ _ _ _ Hb2). cbn [assoc_has assoc_get].
  rewrite run_assign. cbn [st_heap with_heap].
  rewrite (set_prop_plain _ _ _ _ _ Hb2). reflexivity.
Qed.

Lemma heap_lookup_insert_ne (h : heap) (i j : loc) (x : obj) :
  i ≠ j → (<[i := x]> h) !! j = h !! j.
Proof. apply list_lookup_insert_ne. Qed.

Lemma heap_lookup_insert_eq (h : heap) (i : loc) (x : obj) :
  (i < length h)%nat → (<[i := x]> h) !! i = Some x.
Proof. apply list_lookup_insert_eq. Qed.

Lemma heap_length_insert (h : heap) (i : loc) (x : obj) :
  length (<[i := x]> h) = length h.
Proof. apply length_insert. Qed.

Lemma store_get_monotone_of_others h h' E k i :
  store_get h E k i = None →
  (∀ k' i', (k', i') ≠ (k, i) → store_get h' E k' i' = store_get h E k' i') →
  ∀ k' i' v, store_get h E k' i' = Some v → store_get h' E k' i' = Some v.
Proof.
  intros Hnone Hothers k' i' v Hv. rewrite Hothers; [exact Hv|].
  intros [= -> ->]. congruence.
Qed.

Lemma addEntities_fresh e input parent k s E p idv :
  Entity.getId e input parent k s = Ok idv s →
  plain_keys [key e] →
  store_ok (st_heap s) E →
  store_get (st_heap s) E (key e) (to_key idv) = None →
  ∃ h',
    addEntities (VObject E) e (VObject p) input parent k s
    = Ok tt (with_heap h' s)
    ∧ evolves E (st_heap s) h'
    ∧ store_ok h' E
    ∧ store_get h' E (key e) (to_key idv) = Some (VObject p)
    ∧ (∀ k' i', (k', i') ≠ (key e, to_key idv) →
                store_get h' E k' i' = store_get (st_heap s) E k' i').
Proof.
  intros Hid Hpk (bs & HE & Hpl & Hbs) Hnone.
  set (h := st_heap s) in *. set (i := to_key idv) in *.
  assert (HEl : (E < length h)%nat) by (eapply lookup_lt_Some, HE).
  destruct (assoc_get (key e) bs) as [v|] eqn:Hk.
  - destruct (Hbs _ _ Hk) as (b & recs & -> & HEb & Hb & Hinj).
    assert (Hirec : assoc_get i recs = None).
    { rewrite <- (store_get_eq _ _ _ _ _ _ _ HE Hk Hb). exact Hnone. }
    set (recs' := assoc_set i (VObject p) recs).
    set (h' := <[b := OPlain recs']> h).
    assert (HE' : h' !! E = Some (OPlain bs)).
    { unfold h'. rewrite heap_lookup_insert_ne by lia. exact HE. }
    assert (Hb' : h' !! b = Some (OPlain recs')).
    { apply heap_lookup_insert_eq. eapply lookup_lt_Some, Hb. }
    assert (Hothers : ∀ k' i', (k', i') ≠ (key e, i) →
              store_get h' E k' i' = store_get h E k' i').
    { intros k' i' Hne. unfold store_get. rewrite HE', HE.
      destruct (assoc_get k' bs) as [[| | | | |b']|] eqn:Hk'; try reflexivity.
      destruct (decide (b' = b)) as [->|Hbb].
      - rewrite Hb', Hb. unfold recs'. rewrite assoc_get_set.
        destruct (String.eqb i' i) eqn:Ei; [|reflexivity].
        apply String.eqb_eq in Ei. subst i'.
        exfalso. apply Hne. f_equal. apply (Hinj _ Hk').
      - unfold h'. rewrite heap_lookup_insert_ne by congruence. reflexivity. }
    exists h'. split; [|split; [|split; [|split]]].
    + apply (addEntities_existing_bucket _ _ _ _ _ _ _ _ _ _ _ Hid HE Hk Hb
               Hirec).
    + split; [unfold h'; rewrite heap_length_insert; lia|]. split.
      * intros l Hl Hns.
        assert (Hlb : l ≠ b).
        { intros ->. apply Hns. apply (is_store_bucket _ _ _ _ HE). eauto. }
        split; [rewrite (is_store_same h h') by congruence; exact Hns|].
        intros _. unfold h'. rewrite heap_lookup_insert_ne by congruence.
        reflexivity.
      * apply (store_get_monotone_of_others _ _ _ _ _ Hnone Hothers).
    + exists bs. split; [exact HE'|]. split; [exact Hpl|]. intros k' v Hk'.
      destruct (Hbs _ _ Hk') as (b' & recs0 & -> & HEb' & Hb0 & Hinj').
      destruct (decide (b' = b)) as [->|Hbb].
      * exists b, recs'. auto.
      * exists b', recs0. split; [reflexivity|]. split; [exact HEb'|].
        split; [|exact Hinj'].
        unfold h'. rewrite heap_lookup_insert_ne by congruence. exact Hb0.
    + rewrite (store_get_eq _ _ _ _ _ _ _ HE' Hk Hb'). unfold recs'.
      rewrite assoc_get_set, String.eqb_refl. reflexivity.
    + exact Hothers.
  - set (b := (length h : loc)).
    set (bs' := assoc_set (key e) (VObject b) bs).
    set (h' := (<[b := OPlain [(i, VObject p)]]>
                 (<[E := OPlain bs']> (h ++ [OPlain []])) : heap)).
    assert (Hlen : length h' = S (length h)).
    { unfold h'. rewrite !heap_length_insert, length_app. simpl. lia. }
    assert (HE' : h' !! E = Some (OPlain bs')).
    { unfold h'. rewrite heap_lookup_insert_ne by (unfold b; lia).
      apply heap_lookup_insert_eq. rewrite length_app. simpl. lia. }
    assert (Hb' : h' !! b = Some (OPlain [(i, VObject p)])).
    { apply heap_lookup_insert_eq. rewrite heap_length_insert, length_app.
      simpl. unfold b. lia. }
    assert (Hold : ∀ l : loc, (l < length h)%nat → l ≠ E → h' !! l = h !! l).
    { intros l Hl HlE. unfold h'.
      rewrite !heap_lookup_insert_ne by (unfold b; lia || congruence).
      apply lookup_app_l. exact Hl. }
    assert (Hbs' : ∀ k', assoc_get k' bs' =
              if String.eqb k' (key e) then Some (VObject b)
              else assoc_get k' bs).
    { intros k'. unfold bs'. apply assoc_get_set. }
    assert (Hothers : ∀ k' i', (k', i') ≠ (key e, i) →
              store_get h' E k' i' = store_get h E k' i').
    { intros k' i' Hne. unfold store_get. rewrite HE', HE, Hbs'.
      destruct (String.eqb k' (key e)) eqn:Ek.
      - apply String.eqb_eq in Ek. subst k'. rewrite Hk, Hb'.
        cbn [assoc_get]. destruct (String.eqb i' i) eqn:Ei; [|reflexivity].
        apply String.eqb_eq in Ei. subst i'. contradiction.
      - destruct (assoc_get k' bs) as [v|] eqn:Hk'; [|reflexivity].
        destruct (Hbs _ _ Hk') as (b' & recs0 & -> & HEb' & Hb0 & _).
        rewrite Hold; [reflexivity | eapply lookup_lt_Some, Hb0 | lia]. }
    exists h'. split; [|split; [|split; [|split]]].
    + apply (addEntities_new_bucket _ _ _ _ _ _ _ _ _ Hid HE Hk).
    + split; [lia|]. split.
      * intros l Hl Hns.
        assert (HlE : l ≠ E) by (intros ->; apply Hns; left; reflexivity).
        split; [|intros _; apply Hold; assumption].
        intros Hs'. apply (is_store_bucket _ _ _ _ HE') in Hs'.
        destruct Hs' as [->|[k' Hk']]; [congruence|].
        rewrite Hbs' in Hk'. destruct (String.eqb k' (key e)).
        -- injection Hk' as <-. unfold b in Hl. lia.
        -- apply Hns. apply (is_store_bucket _ _ _ _ HE). eauto.
      * apply (store_get_monotone_of_others _ _ _ _ _ Hnone Hothers).
    + exists bs'. split; [exact HE'|]. split.
      { unfold bs'. rewrite assoc_set_new by (apply assoc_get_None, Hk). rewrite fmap_app.
        destruct Hpl as [Hp1 Hp2], Hpk as [Hq1 Hq2].
        split; rewrite elem_of_app; intros [?|?]; auto. }
      intros k' v Hk'. rewrite Hbs' in Hk'.
      destruct (String.eqb k' (key e)) eqn:Ek.
      * apply String.eqb_eq in Ek. subst k'. injection Hk' as <-.
        exists b, [(i, VObject p)]. split; [reflexivity|].
        split; [unfold b; lia|]. split; [exact Hb'|].
        intros k'' Hk''. rewrite Hbs' in Hk''.
        destruct (String.eqb k'' (key e)) eqn:Ek'';
          [apply String.eqb_eq in Ek''; exact Ek''|].
        destruct (Hbs _ _ Hk'') as (b' & recs0 & [= <-] & _ & Hb0 & _).
        apply lookup_lt_Some in Hb0. unfold b in Hb0. lia.
      * destruct (Hbs _ _ Hk') as (b' & recs0 & -> & HEb' & Hb0 & Hinj').
        exists b', recs0. split; [reflexivity|]. split; [exact HEb'|].
        split; [rewrite Hold; [exact Hb0 | eapply lookup_lt_Some, Hb0 | lia]|].
        intros k'' Hk''. rewrite Hbs' in Hk''.
        destruct (String.eqb k'' (key e)) eqn:Ek''; [|apply Hinj', Hk''].
        injection Hk'' as <-. apply lookup_lt_Some in Hb0. unfold b in Hb0.
        lia.
    + assert (Hkb : assoc_get (key e) bs' = Some (VObject b)).
      { rewrite Hbs', String.eqb_refl. reflexivity. }
      rewrite (store_get_eq _ _ _ _ _ _ _ HE' Hkb Hb').
      cbn [assoc_get]. rewrite String.eqb_refl. reflexivity.
    + exact Hothers.
Qed.

(** *** The bookkeeping of visited entities *)

Lemma run_ensure_visited k i s :
  ∃ V, Entity.ensure_visited k i s = Ok tt (with_visited V s)
       ∧ ∀ k' i', visited_of (with_visited V s) k' i' = visited_of s k' i'.
Proof.
  unfold Entity.ensure_visited. eexists. split; [reflexivity|].
  intros k' i'. unfold visited_of. cbn [st_visited with_visited].
  set (v := st_visited s).
  set (v1 := match v !! k with Some _ => v | None => <[k := ∅]> v end).
  assert (H1 : ∀ k', default ∅ (v1 !! k') = default ∅ (v !! k')).
  { intros k''. unfold v1. destruct (v !! k) eqn:Hk; [reflexivity|].
    destruct (decide (k = k'')) as [<-|Hne].
    - rewrite lookup_insert_eq, Hk. reflexivity.
    - rewrite lookup_insert_ne by exact Hne. reflexivity. }
  destruct (default ∅ (v1 !! k) !! i) eqn:Hi; [rewrite H1; reflexivity|].
  destruct (decide (k = k')) as [<-|Hne].
  - rewrite lookup_insert_eq. cbn [default from_option id].
    rewrite <- H1.
    destruct (decide (i = i')) as [<-|Hni].
    + rewrite lookup_insert_eq, Hi. reflexivity.
    + rewrite lookup_insert_ne by exact Hni. reflexivity.
  - rewrite lookup_insert_ne by exact Hne. rewrite H1. reflexivity.
Qed.

Lemma run_visited_refs k i s :
  Entity.visited_refs k i s = Ok (visited_of s k i) s.
Proof. reflexivity. Qed.

Lemma run_push_visited k i x s :
  ∃ V, Entity.push_visited k i x s = Ok tt (with_visited V s)
       ∧ ∀ k' i', (k', i') ≠ (k, i) →
                  visited_of (with_visited V s) k' i' = visited_of s k' i'.
Proof.
  unfold Entity.push_visited. eexists. split; [reflexivity|].
  intros k' i' Hne. unfold visited_of. cbn [st_visited with_visited].
  destruct (decide (k = k')) as [<-|Hnk].
  - rewrite lookup_insert_eq. cbn [default from_option id].
    rewrite lookup_insert_ne; [reflexivity|]. intros <-. contradiction.
  - rewrite lookup_insert_ne by exact Hnk. reflexivity.
Qed.

(** *** What a visit establishes *)

Lemma store_not_below h E l :
  store_ok h E → (l < E)%nat → ¬ is_store h E l.
Proof.
  intros (bs & HE & _ & Hbs) Hl Hs.
  apply (is_store_bucket _ _ _ _ HE) in Hs. destruct Hs as [->|[k Hk]]; [lia|].
  destruct (Hbs _ _ Hk) as (b & recs & [= <-] & Hlt & _). lia.
Qed.

Lemma store_ok_lt h E : store_ok h E → (E < length h)%nat.
Proof. intros (bs & HE & _). eapply lookup_lt_Some, HE. Qed.

Lemma below_evolves (P : loc → Prop) h0 E h h' :
  (length h0 ≤ E)%nat → (∀ l, (l < length h0)%nat → P l) →
  store_ok h E → below h0 h → evolves_on P E h h' → below h0 h'.
Proof.
  intros HE HP Hok Hb (Hlen & Hfr & _) l Hl.
  pose proof (store_ok_lt _ _ Hok).
  assert (Hl1 : (l < length h)%nat) by lia.
  assert (Hl2 : (l < E)%nat) by lia.
  destruct (Hfr l Hl1 (store_not_below _ _ _ Hok Hl2)) as [_ Heq].
  rewrite Heq by auto. apply Hb, Hl.
Qed.

Lemma unvisited_sub E ids ids' s :
  ids' ⊆ ids → unvisited E ids s → unvisited E ids' s.
Proof. intros Hsub Hu k i Hin. apply Hu, Hsub, Hin. Qed.

Lemma unvisited_same_outside E ids ids' s s' :
  (∀ x, x ∈ ids' → x ∉ ids) →
  same_outside E ids s s' → unvisited E ids' s → unvisited E ids' s'.
Proof.
  intros Hdisj Hsame Hu k i Hin. destruct (Hsame k i (Hdisj _ Hin)) as [-> ->].
  apply Hu, Hin.
Qed.

Lemma same_outside_refl E ids s : same_outside E ids s s.
Proof. intros k i _. auto. Qed.

Lemma same_outside_trans E ids1 ids2 ids s1 s2 s3 :
  ids1 ⊆ ids → ids2 ⊆ ids →
  same_outside E ids1 s1 s2 → same_outside E ids2 s2 s3 →
  same_outside E ids s1 s3.
Proof.
  intros H1 H2 Ha Hb k i Hni.
  destruct (Ha k i) as [Ha1 Ha2]; [intros ?; apply Hni, H1; assumption|].
  destruct (Hb k i) as [Hb1 Hb2]; [intros ?; apply Hni, H2; assumption|].
  split; congruence.
Qed.

(** *** Steps that leave the store alone *)

Lemma store_same_is_store E h h' l :
  store_same E h h' → is_store h' E l ↔ is_store h E l.
Proof. intros Hs. apply is_store_same, Hs. left. reflexivity. Qed.

Lemma store_same_get E h h' k i :
  store_same E h h' → store_get h' E k i = store_get h E k i.
Proof.
  intros Hs. unfold store_get. rewrite (Hs E) by (left; reflexivity).
  destruct (h !! E) as [[bs| |]|] eqn:HE; try reflexivity.
  destruct (assoc_get k bs) as [[| | | | |b]|] eqn:Hk; try reflexivity.
  rewrite (Hs b); [reflexivity|].
  apply (is_store_bucket _ _ _ _ HE). eauto.
Qed.

Lemma store_same_ok E h h' : store_same E h h' → store_ok h E → store_ok h' E.
Proof.
  intros Hs (bs & HE & Hpl & Hbs). exists bs.
  split; [rewrite (Hs E) by (left; reflexivity); exact HE|].
  split; [exact Hpl|]. intros k v Hk.
  destruct (Hbs k v Hk) as (b & recs & -> & Hlt & Hb & Hinj).
  exists b, recs. split; [reflexivity|]. split; [exact Hlt|].
  split; [|exact Hinj]. rewrite (Hs b); [exact Hb|].
  apply (is_store_bucket _ _ _ _ HE). eauto.
Qed.

Lemma store_same_evolves (P : loc → Prop) E h h' :
  (length h ≤ length h')%nat → store_same E h h' →
  (∀ l, (l < length h)%nat → P l → h' !! l = h !! l) →
  evolves_on P E h h'.
Proof.
  intros Hlen Hs Hfr. split; [exact Hlen|]. split.
  - intros l Hl Hns. split; [rewrite (store_same_is_store _ _ _ _ Hs);
                              exact Hns|].
    intros HP. apply Hfr; assumption.
  - intros k i v. rewrite (store_same_get _ _ _ _ _ Hs). auto.
Qed.

Lemma is_store_lt h E l : store_ok h E → is_store h E l → (l < length h)%nat.
Proof.
  intros (bs & HE & _ & Hbs) Hs. apply (is_store_bucket _ _ _ _ HE) in Hs.
  destruct Hs as [->|[k Hk]]; [eapply lookup_lt_Some, HE|].
  destruct (Hbs _ _ Hk) as (b & recs & [= <-] & _ & Hb & _).
  eapply lookup_lt_Some, Hb.
Qed.

Lemma store_same_app E (h t : heap) : store_ok h E → store_same E h (h ++ t).
Proof.
  intros Hok l Hl. apply lookup_app_l. eapply is_store_lt; eassumption.
Qed.

Lemma evolves_app E (h t : heap) : store_ok h E → evolves E h (h ++ t).
Proof.
  intros Hok. apply store_same_evolves.
  - rewrite length_app. lia.
  - apply store_same_app, Hok.
  - intros l Hl _. apply lookup_app_l, Hl.
Qed.

Lemma store_same_insert E (h : heap) (p : loc) o :
  ¬ is_store h E p → store_same E h (<[p := o]> h).
Proof.
  intros Hns l Hl. apply heap_lookup_insert_ne. intros ->. contradiction.
Qed.

Lemma evolves_insert E (h : heap) (p : loc) o :
  ¬ is_store h E p → evolves_on (λ l, l ≠ p) E h (<[p := o]> h).
Proof.
  intros Hns. apply store_same_evolves.
  - rewrite heap_length_insert. lia.
  - apply store_same_insert, Hns.
  - intros l _ Hne. apply heap_lookup_insert_ne. congruence.
Qed.

Lemma evolves_stored T E h h' n sch t r :
  evolves E h h' → stored T n h E sch t r → stored T n h' E sch t r.
Proof.
  intros Hev. apply (stored_stable T (λ _, True) n E h h' (λ _ _, I) Hev
                       (S (depth t))). lia.
Qed.

Lemma stored_le T E h n n' sch t r :
  (n' ≤ n)%nat → stored T n h E sch t r → stored T n' h E sch t r.
Proof. intros Hle. apply (stored_weaken T n n' E h Hle (S (depth t))). lia. Qed.

(** *** Arrays *)

Lemma visit_elements T h0 E vis d parent k s1 :
  (length h0 ≤ E)%nat →
  visit_spec T h0 E vis d →
  ∀ ts idss, Forall2 (conf T s1) ts idss →
  ∀ vs s,
    Forall (λ t, (depth t < d)%nat) ts → NoDup (concat idss) →
    Forall2 (repr h0) ts vs →
    below h0 (st_heap s) → store_ok (st_heap s) E →
    unvisited E (concat idss) s →
    ∃ rs s', mapM (λ v, vis v parent k (Some s1)) vs s = Ok rs s'
             ∧ evolves E (st_heap s) (st_heap s')
             ∧ store_ok (st_heap s') E
             ∧ same_outside E (concat idss) s s'
             ∧ Forall2 (stored T (length (st_heap s)) (st_heap s') E s1) ts rs.
Proof.
  intros HE Hvis ts idss Hconf.
  induction Hconf as [|t ids ts idss Ht Hts IH]; intros vs s Hd Hnd Hrepr
    Hbelow Hok Hun.
  - inversion Hrepr; subst. exists [], s. cbn [mapM].
    split; [reflexivity|]. split; [apply evolves_on_refl|].
    split; [exact Hok|]. split; [apply same_outside_refl | constructor].
  - inversion Hrepr as [|? v ? vs' Hv Hvs']; subst.
    apply Forall_cons in Hd as [Hdt Hdts].
    cbn [concat] in Hnd, Hun |- *.
    apply NoDup_app in Hnd as (Hnd1 & Hdisj & Hnd2).
    assert (Hun1 : unvisited E ids s).
    { eapply unvisited_sub, Hun. intros x Hx. apply elem_of_app. auto. }
    destruct (Hvis s1 t ids v parent k s Ht Hdt Hnd1 Hv Hbelow Hok Hun1)
      as (r & s1' & Hrun & Hev & Hok1 & Hsame & Hst & _).
    assert (Hbelow1 : below h0 (st_heap s1')).
    { apply (below_evolves (λ _, True) h0 E (st_heap s)); auto. }
    assert (Hun2 : unvisited E (concat idss) s1').
    { eapply unvisited_same_outside; [|exact Hsame|].
      - intros x Hx Hin. eapply Hdisj; eassumption.
      - eapply unvisited_sub, Hun. intros x Hx. apply elem_of_app. auto. }
    destruct (IH vs' s1' Hdts Hnd2 Hvs' Hbelow1 Hok1 Hun2)
      as (rs & s2 & Hrun2 & Hev2 & Hok2 & Hsame2 & Hst2).
    exists (r :: rs), s2. cbn [mapM]. step_ok Hrun. step_ok Hrun2.
    split; [reflexivity|]. split; [eapply evolves_on_trans; eassumption|].
    split; [exact Hok2|]. split.
    { eapply same_outside_trans; [| |exact Hsame|exact Hsame2];
        intros x Hx; apply elem_of_app; auto. }
    constructor.
    + eapply evolves_stored; eassumption.
    + eapply Forall2_impl; [exact Hst2|]. intros t' r'. apply stored_le.
      apply Hev.
Qed.

(** *** The loop over the declared fields of an object *)

Section fields.
Variables (T : schema_table) (h0 : heap) (E p : loc).
Variables (ps : list (string * tree)) (qs : list (string * value)).

Lemma fields_loop body :
  (length h0 ≤ E)%nat → (E < p)%nat → field_step T h0 E p ps qs body →
  ∀ ds idss, Forall2 (field_conf T ps) ds idss →
  ∀ cur s,
    NoDup ds.*1 → NoDup (concat idss) → field_pre h0 E p qs ds cur s →
    unvisited E (concat idss) s →
    ∃ s', forM_ body ds s = Ok tt s'
          ∧ field_post T E p ps ds (concat idss) cur s s'.
Proof.
  intros HE Hp Hbody ds idss Hconf.
  induction Hconf as [|d ids ds idss Hd Hds IH]; intros cur s Hndk Hnd Hpre
    Hun.
  - exists s. split; [reflexivity|]. destruct Hpre as (Hcur & _ & _ & _ & Hok).
    exists cur. split; [exact Hcur|]. split; [reflexivity|].
    split; [reflexivity|]. split; [intros d tf Hin; inversion Hin|].
    split; [apply evolves_on_refl|]. split; [exact Hok|].
    apply same_outside_refl.
  - cbn [concat] in Hnd, Hun |- *. cbn [fmap list_fmap] in Hndk.
    apply NoDup_cons in Hndk as [Hdk Hndk].
    apply NoDup_app in Hnd as (Hnd1 & Hdisj & Hnd2).
    destruct Hpre as (Hcur & Horig & Hns & Hbelow & Hok).
    assert (Hun1 : unvisited E ids s).
    { eapply unvisited_sub, Hun. intros x Hx. apply elem_of_app. auto. }
    assert (Hpre1 : field_pre h0 E p qs [d] cur s).
    { split; [exact Hcur|]. split; [|auto].
      intros d' Hd'. apply Horig. apply list_elem_of_singleton in Hd'.
      subst d'. left. }
    destruct (Hbody d ids cur s Hd Hnd1 Hpre1 Hun1)
      as (s1 & Hrun1 & cur1 & Hcur1 & Hkeys1 & Hothers1 & Hst1 & Hev1 & Hok1
          & Hsame1).
    assert (Hlp : (p < length (st_heap s))%nat)
      by (eapply lookup_lt_Some, Hcur).
    assert (Hpre2 : field_pre h0 E p qs ds cur1 s1).
    { split; [exact Hcur1|]. split; [|split; [|split]].
      - intros d' Hd'. rewrite Hothers1; [apply Horig; right; exact Hd'|].
        intros Hin. apply list_elem_of_singleton in Hin. apply Hdk.
        rewrite <- Hin. apply list_elem_of_fmap. exists d'. auto.
      - apply (proj1 (proj2 Hev1) p Hlp Hns).
      - apply (below_evolves (λ l, l ≠ p) h0 E (st_heap s)); auto.
        intros l Hl. lia.
      - exact Hok1. }
    assert (Hun2 : unvisited E (concat idss) s1).
    { eapply unvisited_same_outside; [|exact Hsame1|].
      - intros x Hx Hin. eapply Hdisj; eassumption.
      - eapply unvisited_sub, Hun. intros x Hx. apply elem_of_app. auto. }
    destruct (IH cur1 s1 Hndk Hnd2 Hpre2 Hun2)
      as (s2 & Hrun2 & cur2 & Hcur2 & Hkeys2 & Hothers2 & Hst2 & Hev2 & Hok2
          & Hsame2).
    exists s2. split; [cbn [forM_]; step_ok Hrun1; exact Hrun2|].
    exists cur2. split; [exact Hcur2|]. split; [congruence|].
    split; [|split; [|split; [|split]]].
    + intros k Hk. cbn [fmap list_fmap] in Hk.
      apply not_elem_of_cons in Hk as [Hk1 Hk2].
      rewrite Hothers2 by exact Hk2. apply Hothers1.
      intros Hin. apply list_elem_of_singleton in Hin. contradiction.
    + intros d' tf Hin Htf. apply elem_of_cons in Hin as [->|Hin].
      * destruct (Hst1 d tf ltac:(left) Htf) as (v & Hv & Hsv).
        exists v. split; [rewrite Hothers2 by exact Hdk; exact Hv|].
        apply (stored_stable T (λ l, l ≠ p) (S p) E (st_heap s1) (st_heap s2))
          with (d := S (depth tf)); [intros l Hl; lia | exact Hev2 | lia
                                     | exact Hsv].
      * apply Hst2; assumption.
    + eapply evolves_on_trans; eassumption.
    + exact Hok2.
    + eapply same_outside_trans; [| |exact Hsame1|exact Hsame2];
        intros x Hx; apply elem_of_app; auto.
Qed.

End fields.

(** *** Computations that return *)

Lemma returns_ok {A} (m : M A) (Q : A → state → Prop) s a s' :
  m s = Ok a s' → Q a s' → returns m Q s.
Proof. unfold returns. intros ->. exact id. Qed.

Lemma returns_ret {A} (a : A) (Q : A → state → Prop) s :
  Q a s → returns (ret a) Q s.
Proof. exact id. Qed.

Lemma returns_step {A B} (m : M A) (k : A → M B) Q s a s' :
  m s = Ok a s' → returns (k a) Q s' → returns (bind m k) Q s.
Proof. unfold returns, bind. intros ->. exact id. Qed.

Lemma returns_elim {A} (m : M A) (Q : A → state → Prop) s :
  returns m Q s → ∃ a s', m s = Ok a s' ∧ Q a s'.
Proof. unfold returns. destruct (m s); [eauto | contradiction..]. Qed.

Lemma returns_unit (m : M unit) (Q : state → Prop) s :
  returns m (λ _, Q) s → ∃ s', m s = Ok tt s' ∧ Q s'.
Proof.
  intros H. apply returns_elim in H as ([] & s' & Hrun & HQ). eauto.
Qed.

Lemma returns_eq {A} (m : M A) s a s' :
  returns m (λ b t, b = a ∧ t = s') s → m s = Ok a s'.
Proof.
  unfold returns. destruct (m s); try contradiction. intros [-> ->].
  reflexivity.
Qed.

Ltac run_step lem := eapply returns_step; [apply lem|]; cbv beta.
Ltac run_with H := eapply returns_step; [exact H|]; cbv beta.

(** *** Shapes that conform *)

Lemma conf_object_value T h0 sch t ids v :
  conf T sch t ids → repr h0 t v → ∃ l, v = VObject l.
Proof.
  intros Hc Hr. inversion Hc; subst; inversion Hr; subst; eauto.
Qed.

Lemma conf_resolve T sch t ids h parent :
  conf T sch t ids → Entity.resolve h parent sch = sch.
Proof. intros Hc. inversion Hc; reflexivity. Qed.

Lemma with_heap_same s : with_heap (st_heap s) s = s.
Proof. destruct s; reflexivity. Qed.

(** *** The field steps of [Entity.normalize] and [ObjectUtils.normalize] *)

Section field_steps.
Variables (T : schema_table) (h0 : heap) (E p : loc).
Variables (ps : list (string * tree)) (qs : list (string * value)).
Variables (vis : VisitFn) (dmax : nat) (typedInput : value).
Hypothesis HE : (length h0 ≤ E)%nat.
Hypothesis Hp : (E < p)%nat.
Hypothesis Hvis : visit_spec T h0 E vis dmax.
Hypothesis Hfields :
  ∀ k tf, assoc_get k ps = Some tf →
          (depth tf < dmax)%nat
          ∧ ∃ v, assoc_get k qs = Some v ∧ repr h0 tf v.
Hypothesis Hkeys : ∀ k, assoc_get k ps = None → assoc_get k qs = None.

Lemma visited_field_post d ids cur s r s1 tf :
  field_pre h0 E p qs [d] cur s →
  assoc_get d.1 ps = Some tf →
  visit_post T E d.2 tf ids s r s1 →
  field_post T E p ps [d] ids cur s
    (with_heap (set_prop (st_heap s1) p d.1 r) s1).
Proof.
  intros (Hcur & Horig & Hns & Hbelow & Hok) Htf
    (Hev & Hok1 & Hsame & Hst & _).
  assert (Hlp : (p < length (st_heap s))%nat)
    by (eapply lookup_lt_Some, Hcur).
  destruct (proj1 (proj2 Hev) p Hlp Hns) as [Hns1 Hp1].
  assert (Hcur1 : st_heap s1 !! p = Some (OPlain cur))
    by (rewrite (Hp1 I); exact Hcur).
  rewrite (set_prop_plain _ _ _ _ _ Hcur1). cbn [st_heap with_heap].
  assert (Hin : d.1 ∈ cur.*1).
  { destruct (Hfields _ _ Htf) as (_ & v & Hv & _).
    apply (assoc_get_Some_key _ v). rewrite Horig by left. exact Hv. }
  exists (assoc_set d.1 r cur).
  split; [apply heap_lookup_insert_eq; eapply lookup_lt_Some, Hcur1|].
  split; [apply assoc_set_keys, Hin|]. split; [|split; [|split; [|split]]].
  - intros k Hk. rewrite assoc_get_set.
    destruct (String.eqb k d.1) eqn:Ek; [|reflexivity].
    apply String.eqb_eq in Ek. subst k. exfalso. apply Hk. left.
  - intros d' tf' Hd' Htf'. apply list_elem_of_singleton in Hd'. subst d'.
    assert (tf' = tf) by congruence. subst tf'.
    exists r. split; [rewrite assoc_get_set, String.eqb_refl; reflexivity|].
    apply (stored_stable T (λ l, l ≠ p) (S p) E (st_heap s1))
      with (d := S (depth tf)); [intros l Hl; lia
                                | apply evolves_insert, Hns1 | lia |].
    eapply stored_le; [|exact Hst]. lia.
  - eapply evolves_on_trans; [|apply evolves_insert, Hns1].
    eapply evolves_on_weaken; [|exact Hev]. intros; exact I.
  - eapply store_same_ok; [apply store_same_insert, Hns1 | exact Hok1].
  - intros k i Hni. destruct (Hsame k i Hni) as [Hsg Hvo].
    split; [|exact Hvo]. cbn [st_heap with_heap].
    rewrite (store_same_get _ _ _ _ _ (store_same_insert _ _ _ _ Hns1)).
    exact Hsg.
Qed.

Lemma skipped_field_post d cur s :
  field_pre h0 E p qs [d] cur s →
  assoc_get d.1 ps = None →
  field_post T E p ps [d] [] cur s s.
Proof.
  intros (Hcur & Horig & Hns & Hbelow & Hok) Hnone.
  exists cur. split; [exact Hcur|]. split; [reflexivity|].
  split; [reflexivity|]. split; [|split; [apply evolves_on_refl|
                                          split; [exact Hok|
                                                  apply same_outside_refl]]].
  intros d' tf Hd' Htf. apply list_elem_of_singleton in Hd'. subst d'.
  congruence.
Qed.

Lemma entity_field_step :
  field_step T h0 E p ps qs
    (λ f : string * Schema,
       let schemaKey := f.1 in
       let* own := hasOwn (VObject p) schemaKey in
       let* field := read_prop (VObject p) schemaKey in
       if own && String.eqb (typeof field) "object" then
         let* h := get_heap in
         let resolvedSchema := Entity.resolve h typedInput f.2 in
         let* v := vis field (VObject p) (Some schemaKey)
                     (Some resolvedSchema) in
         assign (VObject p) schemaKey v
       else ret tt).
Proof.
  intros d ids cur s [Hconf Hnone] Hnd Hpre Hun.
  apply returns_unit. cbv beta zeta.
  pose proof Hpre as (Hcur & Horig & Hns & Hbelow & Hok).
  run_step run_hasOwn. run_step run_read_prop.
  rewrite (has_own_plain _ _ _ _ Hcur), (get_prop_plain _ _ _ _ Hcur).
  unfold assoc_has. rewrite (Horig d) by left.
  destruct (assoc_get d.1 ps) as [tf|] eqn:Htf.
  - destruct (Hfields _ _ Htf) as (Hdepth & v & Hv & Hrepr).
    specialize (Hconf tf eq_refl).
    destruct (conf_object_value _ _ _ _ _ _ Hconf Hrepr) as [l ->].
    rewrite Hv. cbn [default from_option id typeof andb String.eqb].
    change (String.eqb "object" "object") with true. cbv iota.
    run_step run_get_heap.
    rewrite (conf_resolve _ _ _ _ (st_heap s) typedInput Hconf).
    destruct (Hvis d.2 tf ids (VObject l) (VObject p) (Some d.1) s Hconf
                Hdepth Hnd Hrepr Hbelow Hok Hun) as (r & s1 & Hrun & Hpost).
    run_with Hrun. eapply returns_ok; [apply run_assign|].
    eapply visited_field_post; eassumption.
  - rewrite (Hkeys _ Htf). cbn [default from_option id andb]. cbv iota.
    apply returns_ret. rewrite (Hnone eq_refl).
    apply skipped_field_post; assumption.
Qed.

Variables (l0 : loc).
Hypothesis Hl0 : h0 !! l0 = Some (OPlain qs).
Hypothesis Hprim :
  ∀ parent k sch s, vis VUndefined parent k sch s = Ok VUndefined s.

Lemma object_field_step :
  field_step T h0 E p ps qs
    (λ f : string * Schema,
       let schemaKey := f.1 in
       let* h := get_heap in
       let resolvedLocalSchema := Entity.resolve h (VObject l0) f.2 in
       let* field := read_prop (VObject l0) schemaKey in
       let* v := vis field (VObject l0) (Some schemaKey)
                   (Some resolvedLocalSchema) in
       if is_nullish v then delete (VObject p) schemaKey
       else assign (VObject p) schemaKey v).
Proof.
  intros d ids cur s [Hconf Hnone] Hnd Hpre Hun.
  apply returns_unit. cbv beta zeta.
  pose proof Hpre as (Hcur & Horig & Hns & Hbelow & Hok).
  assert (Hl0s : st_heap s !! l0 = Some (OPlain qs)).
  { rewrite Hbelow; [exact Hl0 | eapply lookup_lt_Some, Hl0]. }
  run_step run_get_heap. run_step run_read_prop.
  rewrite (get_prop_plain _ _ _ _ Hl0s).
  destruct (assoc_get d.1 ps) as [tf|] eqn:Htf.
  - destruct (Hfields _ _ Htf) as (Hdepth & v & Hv & Hrepr).
    specialize (Hconf tf eq_refl).
    rewrite Hv. cbn [default from_option id].
    rewrite (conf_resolve _ _ _ _ (st_heap s) (VObject l0) Hconf).
    destruct (Hvis d.2 tf ids v (VObject l0) (Some d.1) s Hconf
                Hdepth Hnd Hrepr Hbelow Hok Hun) as (r & s1 & Hrun & Hpost).
    run_with Hrun. rewrite (proj2 (proj2 (proj2 (proj2 Hpost)))).
    eapply returns_ok; [apply run_assign|].
    eapply visited_field_post; eassumption.
  - rewrite (Hkeys _ Htf). cbn [default from_option id].
    run_step Hprim. cbn [is_nullish].
    eapply returns_ok; [reflexivity|].
    assert (Hdel : del_prop (st_heap s) p d.1 = st_heap s).
    { unfold del_prop. rewrite Hcur. rewrite assoc_del_absent.
      - apply list_insert_id, Hcur.
      - apply assoc_get_None. rewrite (Horig d) by left. apply Hkeys, Htf. }
    rewrite Hdel, with_heap_same, (Hnone eq_refl).
    apply skipped_field_post; assumption.
Qed.

End field_steps.

Lemma evolves_on_compose (P Q R : loc → Prop) E h1 h2 h3 :
  (∀ l, (l < length h1)%nat → R l → P l ∧ Q l) →
  evolves_on P E h1 h2 → evolves_on Q E h2 h3 → evolves_on R E h1 h3.
Proof.
  intros HR (Hlen1 & Hfr1 & Hst1) (Hlen2 & Hfr2 & Hst2).
  split; [lia|]. split.
  - intros l Hl Hns. destruct (Hfr1 l Hl Hns) as [Hns1 Heq1].
    destruct (Hfr2 l ltac:(lia) Hns1) as [Hns2 Heq2].
    split; [exact Hns2|]. intros Hr. destruct (HR l Hl Hr) as [HP HQ].
    rewrite (Heq2 HQ). apply Heq1, HP.
  - intros k i v Hv. apply Hst2, Hst1, Hv.
Qed.

Lemma repr_fields h0 ps qs :
  NoDup ps.*1 →
  Forall (λ p, ∃ v, assoc_get p.1 qs = Some v ∧ repr h0 p.2 v) ps →
  ∀ k tf, assoc_get k ps = Some tf →
          (depth tf < depth (TObj ps))%nat
          ∧ ∃ v, assoc_get k qs = Some v ∧ repr h0 tf v.
Proof.
  intros Hnd Hall k tf Htf. split; [eapply depth_field, Htf|].
  rewrite Forall_forall in Hall.
  apply (Hall (k, tf)), assoc_get_elem, Htf.
Qed.

Lemma perm_keys_None {A B} (ps : list (string * A)) (qs : list (string * B)) :
  qs.*1 ≡ₚ ps.*1 →
  ∀ k, assoc_get k ps = None → assoc_get k qs = None.
Proof.
  intros Hperm k Hk. apply assoc_get_None. rewrite Hperm.
  apply assoc_get_None, Hk.
Qed.

(** The record left by the field loop is the stored form of the
    input's fields. *)
Lemma fields_stored_of_loop (R : Schema → tree → value → Prop) T h0 fields ps
  qs idss cur' :
  fields_conform (conf T) fields ps idss →
  NoDup qs.*1 → qs.*1 ≡ₚ ps.*1 →
  Forall (λ p, ∃ v, assoc_get p.1 qs = Some v ∧ repr h0 p.2 v) ps →
  cur'.*1 = (own_entries qs).*1 →
  (∀ k, k ∉ (own_entries fields).*1 →
        assoc_get k cur' = assoc_get k (own_entries qs)) →
  (∀ d tf, d ∈ own_entries fields → assoc_get d.1 ps = Some tf →
           ∃ v, assoc_get d.1 cur' = Some v ∧ R d.2 tf v) →
  fields_stored R fields ps cur'.
Proof.
  intros (Hndf & Hndp & Hplain & Hdecl & Hundecl) Hndq Hperm Hrepr Hkeys
    Hothers Hst.
  split; [rewrite Hkeys; apply own_entries_NoDup, Hndq|].
  split; [rewrite Hkeys, own_entries_perm; exact Hperm|].
  split.
  - apply Forall_forall. intros d Hd tf Htf. apply Hst; assumption.
  - rewrite Forall_forall in Hundecl, Hrepr |- *. intros f Hf Hnone.
    destruct (Hundecl f Hf Hnone) as [v Hv]. exists v. split; [exact Hv|].
    destruct (Hrepr f Hf) as (v' & Hv' & Hr). rewrite Hv in Hr.
    inversion Hr; subst. rewrite Hothers.
    + rewrite assoc_get_own_entries by exact Hndq. exact Hv'.
    + rewrite own_entries_perm. apply assoc_get_None, Hnone.
Qed.

Lemma strict_eq_object_null l : strict_eq (VObject l) VNull = false.
Proof. apply bool_decide_eq_false. discriminate. Qed.

Lemma run_getValues_array l vs s :
  st_heap s !! l = Some (OArray vs) →
  ArrayUtils.getValues (VObject l) s = Ok vs s.
Proof.
  intros Hl. unfold ArrayUtils.getValues, bind, get_heap. rewrite Hl.
  reflexivity.
Qed.

Lemma below_app h0 h t : below h0 h → below h0 (h ++ t).
Proof.
  intros Hb l Hl. etrans; [|apply (Hb l Hl)]. apply lookup_app_l.
  destruct (lookup_lt_is_Some_2 h0 l Hl) as [o Ho].
  pose proof (Hb l Hl) as Hx. eapply lookup_lt_Some. etrans; eassumption.
Qed.

Lemma not_store_new h E : store_ok h E → ¬ is_store h E (length h).
Proof. intros Hok Hs. apply (is_store_lt _ _ _ Hok) in Hs. lia. Qed.

Lemma heap_lookup_alloc (h : heap) o : (h ++ [o]) !! length h = Some o.
Proof. apply list_lookup_middle. reflexivity. Qed.

(** *** One level of [visit] on a conforming input *)

Section normalize_conf.
Variables (T : schema_table) (h0 : heap) (E : loc) (vis : VisitFn) (n : nat).
Hypothesis HE : (length h0 ≤ E)%nat.
Hypothesis Hvis : visit_spec T h0 E vis n.

Lemma object_normalize_conf fields ps idss v parent k s :
  (∀ parent k sch s, vis VUndefined parent k sch s = Ok VUndefined s) →
  fields_conform (conf T) fields ps idss →
  (depth (TObj ps) ≤ n)%nat → NoDup (concat idss) → repr h0 (TObj ps) v →
  below h0 (st_heap s) → store_ok (st_heap s) E →
  unvisited E (concat idss) s →
  returns (ObjectUtils.normalize fields v parent k vis)
    (λ r s', ∃ p rs,
       r = VObject p
       ∧ evolves E (st_heap s) (st_heap s')
       ∧ store_ok (st_heap s') E
       ∧ same_outside E (concat idss) s s'
       ∧ (length (st_heap s) ≤ p)%nat
       ∧ ¬ is_store (st_heap s') E p
       ∧ st_heap s' !! p = Some (OPlain rs)
       ∧ fields_stored (stored T (length (st_heap s)) (st_heap s') E)
           fields ps rs) s.
Proof.
  intros Hprim Hconf Hdepth Hnd Hrepr Hbelow Hok Hun.
  inversion Hrepr as [| |l qs ? _ Hl Hndq Hperm Hfields]; subst.
  pose proof Hconf as (Hndf & Hndp & Hplain & Hdecl & Hundecl).
  assert (Hls : st_heap s !! l = Some (OPlain qs)).
  { rewrite Hbelow; [exact Hl | eapply lookup_lt_Some, Hl]. }
  unfold ObjectUtils.normalize. run_step run_spread.
  rewrite (spread_props_plain _ _ _ Hls).
  set (p := length (st_heap s)).
  set (s3 := with_heap (st_heap s ++ [OPlain (own_entries qs)]) s).
  assert (Hp : (E < p)%nat) by (apply store_ok_lt, Hok).
  assert (Hpre : field_pre h0 E p qs (own_entries fields) (own_entries qs) s3).
  { split; [apply heap_lookup_alloc|]. split; [|split; [|split]].
    - intros d _. apply assoc_get_own_entries, Hndq.
    - cbn [st_heap s3 with_heap].
      rewrite (store_same_is_store _ _ _ _ (store_same_app E _ _ Hok)).
      apply not_store_new, Hok.
    - apply below_app, Hbelow.
    - eapply store_same_ok; [apply store_same_app, Hok | exact Hok]. }
  assert (Hun3 : unvisited E (concat idss) s3).
  { intros k' i' Hin. destruct (Hun k' i' Hin) as [Hsg Hvo].
    split; [|exact Hvo]. cbn [st_heap s3 with_heap].
    rewrite (store_same_get _ _ _ _ _ (store_same_app E _ _ Hok)).
    exact Hsg. }
  assert (Hf : ∀ k tf, assoc_get k ps = Some tf →
                 (depth tf < n)%nat
                 ∧ ∃ v, assoc_get k qs = Some v ∧ repr h0 tf v).
  { intros k' tf Htf.
    destruct (repr_fields h0 ps qs Hndp Hfields k' tf Htf) as [Hd Hv].
    split; [lia | exact Hv]. }
  destruct (fields_loop T h0 E p ps qs _ HE Hp
              (object_field_step T h0 E p ps qs vis n HE Hp Hvis Hf
                 (perm_keys_None ps qs Hperm) l Hl Hprim)
              (own_entries fields) idss Hdecl (own_entries qs) s3
              (own_entries_NoDup _ Hndf) Hnd Hpre Hun3)
    as (s4 & Hrun & cur' & Hcur' & Hkeys' & Hothers & Hst & Hev & Hok4
        & Hsame).
  run_with Hrun. apply returns_ret. exists p, cur'.
  assert (Hev03 : evolves E (st_heap s) (st_heap s3))
    by (apply evolves_app, Hok).
  split; [reflexivity|]. split; [|split; [exact Hok4|split; [|split;
    [unfold p; lia|split; [|split; [exact Hcur'|]]]]]].
  - eapply (evolves_on_compose (λ _, True) (λ l, l ≠ p)); [|exact Hev03
                                                           |exact Hev].
    intros l0 Hl0 _. split; [exact I | unfold p; lia].
  - intros k' i' Hni. destruct (Hsame k' i' Hni) as [Hsg Hvo].
    split; [|exact Hvo]. rewrite Hsg. cbn [st_heap s3 with_heap].
    apply store_same_get, store_same_app, Hok.
  - apply (proj1 (proj2 Hev) p); [|apply Hpre].
    cbn [st_heap s3 with_heap]. rewrite length_app. unfold p. simpl. lia.
  - eapply fields_stored_of_loop; try eassumption.
    intros d tf Hd Htf. destruct (Hst d tf Hd Htf) as (v & Hv & Hs).
    exists v. split; [exact Hv|]. eapply stored_le; [|exact Hs].
    unfold p. lia.
Qed.

Lemma array_normalize_conf s1 ts idss v parent k s :
  Forall2 (conf T s1) ts idss →
  (depth (TArr ts) ≤ n)%nat → NoDup (concat idss) → repr h0 (TArr ts) v →
  below h0 (st_heap s) → store_ok (st_heap s) E →
  unvisited E (concat idss) s →
  returns (ArrayUtils.normalize (SArray [s1]) v parent k vis)
    (visit_post T E (SArray [s1]) (TArr ts) (concat idss) s) s.
Proof.
  intros Hconf Hdepth Hnd Hrepr Hbelow Hok Hun.
  inversion Hrepr as [|l vs ? _ Hl Helems|]; subst.
  assert (Hls : st_heap s !! l = Some (OArray vs)).
  { rewrite Hbelow; [exact Hl | eapply lookup_lt_Some, Hl]. }
  assert (Hd : Forall (λ t, (depth t < n)%nat) ts).
  { apply Forall_forall. intros t Ht. pose proof (depth_elem _ _ Ht). lia. }
  destruct (visit_elements T h0 E vis n parent k s1 HE Hvis ts idss Hconf vs s
              Hd Hnd Helems Hbelow Hok Hun)
    as (rs & s2 & Hrun & Hev & Hok2 & Hsame & Hst).
  unfold ArrayUtils.normalize.
  eapply returns_step; [reflexivity|]. cbv beta.
  run_step (run_getValues_array l vs s Hls).
  change (head [s1]) with (Some s1). run_with Hrun.
  eapply returns_ok; [apply run_alloc|].
  assert (Hev3 : evolves E (st_heap s2) (st_heap s2 ++ [OArray rs]))
    by (apply evolves_app, Hok2).
  split; [eapply evolves_on_trans; [exact Hev | exact Hev3]|].
  split; [eapply store_same_ok; [apply store_same_app, Hok2 | exact Hok2]|].
  split; [|split; [|reflexivity]].
  - intros k' i' Hni. destruct (Hsame k' i' Hni) as [Hsg Hvo].
    split; [|exact Hvo]. rewrite <- Hsg. cbn [st_heap with_heap].
    apply store_same_get, store_same_app, Hok2.
  - cbn [st_heap with_heap]. eapply stored_array.
    + apply Hev.
    + rewrite (store_same_is_store _ _ _ _ (store_same_app E _ _ Hok2)).
      apply not_store_new, Hok2.
    + apply heap_lookup_alloc.
    + eapply Forall2_impl; [exact Hst|]. intros t r.
      apply evolves_stored, Hev3.
Qed.

Lemma entity_normalize_conf sid e attr ps idv idss v parent k s :
  T !! sid = Some (CEntity e) →
  idAttribute e = IdString attr →
  processStrategy e = Entity.default_processStrategy →
  plain_keys [key e] →
  assoc_get attr ps = Some (TLeaf idv) →
  id_ok idv →
  fields_conform (conf T) (definition e) ps idss →
  (depth (TObj ps) ≤ n)%nat →
  NoDup ((key e, to_key idv) :: concat idss) →
  repr h0 (TObj ps) v →
  below h0 (st_heap s) → store_ok (st_heap s) E →
  unvisited E ((key e, to_key idv) :: concat idss) s →
  returns (Entity.normalize e v parent k vis (addEntities (VObject E)))
    (visit_post T E (SClass sid) (TObj ps) ((key e, to_key idv) :: concat idss)
       s) s.
Proof.
  intros HT Hattr Hproc Hkey Hid Hidok Hconf Hdepth Hnd Hrepr Hbelow Hok Hun.
  inversion Hrepr as [| |l qs ? _ Hl Hndq Hperm Hfields]; subst.
  pose proof Hconf as (Hndf & Hndp & Hplain & Hdecl & Hundecl).
  apply NoDup_cons in Hnd as [Hfresh Hnd].
  assert (Hls : st_heap s !! l = Some (OPlain qs)).
  { rewrite Hbelow; [exact Hl | eapply lookup_lt_Some, Hl]. }
  assert (Hnil : not_immutable_like qs).
  { apply plain_keys_not_immutable_like. eapply plain_keys_perm; [|exact Hplain].
    symmetry. exact Hperm. }
  assert (Hf : ∀ k tf, assoc_get k ps = Some tf →
                 (depth tf < n)%nat
                 ∧ ∃ v, assoc_get k qs = Some v ∧ repr h0 tf v).
  { intros k' tf Htf.
    destruct (repr_fields h0 ps qs Hndp Hfields k' tf Htf) as [Hd Hv].
    split; [lia | exact Hv]. }
  assert (Hidq : assoc_get attr qs = Some idv).
  { destruct (Hf _ _ Hid) as (_ & v & Hv & Hr). inversion Hr; subst.
    exact Hv. }
  assert (HgetId : ∀ s', st_heap s' !! l = Some (OPlain qs) →
            Entity.getId e (VObject l) parent k s' = Ok idv s').
  { intros s' Hs'. rewrite (getId_plain e attr l s' qs parent k Hattr Hs' Hnil).
    rewrite Hidq. reflexivity. }
  unfold Entity.normalize.
  run_step (validate_plain e l s qs Hls). run_step (HgetId s Hls).
  destruct (run_ensure_visited (key e) (to_key idv) s) as (V1 & Hrun1 & Hv1).
  run_with Hrun1. run_step run_visited_refs.
  destruct (Hun (key e) (to_key idv) ltac:(left)) as [Hsg0 Hvo0].
  rewrite Hv1, Hvo0. cbn [existsb]. cbv iota.
  destruct (run_push_visited (key e) (to_key idv) (VObject l)
              (with_visited V1 s)) as (V2 & Hrun2 & Hv2).
  run_with Hrun2. rewrite Hproc.
  eapply returns_step; [reflexivity|]. cbv beta.
  cbn [Entity.default_processStrategy fst snd st_heap with_visited].
  rewrite (spread_props_plain _ _ _ Hls).
  set (p := length (st_heap s)).
  set (s3 := with_heap (st_heap s ++ [OPlain (own_entries qs)])
               (with_visited V2 (with_visited V1 s))).
  assert (Hp : (E < p)%nat) by (apply store_ok_lt, Hok).
  assert (Hpre : field_pre h0 E p qs (own_entries (definition e))
                   (own_entries qs) s3).
  { split; [apply heap_lookup_alloc|]. split; [|split; [|split]].
    - intros d _. apply assoc_get_own_entries, Hndq.
    - cbn [st_heap s3 with_heap].
      rewrite (store_same_is_store _ _ _ _ (store_same_app E _ _ Hok)).
      apply not_store_new, Hok.
    - apply below_app, Hbelow.
    - eapply store_same_ok; [apply store_same_app, Hok | exact Hok]. }
  assert (Hvis3 : ∀ k' i', (k', i') ≠ (key e, to_key idv) →
            visited_of s3 k' i' = visited_of s k' i').
  { intros k' i' Hne. etrans; [apply (Hv2 k' i' Hne)|]. apply Hv1. }
  assert (Hun3 : unvisited E (concat idss) s3).
  { intros k' i' Hin. destruct (Hun k' i' ltac:(right; exact Hin))
      as [Hsg Hvo].
    split.
    - cbn [st_heap s3 with_heap].
      rewrite (store_same_get _ _ _ _ _ (store_same_app E _ _ Hok)).
      exact Hsg.
    - rewrite Hvis3; [exact Hvo|]. intros Heq. apply Hfresh.
      rewrite <- Heq. exact Hin. }
  destruct (fields_loop T h0 E p ps qs _ HE Hp
              (entity_field_step T h0 E p ps qs vis n (VObject l) HE Hp Hvis
                 Hf (perm_keys_None ps qs Hperm))
              (own_entries (definition e)) idss Hdecl (own_entries qs) s3
              (own_entries_NoDup _ Hndf) Hnd Hpre Hun3)
    as (s4 & Hrun4 & cur' & Hcur' & Hkeys' & Hothers & Hst & Hev & Hok4
        & Hsame).
  run_with Hrun4.
  assert (Hev03 : evolves E (st_heap s) (st_heap s3))
    by (apply evolves_app, Hok).
  assert (Hev04 : evolves E (st_heap s) (st_heap s4)).
  { eapply (evolves_on_compose (λ _, True) (λ l, l ≠ p));
      [|exact Hev03|exact Hev].
    intros l0 Hl0 _. split; [exact I | unfold p; lia]. }
  assert (Hbelow4 : below h0 (st_heap s4)).
  { apply (below_evolves (λ _, True) h0 E (st_heap s)); auto. }
  assert (Hls4 : st_heap s4 !! l = Some (OPlain qs)).
  { rewrite Hbelow4; [exact Hl | eapply lookup_lt_Some, Hl]. }
  assert (Hlp3 : (p < length (st_heap s3))%nat).
  { cbn [st_heap s3 with_heap]. rewrite length_app. unfold p. simpl. lia. }
  assert (Hns4 : ¬ is_store (st_heap s4) E p).
  { apply (proj1 (proj2 Hev) p Hlp3). apply Hpre. }
  assert (Hsg4 : store_get (st_heap s4) E (key e) (to_key idv) = None).
  { destruct (Hsame _ _ Hfresh) as [-> _]. cbn [st_heap s3 with_heap].
    rewrite (store_same_get _ _ _ _ _ (store_same_app E _ _ Hok)).
    exact Hsg0. }
  destruct (addEntities_fresh e (VObject l) parent k s4 E p idv
              (HgetId s4 Hls4) Hkey Hok4 Hsg4)
    as (h5 & Hrun5 & Hev5 & Hok5 & Hsg5 & Hothers5).
  run_with Hrun5. apply returns_ret.
  assert (Hlp4 : (p < length (st_heap s4))%nat).
  { destruct Hev as [Hlen _]. lia. }
  destruct (proj1 (proj2 Hev5) p Hlp4 Hns4) as [Hns5 Hp5].
  split; [eapply evolves_on_trans; [exact Hev04 | exact Hev5]|].
  split; [exact Hok5|]. split; [|split; [|apply Hidok]].
  - intros k' i' Hni. apply not_elem_of_cons in Hni as [Hne Hni].
    destruct (Hsame k' i' Hni) as [Hsg Hvo]. split.
    + cbn [st_heap with_heap]. rewrite (Hothers5 k' i' Hne), Hsg.
      cbn [st_heap s3 with_heap].
      apply store_same_get, store_same_app, Hok.
    + etrans; [exact Hvo|]. apply Hvis3, Hne.
  - cbn [st_heap with_heap].
    eapply (stored_entity T _ _ _ sid e ps idv p cur'); try assumption.
    + intros attr' Hattr'. rewrite Hattr in Hattr'. injection Hattr' as <-.
      exact Hid.
    + unfold p. lia.
    + rewrite (Hp5 I). exact Hcur'.
    + eapply fields_stored_of_loop; try eassumption.
      intros d tf Hd Htf. destruct (Hst d tf Hd Htf) as (v & Hv & Hs).
      exists v. split; [exact Hv|]. eapply evolves_stored; [exact Hev5|].
      eapply stored_le; [|exact Hs]. unfold p. lia.
Qed.

End normalize_conf.

Lemma returns_mono {A} (m : M A) (Q Q' : A → state → Prop) s :
  returns m Q s → (∀ a s', Q a s' → Q' a s') → returns m Q' s.
Proof. unfold returns. destruct (m s); auto. Qed.

Lemma depth_conf T sch t ids : conf T sch t ids → (1 ≤ depth t)%nat.
Proof. intros Hc. inversion Hc; simpl; lia. Qed.

(** *** Normalization of a conforming input *)

(** With enough fuel, [visit] on an input that conforms to its schema
    returns the normalized form and leaves the records of its entities
    in the store. *)
Lemma visit_conforming T h0 E :
  (length h0 ≤ E)%nat →
  ∀ fuel, visit_spec T h0 E (visit fuel T (addEntities (VObject E))) fuel.
Proof.
  intros HE. induction fuel as [|n IH];
    intros sch t ids v parent k s Hconf Hdepth Hnd Hrepr Hbelow Hok Hun;
    [lia|].
  apply returns_elim.
  destruct (conf_object_value _ _ _ _ _ _ Hconf Hrepr) as [l ->].
  pose proof (depth_conf _ _ _ _ Hconf) as Hd1.
  assert (Hprim : ∀ parent k sch s,
            visit n T (addEntities (VObject E)) VUndefined parent k sch s
            = Ok VUndefined s).
  { destruct n; [lia|]. reflexivity. }
  cbn [visit]. unfold visit_body. cbn [typeof].
  change (String.eqb "object" "object") with true.
  rewrite strict_eq_object_null. cbn [negb orb]. cbv iota.
  inversion Hconf as [sid e attr ps idv idss HT Hattr Hproc Hkey Hid Hidok Hf
                     |s1 ts idss Hts
                     |fields ps idss Hf
                     |sid fields ps idss HT Hf]; subst.
  - rewrite HT. eapply entity_normalize_conf; try eassumption. lia.
  - eapply array_normalize_conf; try eassumption. lia.
  - eapply returns_mono.
    + eapply object_normalize_conf; try eassumption. lia.
    + intros r s' (p & rs & -> & Hev & Hok' & Hsame & Hle & Hns & Hp & Hst).
      split; [exact Hev|]. split; [exact Hok'|]. split; [exact Hsame|].
      split; [|reflexivity]. eapply stored_object; eassumption.
  - rewrite HT. eapply returns_mono.
    + eapply object_normalize_conf; try eassumption. lia.
    + intros r s' (p & rs & -> & Hev & Hok' & Hsame & Hle & Hns & Hp & Hst).
      split; [exact Hev|]. split; [exact Hok'|]. split; [exact Hsame|].
      split; [|reflexivity]. eapply stored_object_class; eassumption.
Qed.

(** ** Denormalization of a stored form *)

(** *** Heap frames *)

Lemma frame_on_refl P h : frame_on P h h.
Proof. split; auto. Qed.

Lemma frame_on_compose (P Q R : loc → Prop) h1 h2 h3 :
  (∀ l, (l < length h1)%nat → R l → P l ∧ Q l) →
  frame_on P h1 h2 → frame_on Q h2 h3 → frame_on R h1 h3.
Proof.
  intros HR [Hlen1 Hfr1] [Hlen2 Hfr2]. split; [lia|].
  intros l Hl Hr. destruct (HR l Hl Hr) as [HP HQ].
  etrans; [apply Hfr2; [lia | exact HQ]|]. apply Hfr1; assumption.
Qed.

Lemma frame_on_trans P h1 h2 h3 :
  frame_on P h1 h2 → frame_on P h2 h3 → frame_on P h1 h3.
Proof. apply frame_on_compose. auto. Qed.

Lemma frame_on_app P (h t : heap) : frame_on P h (h ++ t).
Proof.
  split; [rewrite length_app; lia|]. intros l Hl _. apply lookup_app_l, Hl.
Qed.

Lemma frame_on_insert (h : heap) (p : loc) o :
  frame_on (λ l, l ≠ p) h (<[p := o]> h).
Proof.
  split; [rewrite heap_length_insert; lia|].
  intros l _ Hne. apply heap_lookup_insert_ne. congruence.
Qed.

Lemma below_length h0 h : below h0 h → (length h0 ≤ length h)%nat.
Proof.
  intros Hb. destruct (decide (length h0 = 0)%nat) as [->|Hne]; [lia|].
  assert (Hl : (length h0 - 1 < length h0)%nat) by lia.
  destruct (lookup_lt_is_Some_2 h0 _ Hl) as [o Ho].
  pose proof (Hb _ Hl) as Hx.
  assert (Hy : h !! (length h0 - 1)%nat = Some o) by (etrans; eassumption).
  apply lookup_lt_Some in Hy. lia.
Qed.

Lemma below_frame (P : loc → Prop) h0 h h' :
  (∀ l, (l < length h0)%nat → P l) →
  below h0 h → frame_on P h h' → below h0 h'.
Proof.
  intros HP Hb [Hlen Hfr] l Hl. pose proof (below_length _ _ Hb).
  etrans; [apply Hfr; [lia | apply HP, Hl]|]. apply Hb, Hl.
Qed.

Lemma repr_from_frame (P : loc → Prop) n h h' t v :
  (∀ l, (n ≤ l)%nat → P l) → frame_on P h h' →
  repr_from n h t v → repr_from n h' t v.
Proof.
  intros HP [Hlen Hfr]. apply (repr_from_stable n h h') with (d := S (depth t));
    [|lia].
  intros l o Hn Hl. etrans; [|exact Hl].
  apply Hfr; [eapply lookup_lt_Some, Hl | apply HP, Hn].
Qed.

Lemma repr_from_le n n' h t v :
  (n' ≤ n)%nat → repr_from n h t v → repr_from n' h t v.
Proof. intros Hle. apply (repr_from_weaken n n' h Hle (S (depth t))). lia. Qed.

(** *** The cache and the in-progress set *)

Lemma run_ensure_cache k s :
  ∃ C, ensure_cache k s = Ok tt (with_cache C s)
       ∧ ∀ k' i', cached_of (with_cache C s) k' i' = cached_of s k' i'.
Proof.
  unfold ensure_cache. destruct (st_cache s !! k) eqn:Hk.
  - exists (st_cache s). split; [destruct s; reflexivity|]. reflexivity.
  - eexists. split; [reflexivity|]. intros k' i'. unfold cached_of.
    cbn [st_cache with_cache]. destruct (decide (k = k')) as [<-|Hne].
    + rewrite lookup_insert_eq, Hk. reflexivity.
    + rewrite lookup_insert_ne by exact Hne. reflexivity.
Qed.

Lemma run_cache_set k i v s :
  ∃ C, cache_set k i v s = Ok tt (with_cache C s)
       ∧ cached_of (with_cache C s) k i = Some v
       ∧ ∀ k' i', (k', i') ≠ (k, i) →
                  cached_of (with_cache C s) k' i' = cached_of s k' i'.
Proof.
  unfold cache_set. eexists. split; [reflexivity|].
  unfold cached_of. cbn [st_cache with_cache]. split.
  - rewrite lookup_insert_eq. cbn [default from_option id].
    apply lookup_insert_eq.
  - intros k' i' Hne. destruct (decide (k = k')) as [<-|Hnk].
    + rewrite lookup_insert_eq. cbn [default from_option id].
      rewrite lookup_insert_ne; [reflexivity|]. intros <-. contradiction.
    + rewrite lookup_insert_ne by exact Hnk. reflexivity.
Qed.

Lemma run_cache_has k i s :
  cache_has k i s = Ok (bool_decide (is_Some (cached_of s k i))) s.
Proof. reflexivity. Qed.

Lemma run_cache_get k i s :
  cache_get k i s = Ok (default VUndefined (cached_of s k i)) s.
Proof. reflexivity. Qed.

Lemma run_inProgress_has tok s :
  inProgress_has tok s = Ok (bool_decide (tok ∈ st_inProgress s)) s.
Proof. reflexivity. Qed.

(** *** Reading the store *)

Lemma id_ok_typeof v : id_ok v → String.eqb (typeof v) "object" = false.
Proof. intros [Ho Hn]. destruct v; try discriminate; reflexivity. Qed.

Lemma store_get_below h0 h E k i v :
  below h0 h → store_get h0 E k i = Some v → store_get h E k i = Some v.
Proof.
  intros Hb. unfold store_get.
  destruct (h0 !! E) as [[bs| |]|] eqn:HE; try discriminate.
  rewrite (Hb E) by (eapply lookup_lt_Some, HE). rewrite HE.
  destruct (assoc_get k bs) as [[| | | | |b]|]; try discriminate.
  destruct (h0 !! b) as [[recs| |]|] eqn:Hb0; try discriminate.
  rewrite (Hb b) by (eapply lookup_lt_Some, Hb0). rewrite Hb0. auto.
Qed.

Lemma getEntities_found hD E e idv s v :
  isImmutable hD (VObject E) = false →
  id_ok idv →
  store_get (st_heap s) E (key e) (to_key idv) = Some v →
  getEntities hD (VObject E) idv e s = Ok v s.
Proof.
  intros Himm Hid Hsg. unfold getEntities. rewrite Himm, (id_ok_typeof _ Hid).
  unfold store_get in Hsg.
  destruct (st_heap s !! E) as [[bs| |]|] eqn:HE; try discriminate.
  destruct (assoc_get (key e) bs) as [[| | | | |b]|] eqn:Hk; try discriminate.
  destruct (st_heap s !! b) as [[recs| |]|] eqn:Hb; try discriminate.
  unfold bind. rewrite run_hasOwn, (has_own_plain _ _ _ _ HE).
  unfold assoc_has. rewrite Hk. cbn [negb]. cbv iota.
  rewrite run_read_prop, (get_prop_plain _ _ _ _ HE), Hk.
  cbn [default from_option id].
  rewrite run_hasOwn, (has_own_plain _ _ _ _ Hb).
  unfold assoc_has. rewrite Hsg. cbn [negb]. cbv iota.
  rewrite run_read_prop, (get_prop_plain _ _ _ _ Hb), Hsg. reflexivity.
Qed.

(** *** What an [unvisit] establishes *)

Lemma stored_not_nullish T hD E sch t ids r :
  conf T sch t ids → stored T 0 hD E sch t r → is_nullish r = false.
Proof.
  intros Hc Hs.
  inversion Hs as [? e ? ? ? ? HT Hattr' _ _ _ _ _| | |]; subst;
    try reflexivity.
  inversion Hc as [? e' attr ? idv' ? HT' Hattr _ _ Hid Hidok _| | |
                   ? ? ? ? HT' _]; subst.
  - assert (e' = e) by congruence. subst e'.
    rewrite (Hattr' attr Hattr) in Hid. injection Hid as <-. apply Hidok.
  - congruence.
Qed.

Lemma uncached_sub ids ids' s : ids' ⊆ ids → uncached ids s → uncached ids' s.
Proof. intros Hsub Hu k i Hin. apply Hu, Hsub, Hin. Qed.

Lemma cache_same_outside_refl ids s : cache_same_outside ids s s.
Proof. intros k i _. reflexivity. Qed.

Lemma cache_same_outside_trans ids1 ids2 ids s1 s2 s3 :
  ids1 ⊆ ids → ids2 ⊆ ids →
  cache_same_outside ids1 s1 s2 → cache_same_outside ids2 s2 s3 →
  cache_same_outside ids s1 s3.
Proof.
  intros H1 H2 Ha Hb k i Hni.
  etrans; [apply Hb | apply Ha]; intros ?; apply Hni; auto.
Qed.

Lemma uncached_after ids ids' s s' :
  (∀ x, x ∈ ids' → x ∉ ids) →
  cache_same_outside ids s s' → st_inProgress s' = st_inProgress s →
  uncached ids' s → uncached ids' s'.
Proof.
  intros Hdisj Hsame Hip Hu k i Hin. rewrite Hip, (Hsame k i (Hdisj _ Hin)).
  apply Hu, Hin.
Qed.

Lemma token_disjoint (ids ids' : list (string * string)) :
  (∀ x, x ∈ token <$> ids → x ∉ token <$> ids') →
  ∀ x, x ∈ ids' → x ∉ ids.
Proof.
  intros Hdisj x Hx' Hx. apply (Hdisj (token x)).
  - apply list_elem_of_fmap. eauto.
  - apply list_elem_of_fmap. eauto.
Qed.

(** *** The loop over the declared fields of a copy *)

Section dfields.
Variables (T : schema_table) (hD : heap) (E c : loc).
Variables (ps : list (string * tree)) (rs : list (string * value)).
Variables (unv : UnvisitFn) (dmax : nat).

Lemma dfields_loop body :
  dfield_step T hD E c ps rs dmax body →
  ∀ ds idss, Forall2 (dfield_conf T hD E ps rs dmax) ds idss →
  ∀ cur s,
    NoDup ds.*1 → NoDup (token <$> concat idss) →
    dfield_pre hD c rs ds cur s →
    uncached (concat idss) s →
    ∃ s', forM_ body ds s = Ok tt s'
          ∧ dfield_post c ps ds (concat idss) cur s s'.
Proof.
  intros Hbody ds idss Hconf.
  induction Hconf as [|d ids ds idss Hd Hds IH]; intros cur s Hndk Hnd Hpre
    Hun.
  - exists s. split; [reflexivity|]. destruct Hpre as (Hcur & _).
    exists cur. split; [exact Hcur|]. split; [reflexivity|].
    split; [reflexivity|]. split; [intros d tf Hin; inversion Hin|].
    split; [apply frame_on_refl|]. split; [reflexivity|].
    apply cache_same_outside_refl.
  - cbn [concat] in Hnd, Hun |- *. cbn [fmap list_fmap] in Hndk.
    apply NoDup_cons in Hndk as [Hdk Hndk].
    rewrite fmap_app in Hnd.
    apply NoDup_app in Hnd as (Hnd1 & Hdisj & Hnd2).
    destruct Hpre as (Hcur & Horig & Hbelow & Hc).
    assert (Hun1 : uncached ids s).
    { eapply uncached_sub, Hun. intros x Hx. apply elem_of_app. auto. }
    assert (Hpre1 : dfield_pre hD c rs [d] cur s).
    { split; [exact Hcur|]. split; [|auto].
      intros d' Hd'. apply Horig. apply list_elem_of_singleton in Hd'.
      subst d'. left. }
    destruct (Hbody d ids cur s Hd Hnd1 Hpre1 Hun1)
      as (s1 & Hrun1 & cur1 & Hcur1 & Hkeys1 & Hothers1 & Hst1 & Hfr1 & Hip1
          & Hsame1).
    assert (Hpre2 : dfield_pre hD c rs ds cur1 s1).
    { split; [exact Hcur1|]. split; [|split; [|exact Hc]].
      - intros d' Hd'. rewrite Hothers1; [apply Horig; right; exact Hd'|].
        intros Hin. apply list_elem_of_singleton in Hin. apply Hdk.
        rewrite <- Hin. apply list_elem_of_fmap. exists d'. auto.
      - apply (below_frame (λ l, l ≠ c) hD (st_heap s)); auto.
        intros l Hl. lia. }
    assert (Hun2 : uncached (concat idss) s1).
    { eapply uncached_after; [|exact Hsame1|exact Hip1|].
      - apply token_disjoint, Hdisj.
      - eapply uncached_sub, Hun. intros x Hx. apply elem_of_app. auto. }
    destruct (IH cur1 s1 Hndk Hnd2 Hpre2 Hun2)
      as (s2 & Hrun2 & cur2 & Hcur2 & Hkeys2 & Hothers2 & Hst2 & Hfr2 & Hip2
          & Hsame2).
    exists s2. split; [cbn [forM_]; step_ok Hrun1; exact Hrun2|].
    exists cur2. split; [exact Hcur2|]. split; [congruence|].
    split; [|split; [|split; [|split]]].
    + intros k Hk. cbn [fmap list_fmap] in Hk.
      apply not_elem_of_cons in Hk as [Hk1 Hk2].
      rewrite Hothers2 by exact Hk2. apply Hothers1.
      intros Hin. apply list_elem_of_singleton in Hin. contradiction.
    + intros d' tf Hin Htf. apply elem_of_cons in Hin as [->|Hin].
      * destruct (Hst1 d tf ltac:(left) Htf) as (v & Hv & Hsv).
        exists v. split; [rewrite Hothers2 by exact Hdk; exact Hv|].
        apply (repr_from_frame (λ l, l ≠ c) (S c) (st_heap s1));
          [intros l Hl; lia | exact Hfr2 | exact Hsv].
      * apply Hst2; assumption.
    + eapply frame_on_trans; eassumption.
    + congruence.
    + eapply cache_same_outside_trans; [| |exact Hsame1|exact Hsame2];
        intros x Hx; apply elem_of_app; auto.
Qed.

Hypothesis Hunv : unvisit_spec T hD E unv dmax.

Lemma unvisited_field_post d ids cur s y s1 tf :
  dfield_pre hD c rs [d] cur s →
  assoc_get d.1 ps = Some tf →
  d.1 ∈ cur.*1 →
  unvisit_post tf ids s y s1 →
  dfield_post c ps [d] ids cur s
    (with_heap (set_prop (st_heap s1) c d.1 y) s1).
Proof.
  intros (Hcur & Horig & Hbelow & Hc) Htf Hin (Hfr & Hrepr & Hip & Hsame).
  assert (Hlc : (c < length (st_heap s))%nat)
    by (eapply lookup_lt_Some, Hcur).
  assert (Hcur1 : st_heap s1 !! c = Some (OPlain cur)).
  { etrans; [apply (proj2 Hfr c Hlc I)|]. exact Hcur. }
  rewrite (set_prop_plain _ _ _ _ _ Hcur1). cbn [st_heap with_heap].
  exists (assoc_set d.1 y cur).
  split; [apply heap_lookup_insert_eq; eapply lookup_lt_Some, Hcur1|].
  split; [apply assoc_set_keys, Hin|]. split; [|split; [|split; [|split]]].
  - intros k Hk. rewrite assoc_get_set.
    destruct (String.eqb k d.1) eqn:Ek; [|reflexivity].
    apply String.eqb_eq in Ek. subst k. exfalso. apply Hk. left.
  - intros d' tf' Hd' Htf'. apply list_elem_of_singleton in Hd'. subst d'.
    assert (tf' = tf) by congruence. subst tf'.
    exists y. split; [rewrite assoc_get_set, String.eqb_refl; reflexivity|].
    apply (repr_from_frame (λ l, l ≠ c) (S c) (st_heap s1));
      [intros l Hl; lia | apply frame_on_insert |].
    eapply repr_from_le; [|exact Hrepr]. lia.
  - eapply (frame_on_compose (λ _, True) (λ l, l ≠ c));
      [|exact Hfr|apply frame_on_insert]. auto.
  - exact Hip.
  - exact Hsame.
Qed.

Lemma skipped_dfield_post d cur s :
  dfield_pre hD c rs [d] cur s →
  assoc_get d.1 ps = None →
  dfield_post c ps [d] [] cur s s.
Proof.
  intros (Hcur & Horig & Hbelow & Hc) Hnone.
  exists cur. split; [exact Hcur|]. split; [reflexivity|].
  split; [reflexivity|]. split; [|split; [apply frame_on_refl|
                                          split; [reflexivity|
                                                  apply cache_same_outside_refl]]].
  intros d' tf Hd' Htf. apply list_elem_of_singleton in Hd'. subst d'.
  congruence.
Qed.

Lemma entity_dfield_step :
  dfield_step T hD E c ps rs dmax
    (λ f : string * Schema,
       let schemaKey := f.1 in
       let* own := hasOwn (VObject c) schemaKey in
       if own : bool then
         let* field := read_prop (VObject c) schemaKey in
         let* v := unv field (Some f.2) in
         assign (VObject c) schemaKey v
       else ret tt).
Proof.
  intros d ids cur s [Hconf Hnone] Hnd Hpre Hun.
  apply returns_unit. cbv beta zeta.
  pose proof Hpre as (Hcur & Horig & Hbelow & Hc).
  run_step run_hasOwn.
  rewrite (has_own_plain _ _ _ _ Hcur).
  unfold assoc_has. rewrite (Horig d) by left.
  destruct (assoc_get d.1 ps) as [tf|] eqn:Htf.
  - destruct (Hconf tf eq_refl) as (Hc' & Hdepth & v & Hv & Hst).
    rewrite Hv. cbv iota. run_step run_read_prop.
    rewrite (get_prop_plain _ _ _ _ Hcur), (Horig d) by left. rewrite Hv.
    cbn [default from_option id].
    destruct (Hunv d.2 tf ids v s Hc' Hdepth Hnd Hst Hbelow Hun)
      as (y & s1 & Hrun & Hpost).
    run_with Hrun. eapply returns_ok; [apply run_assign|].
    eapply unvisited_field_post; try eassumption.
    apply (assoc_get_Some_key _ v). rewrite (Horig d) by left. exact Hv.
  - destruct (Hnone eq_refl) as [-> Hrs]. rewrite Hrs. cbv iota.
    apply returns_ret. apply skipped_dfield_post; assumption.
Qed.

Lemma object_dfield_step :
  dfield_step T hD E c ps rs dmax
    (λ f : string * Schema,
       let schemaKey := f.1 in
       let* field := read_prop (VObject c) schemaKey in
       if is_nullish field then ret tt
       else
         let* v := unv field (Some f.2) in
         assign (VObject c) schemaKey v).
Proof.
  intros d ids cur s [Hconf Hnone] Hnd Hpre Hun.
  apply returns_unit. cbv beta zeta.
  pose proof Hpre as (Hcur & Horig & Hbelow & Hc).
  run_step run_read_prop.
  rewrite (get_prop_plain _ _ _ _ Hcur), (Horig d) by left.
  destruct (assoc_get d.1 ps) as [tf|] eqn:Htf.
  - destruct (Hconf tf eq_refl) as (Hc' & Hdepth & v & Hv & Hst).
    rewrite Hv. cbn [default from_option id].
    rewrite (stored_not_nullish _ _ _ _ _ _ _ Hc' Hst).
    destruct (Hunv d.2 tf ids v s Hc' Hdepth Hnd Hst Hbelow Hun)
      as (y & s1 & Hrun & Hpost).
    run_with Hrun. eapply returns_ok; [apply run_assign|].
    eapply unvisited_field_post; try eassumption.
    apply (assoc_get_Some_key _ v). rewrite (Horig d) by left. exact Hv.
  - destruct (Hnone eq_refl) as [-> Hrs]. rewrite Hrs.
    cbn [default from_option id is_nullish].
    apply returns_ret. apply skipped_dfield_post; assumption.
Qed.

End dfields.

Lemma Forall2_Forall_l {A B} (P : A → B → Prop) (Q : A → Prop) l k :
  Forall2 P l k → Forall Q l → Forall2 (λ x y, P x y ∧ Q x) l k.
Proof.
  induction 1 as [|x y l k HP _ IH]; intros HQ; [constructor|].
  apply Forall_cons in HQ as [HQx HQ]. constructor; auto.
Qed.

Lemma strict_eq_object_undefined l : strict_eq (VObject l) VUndefined = false.
Proof. apply bool_decide_eq_false. discriminate. Qed.

(** *** One level of [unvisit] on a stored form *)

Section denormalize_stored.
Variables (T : schema_table) (hD : heap) (E : loc) (unv : UnvisitFn) (n : nat).
Hypothesis Hunv : unvisit_spec T hD E unv n.

Lemma dfield_conf_of fields ps idss rs :
  fields_conform (conf T) fields ps idss →
  fields_stored (stored T 0 hD E) fields ps rs →
  (depth (TObj ps) ≤ n)%nat →
  Forall2 (dfield_conf T hD E ps rs n) (own_entries fields) idss.
Proof.
  intros (_ & _ & _ & Hdecl & _) (_ & Hperm & Hst & _) Hdepth.
  eapply Forall2_impl; [apply (Forall2_Forall_l _ _ _ _ Hdecl Hst)|].
  intros d ids [[Hc Hnone] Hs]. split.
  - intros tf Htf. split; [apply Hc, Htf|]. split; [|apply Hs, Htf].
    pose proof (depth_field _ _ _ Htf). lia.
  - intros Hn. split; [apply Hnone, Hn|].
    apply (perm_keys_None ps rs Hperm), Hn.
Qed.

Lemma repr_of_dloop fields ps idss rs m h' (c : loc) cur' :
  fields_conform (conf T) fields ps idss →
  fields_stored (stored T 0 hD E) fields ps rs →
  (m ≤ c)%nat →
  h' !! c = Some (OPlain cur') →
  cur'.*1 = (own_entries rs).*1 →
  (∀ k, k ∉ (own_entries fields).*1 →
        assoc_get k cur' = assoc_get k (own_entries rs)) →
  (∀ d tf, d ∈ own_entries fields → assoc_get d.1 ps = Some tf →
           ∃ y, assoc_get d.1 cur' = Some y ∧ repr_from (S c) h' tf y) →
  repr_from m h' (TObj ps) (VObject c).
Proof.
  intros (Hndf & Hndp & _ & _ & _) (Hndr & Hperm & _ & Hundecl) Hm Hc Hkeys
    Hothers Hdecl.
  eapply repr_obj; [exact Hm | exact Hc | | |].
  - rewrite Hkeys. apply own_entries_NoDup, Hndr.
  - rewrite Hkeys, own_entries_perm. exact Hperm.
  - rewrite Forall_forall in Hundecl |- *. intros [k tf] Hin. cbn [fst snd].
    pose proof (assoc_get_NoDup k tf ps Hndp Hin) as Htf.
    destruct (assoc_get k fields) as [sf|] eqn:Hsf.
    + apply assoc_get_elem in Hsf.
      assert (Hd : (k, sf) ∈ own_entries fields)
        by (rewrite own_entries_perm; exact Hsf).
      destruct (Hdecl (k, sf) tf Hd Htf) as (y & Hy & Hr).
      exists y. split; [exact Hy|]. eapply repr_from_le; [|exact Hr]. lia.
    + destruct (Hundecl (k, tf) Hin Hsf) as (v & Hv & Hrv).
      cbn [fst snd] in Hv, Hrv. subst tf. exists v. split; [|constructor].
      rewrite Hothers.
      * rewrite assoc_get_own_entries by exact Hndr. exact Hrv.
      * rewrite own_entries_perm. apply assoc_get_None, Hsf.
Qed.

Lemma stored_plain fields ps idss rs :
  fields_conform (conf T) fields ps idss →
  fields_stored (stored T 0 hD E) fields ps rs →
  not_immutable_like rs ∧ not_immutable_like (own_entries rs).
Proof.
  intros (_ & _ & Hplain & _) (Hndr & Hperm & _).
  assert (H : not_immutable_like rs).
  { apply plain_keys_not_immutable_like.
    eapply plain_keys_perm; [|exact Hplain]. symmetry. exact Hperm. }
  split; [exact H|]. apply not_immutable_like_own_entries; assumption.
Qed.

Lemma object_denormalize_stored fields ps idss (rl : loc) rs s :
  fields_conform (conf T) fields ps idss →
  hD !! rl = Some (OPlain rs) →
  fields_stored (stored T 0 hD E) fields ps rs →
  (depth (TObj ps) ≤ n)%nat → NoDup (token <$> concat idss) →
  below hD (st_heap s) → uncached (concat idss) s →
  returns (ObjectUtils.denormalize fields (VObject rl) unv)
    (unvisit_post (TObj ps) (concat idss) s) s.
Proof.
  intros Hconf Hrl Hst Hdepth Hnd Hbelow Hun.
  pose proof Hconf as (Hndf & Hndp & Hplain & Hdecl & Hundecl).
  pose proof Hst as (Hndr & Hperm & _).
  destruct (stored_plain _ _ _ _ Hconf Hst) as [Hnil Hnil'].
  assert (Hrls : st_heap s !! rl = Some (OPlain rs)).
  { rewrite Hbelow; [exact Hrl | eapply lookup_lt_Some, Hrl]. }
  unfold ObjectUtils.denormalize. run_step run_get_heap.
  rewrite (isImmutable_plain _ _ _ Hrls Hnil). run_step run_spread.
  rewrite (spread_props_plain _ _ _ Hrls).
  set (c := length (st_heap s)).
  set (s1 := with_heap (st_heap s ++ [OPlain (own_entries rs)]) s).
  assert (Hpre : dfield_pre hD c rs (own_entries fields) (own_entries rs) s1).
  { split; [apply heap_lookup_alloc|]. split; [|split].
    - intros d _. apply assoc_get_own_entries, Hndr.
    - apply below_app, Hbelow.
    - apply below_length, Hbelow. }
  destruct (dfields_loop T hD E c ps rs n _
              (object_dfield_step T hD E c ps rs unv n Hunv)
              (own_entries fields) idss (dfield_conf_of _ _ _ _ Hconf Hst Hdepth)
              (own_entries rs) s1 (own_entries_NoDup _ Hndf) Hnd Hpre Hun)
    as (s2 & Hrun & cur' & Hcur' & Hkeys & Hothers & Hrepr & Hfr & Hip
        & Hsame).
  run_with Hrun. apply returns_ret. split; [|split; [|split]].
  - eapply (frame_on_compose (λ _, True) (λ l, l ≠ c));
      [|apply (frame_on_app _ (st_heap s) [OPlain (own_entries rs)])
       |exact Hfr].
    intros l Hl _. split; [exact I | unfold c; lia].
  - eapply repr_of_dloop; try eassumption. unfold c. lia.
  - exact Hip.
  - exact Hsame.
Qed.

Lemma unvisit_elements s1 :
  ∀ ts idss, Forall2 (conf T s1) ts idss →
  ∀ vs s,
    Forall (λ t, (depth t < n)%nat) ts → NoDup (token <$> concat idss) →
    Forall2 (stored T 0 hD E s1) ts vs →
    below hD (st_heap s) → uncached (concat idss) s →
    ∃ ys s', mapM (λ v, unv v (Some s1)) vs s = Ok ys s'
             ∧ frame_on (λ _, True) (st_heap s) (st_heap s')
             ∧ st_inProgress s' = st_inProgress s
             ∧ cache_same_outside (concat idss) s s'
             ∧ Forall2 (repr_from (length (st_heap s)) (st_heap s')) ts ys.
Proof.
  intros ts idss Hconf.
  induction Hconf as [|t ids ts idss Ht Hts IH]; intros vs s Hd Hnd Hst
    Hbelow Hun.
  - inversion Hst; subst. exists [], s. cbn [mapM].
    split; [reflexivity|]. split; [apply frame_on_refl|].
    split; [reflexivity|]. split; [apply cache_same_outside_refl|constructor].
  - inversion Hst as [|? v ? vs' Hv Hvs']; subst.
    apply Forall_cons in Hd as [Hdt Hdts].
    cbn [concat] in Hnd, Hun |- *. rewrite fmap_app in Hnd.
    apply NoDup_app in Hnd as (Hnd1 & Hdisj & Hnd2).
    assert (Hun1 : uncached ids s).
    { eapply uncached_sub, Hun. intros x Hx. apply elem_of_app. auto. }
    destruct (Hunv s1 t ids v s Ht Hdt Hnd1 Hv Hbelow Hun1)
      as (y & s1' & Hrun & Hfr & Hrepr & Hip & Hsame).
    assert (Hbelow1 : below hD (st_heap s1')).
    { apply (below_frame (λ _, True) hD (st_heap s)); auto. }
    assert (Hun2 : uncached (concat idss) s1').
    { eapply uncached_after; [|exact Hsame|exact Hip|].
      - apply token_disjoint, Hdisj.
      - eapply uncached_sub, Hun. intros x Hx. apply elem_of_app. auto. }
    destruct (IH vs' s1' Hdts Hnd2 Hvs' Hbelow1 Hun2)
      as (ys & s2 & Hrun2 & Hfr2 & Hip2 & Hsame2 & Hrepr2).
    exists (y :: ys), s2. cbn [mapM]. step_ok Hrun. step_ok Hrun2.
    split; [reflexivity|]. split; [eapply frame_on_trans; eassumption|].
    split; [congruence|]. split.
    { eapply cache_same_outside_trans; [| |exact Hsame|exact Hsame2];
        intros x Hx; apply elem_of_app; auto. }
    constructor.
    + eapply (repr_from_frame (λ _, True)); [auto | exact Hfr2 | exact Hrepr].
    + eapply Forall2_impl; [exact Hrepr2|]. intros t' y'. apply repr_from_le.
      apply Hfr.
Qed.

Lemma array_denormalize_stored s1 ts idss (l : loc) vs s :
  Forall2 (conf T s1) ts idss →
  hD !! l = Some (OArray vs) →
  Forall2 (stored T 0 hD E s1) ts vs →
  (depth (TArr ts) ≤ n)%nat → NoDup (token <$> concat idss) →
  below hD (st_heap s) → uncached (concat idss) s →
  returns (ArrayUtils.denormalize (SArray [s1]) (VObject l) unv)
    (unvisit_post (TArr ts) (concat idss) s) s.
Proof.
  intros Hconf Hl Hst Hdepth Hnd Hbelow Hun.
  assert (Hls : st_heap s !! l = Some (OArray vs)).
  { rewrite Hbelow; [exact Hl | eapply lookup_lt_Some, Hl]. }
  assert (Hd : Forall (λ t, (depth t < n)%nat) ts).
  { apply Forall_forall. intros t Ht. pose proof (depth_elem _ _ Ht). lia. }
  destruct (unvisit_elements s1 ts idss Hconf vs s Hd Hnd Hst Hbelow Hun)
    as (ys & s2 & Hrun & Hfr & Hip & Hsame & Hrepr).
  unfold ArrayUtils.denormalize.
  eapply returns_step; [reflexivity|]. cbv beta.
  run_step run_get_heap. unfold has_map. rewrite Hls.
  cbn [truthy andb]. cbv iota. unfold map_method.
  run_step run_get_heap. rewrite Hls.
  change (head [s1]) with (Some s1). run_with Hrun.
  eapply returns_ok; [apply run_alloc|]. cbn [st_heap with_heap].
  split; [|split; [|split; [exact Hip | exact Hsame]]].
  - eapply frame_on_trans; [exact Hfr | apply frame_on_app].
  - eapply repr_arr.
    + apply Hfr.
    + apply heap_lookup_alloc.
    + eapply Forall2_impl; [exact Hrepr|]. intros t y.
      apply (repr_from_frame (λ _, True)); [auto | apply frame_on_app].
Qed.

End denormalize_stored.

Section entity_denormalize.
Variables (T : schema_table) (hD : heap) (E : loc) (unv : UnvisitFn) (n : nat).
Hypothesis Hunv : unvisit_spec T hD E unv n.
Hypothesis Himm : isImmutable hD (VObject E) = false.

Lemma entity_denormalize_stored e ps idv idss (rl : loc) rs s :
  id_ok idv →
  fields_conform (conf T) (definition e) ps idss →
  store_get hD E (key e) (to_key idv) = Some (VObject rl) →
  hD !! rl = Some (OPlain rs) →
  fields_stored (stored T 0 hD E) (definition e) ps rs →
  (depth (TObj ps) ≤ n)%nat →
  NoDup (token <$> (key e, to_key idv) :: concat idss) →
  below hD (st_heap s) →
  uncached ((key e, to_key idv) :: concat idss) s →
  returns (unvisitEntity idv e unv (getEntities hD (VObject E)))
    (unvisit_post (TObj ps) ((key e, to_key idv) :: concat idss) s) s.
Proof.
  intros Hidok Hconf Hsg Hrl Hst Hdepth Hnd Hbelow Hun.
  pose proof Hconf as (Hndf & Hndp & Hplain & Hdecl & Hundecl).
  pose proof Hst as (Hndr & Hperm & _).
  destruct (stored_plain T hD E _ _ _ _ Hconf Hst) as [Hnil Hnil'].
  cbn [fmap list_fmap] in Hnd. apply NoDup_cons in Hnd as [Hfresh Hnd].
  assert (Hrls : st_heap s !! rl = Some (OPlain rs)).
  { rewrite Hbelow; [exact Hrl | eapply lookup_lt_Some, Hrl]. }
  destruct (Hun (key e) (to_key idv) ltac:(left)) as [Hc0 Hip0].
  unfold unvisitEntity.
  run_step (getEntities_found hD E e idv s (VObject rl) Himm Hidok
              (store_get_below _ _ _ _ _ _ Hbelow Hsg)).
  rewrite strict_eq_object_undefined.
  eapply returns_step; [reflexivity|]. cbv beta.
  cbn [typeof]. change (String.eqb "object" "object") with true.
  rewrite strict_eq_object_null. cbn [negb orb]. cbv iota.
  destruct (run_ensure_cache (key e) s) as (C1 & Hrun1 & Hc1).
  run_with Hrun1. run_step run_inProgress_has.
  cbn [st_inProgress with_cache].
  change (key e +:+ ":" +:+ to_key idv) with (token (key e, to_key idv)).
  rewrite (bool_decide_eq_false_2 _ Hip0).
  run_step run_get_heap. cbn [st_heap with_cache]. cbv iota.
  run_step run_cache_has. rewrite Hc1, Hc0.
  rewrite bool_decide_eq_false_2 by (intros [? ?]; discriminate). cbv iota.
  eapply returns_step; [reflexivity|]. cbv beta.
  rewrite (isImmutable_plain _ _ _ Hrls Hnil).
  run_step run_spread. cbn [st_heap with_inProgress with_cache].
  rewrite (spread_props_plain _ _ _ Hrls).
  set (c := length (st_heap s)).
  match goal with
  | |- returns _ _ ?s0 => set (s2 := s0)
  end.
  destruct (run_cache_set (key e) (to_key idv) (VObject c) s2)
    as (C3 & Hrun3 & Hc3 & Hc3').
  run_with Hrun3.
  set (s3 := with_cache C3 s2).
  assert (Hh3 : st_heap s3 = st_heap s ++ [OPlain (own_entries rs)])
    by reflexivity.
  assert (Hip3 : st_inProgress s3
                 = {[token (key e, to_key idv)]} ∪ st_inProgress s)
    by reflexivity.
  assert (Hcache3 : ∀ k' i', (k', i') ≠ (key e, to_key idv) →
            cached_of s3 k' i' = cached_of s k' i').
  { intros k' i' Hne. etrans; [apply (Hc3' k' i' Hne)|]. apply Hc1. }
  assert (Hpre : dfield_pre hD c rs (own_entries (definition e))
                   (own_entries rs) s3).
  { split; [rewrite Hh3; apply heap_lookup_alloc|]. split; [|split].
    - intros d _. apply assoc_get_own_entries, Hndr.
    - rewrite Hh3. apply below_app, Hbelow.
    - apply below_length, Hbelow. }
  assert (Hun3 : uncached (concat idss) s3).
  { intros k' i' Hin. destruct (Hun k' i' ltac:(right; exact Hin))
      as [Hcn Hipn].
    assert (Hne : (k', i') ≠ (key e, to_key idv)).
    { intros Heq. apply Hfresh. rewrite <- Heq.
      apply list_elem_of_fmap. eauto. }
    split; [rewrite Hcache3 by exact Hne; exact Hcn|].
    rewrite Hip3. intros Hin'. apply elem_of_union in Hin' as [Hin'|Hin'];
      [|contradiction].
    apply elem_of_singleton in Hin'. apply Hfresh. rewrite <- Hin'.
    apply list_elem_of_fmap. eauto. }
  destruct (dfields_loop T hD E c ps rs n _
              (entity_dfield_step T hD E c ps rs unv n Hunv)
              (own_entries (definition e)) idss
              (dfield_conf_of T hD E n _ _ _ _ Hconf Hst Hdepth)
              (own_entries rs) s3 (own_entries_NoDup _ Hndf) Hnd Hpre Hun3)
    as (s4 & Hrun4 & cur' & Hcur' & Hkeys & Hothers & Hrepr & Hfr & Hip4
        & Hsame).
  assert (Hden : Entity.denormalize e (VObject c) unv s3
                 = Ok (VObject c) s4).
  { apply returns_eq. unfold Entity.denormalize. run_step run_get_heap.
    rewrite (isImmutable_plain (st_heap s3) c (own_entries rs)
               (proj1 Hpre) Hnil').
    run_with Hrun4. apply returns_ret. auto. }
  run_with Hden.
  destruct (run_cache_set (key e) (to_key idv) (VObject c) s4)
    as (C5 & Hrun5 & Hc5 & Hc5').
  run_with Hrun5. eapply returns_step; [reflexivity|]. cbv beta.
  eapply returns_ok; [apply run_cache_get|].
  match goal with
  | |- unvisit_post _ _ _ _ ?s0 => set (s6 := s0)
  end.
  assert (Hc6 : cached_of s6 (key e) (to_key idv) = Some (VObject c))
    by exact Hc5.
  rewrite Hc6. cbn [default from_option id].
  split; [|split; [|split]].
  - change (st_heap s6) with (st_heap s4).
    eapply (frame_on_compose (λ _, True) (λ l, l ≠ c));
      [|apply (frame_on_app _ (st_heap s) [OPlain (own_entries rs)])
       |rewrite <- Hh3; exact Hfr].
    intros l Hl _. split; [exact I | unfold c; lia].
  - change (st_heap s6) with (st_heap s4).
    eapply repr_of_dloop; try eassumption. unfold c. lia.
  - change (st_inProgress s6)
      with (st_inProgress s4 ∖ {[token (key e, to_key idv)]}).
    rewrite Hip4, Hip3. apply leibniz_equiv, set_equiv. intros x.
    rewrite elem_of_difference, elem_of_union, !elem_of_singleton. split.
    + intros [[->|Hx] Hne]; [contradiction | exact Hx].
    + intros Hx. split; [right; exact Hx|]. intros ->. contradiction.
  - intros k' i' Hni. apply not_elem_of_cons in Hni as [Hne Hni].
    change (cached_of s6 k' i') with (cached_of (with_cache C5 s4) k' i').
    rewrite (Hc5' k' i' Hne), (Hsame k' i' Hni). apply Hcache3, Hne.
Qed.

End entity_denormalize.

(** *** Denormalization of a stored form *)

(** With enough fuel, [unvisit] on the normalized form of a conforming
    input whose entities have pairwise different cache tokens returns a
    fresh value that unfolds to the same tree. *)
Lemma unvisit_stored T hD E :
  isImmutable hD (VObject E) = false →
  ∀ fuel,
    unvisit_spec T hD E (unvisit fuel T (getEntities hD (VObject E))) fuel.
Proof.
  intros Himm. induction fuel as [|n IH];
    intros sch t ids r s Hconf Hdepth Hnd Hst Hbelow Hun; [lia|].
  apply returns_elim. cbn [unvisit]. unfold unvisit_body.
  inversion Hconf as [sid e attr ps idv idss HT Hattr Hproc Hkey Hid Hidok Hf
                     |s1 ts idss Hts
                     |fields ps idss Hf
                     |sid fields ps idss HT Hf]; subst.
  - rewrite HT.
    inversion Hst as [? e' ? idv' rl rs HT' Hid' Hsg _ _ Hrl Hfs| | |
                      ? ? ? ? ? HT' _ _ _ _]; subst; [|congruence].
    assert (e' = e) by congruence. subst e'.
    rewrite (Hid' attr Hattr) in Hid. injection Hid as <-.
    rewrite (proj2 Hidok).
    eapply entity_denormalize_stored; try eassumption. lia.
  - inversion Hst as [|? ? l vs _ _ Hl Helems| |]; subst.
    eapply array_denormalize_stored; try eassumption. lia.
  - inversion Hst as [| |? ? l rs _ _ Hl Hfs|]; subst.
    eapply object_denormalize_stored; try eassumption. lia.
  - rewrite HT.
    inversion Hst as [? e' ? ? ? ? HT' _ _ _ _ _ _| | |
                      ? fields' ? l rs HT' _ _ Hl Hfs]; subst; [congruence|].
    assert (fields' = fields) by congruence. subst fields'.
    cbn [is_nullish]. eapply object_denormalize_stored; try eassumption. lia.
Qed.

(** *** Two values that unfold to the same tree are deep-equal *)

Lemma forallb_zip_Forall2 {A B C} (R : C → A → Prop) (R' : C → B → Prop)
  (f : A * B → bool) ts xs ys :
  Forall2 R ts xs → Forall2 R' ts ys →
  (∀ t x y, t ∈ ts → R t x → R' t y → f (x, y) = true) →
  forallb f (zip xs ys) = true.
Proof.
  intros Hx. revert ys. induction Hx as [|t x ts xs Htx _ IH]; intros ys Hy Hf.
  - inversion Hy; subst. reflexivity.
  - inversion Hy as [|? y ? ys' Hty Hys]; subst. cbn [zip zip_with forallb].
    rewrite (Hf t x y) by (auto; left). cbn [andb].
    apply IH; [exact Hys|]. intros t' x' y' Hin. apply Hf. right. exact Hin.
Qed.

Lemma repr_deep_equal h n m :
  ∀ d t a b, (depth t < d)%nat →
             repr_from n h t a → repr_from m h t b →
             deep_equal d h a b = true.
Proof.
  induction d as [|d IH]; intros t a b Hd Ha Hb; [lia|].
  cbn [deep_equal]. apply orb_true_iff.
  inversion Ha as [v|la xs ts _ Hla Hxs|la qa ps _ Hla Hnda Hpa Hfa]; subst.
  - inversion Hb; subst. left. apply bool_decide_eq_true. reflexivity.
  - inversion Hb as [|lb ys ? _ Hlb Hys|]; subst. right.
    rewrite Hla, Hlb. apply andb_true_iff. split.
    + apply bool_decide_eq_true.
      rewrite <- (Forall2_length _ _ _ Hxs). apply (Forall2_length _ _ _ Hys).
    + eapply forallb_zip_Forall2; [exact Hxs | exact Hys |].
      intros t x y Hin Hx Hy. cbn [fst snd]. apply (IH t); [|assumption..].
      pose proof (depth_elem _ _ Hin). lia.
  - inversion Hb as [| |lb qb ? _ Hlb Hndb Hpb Hfb]; subst. right.
    rewrite Hla, Hlb.
    assert (Hndp : NoDup ps.*1) by (rewrite <- Hpa; exact Hnda).
    rewrite Forall_forall in Hfa, Hfb.
    apply andb_true_iff. split; apply forallb_forall; intros [k v] Hin;
      apply list_elem_of_In in Hin; cbn [fst snd].
    + assert (Hk : k ∈ ps.*1).
      { rewrite <- Hpa. apply list_elem_of_fmap. exists (k, v). auto. }
      apply list_elem_of_fmap in Hk as ([k' tf] & Hk' & Hp).
      cbn [fst] in Hk'. subst k'.
      destruct (Hfa _ Hp) as (va & Hva & Hra).
      destruct (Hfb _ Hp) as (vb & Hvb & Hrb). cbn [fst snd] in *.
      rewrite (assoc_get_NoDup k v qa Hnda Hin) in Hva. injection Hva as <-.
      rewrite Hvb. apply (IH tf); [|assumption..].
      pose proof (depth_field k tf ps (assoc_get_NoDup k tf ps Hndp Hp)). lia.
    + apply assoc_has_true. rewrite Hpa, <- Hpb.
      apply list_elem_of_fmap. exists (k, v). auto.
Qed.

(** *** The round trip *)

Lemma typeof_not_undefined r :
  is_nullish r = false → String.eqb (typeof r) "undefined" = false.
Proof. destruct r; try discriminate; reflexivity. Qed.

Lemma below_refl h : below h h.
Proof. intros l _. reflexivity. Qed.

Lemma store_ok_new (h : heap) : store_ok (h ++ [OPlain []]) (length h).
Proof.
  exists []. split; [apply heap_lookup_alloc|]. split.
  - split; apply not_elem_of_nil.
  - intros k v Hk. discriminate.
Qed.

Lemma store_ok_plain h E : store_ok h E → isImmutable h (VObject E) = false.
Proof.
  intros (bs & HE & Hpl & _). eapply isImmutable_plain; [exact HE|].
  apply plain_keys_not_immutable_like, Hpl.
Qed.

(** Why the declared fields must hold objects of the declared shape: a
    primitive under a declared entity field is left as it is by
    [normalize] and taken for the id of a stored entity by
    [denormalize]; [{id: '123', author: '1'}] comes back as
    [{id: '123', author: undefined}] (object 4). *)
Remark round_trip_loses_unstored_reference :
  normalize 3 RoundTripExample.article_table (VObject 0) (SClass 1)
    RoundTripExample.unresolved_author_heap
  = Returned {| entities := VObject 1; result := VString "123" |}
      (RoundTripExample.unresolved_author_heap ++
       [ OPlain [("articles", VObject 3)];
         OPlain [("id", VString "123"); ("author", VString "1")];
         OPlain [("123", VObject 2)] ])
  ∧ denormalize 3 RoundTripExample.article_table (VString "123") (SClass 1)
      (VObject 1)
      (RoundTripExample.unresolved_author_heap ++
       [ OPlain [("articles", VObject 3)];
         OPlain [("id", VString "123"); ("author", VString "1")];
         OPlain [("123", VObject 2)] ])
    = Returned (VObject 4)
        (RoundTripExample.unresolved_author_heap ++
         [ OPlain [("articles", VObject 3)];
           OPlain [("id", VString "123"); ("author", VString "1")];
           OPlain [("123", VObject 2)];
           OPlain [("id", VString "123"); ("author", VUndefined)] ])
  ∧ ¬ DeepEqual
        (RoundTripExample.unresolved_author_heap ++
         [ OPlain [("articles", VObject 3)];
           OPlain [("id", VString "123"); ("author", VString "1")];
           OPlain [("123", VObject 2)];
           OPlain [("id", VString "123"); ("author", VUndefined)] ])
        (VObject 4) (VObject 0).
Proof.
  split; [vm_compute; reflexivity|].
  split; [vm_compute; reflexivity|].
  intros [fuel H]. destruct fuel as [|[|n]]; [discriminate| |];
    vm_compute in H; discriminate.
Qed.


Ltac decide_it :=
  unfold plain_keys; refine (bool_decide_unpack _ _); vm_compute; exact I.


(* --------------------------------------------------------------------- *)
(** ** The normal form and its reconstruction *)

Lemma prefix_of_below (h h' : heap) :
  (length h ≤ length h')%nat → below h h' → h `prefix_of` h'.
Proof.
  intros Hlen Hb. exists (drop (length h) h').
  rewrite <- (take_drop (length h) h') at 1. f_equal.
  apply list_eq. intros i. destruct (decide (i < length h)%nat) as [Hi|Hi].
  - rewrite lookup_take_lt by exact Hi. apply (Hb i Hi).
  - rewrite lookup_take_ge by lia. symmetry. apply lookup_ge_None. lia.
Qed.

(** The article of [RoundTripExample] conforms to its schema, and its
    heap holds it. *)
Ltac author_conforms :=
  eapply (conf_entity _ 0%nat (Examples.entity "users" []) "id" _
            (VString "1") []);
  [ reflexivity | reflexivity | reflexivity | decide_it | reflexivity
  | split; reflexivity
  | split; [decide_it|]; split; [decide_it|]; split; [decide_it|];
    split; [constructor|];
    repeat constructor; intros _; eexists; reflexivity ].

Ltac article_conforms :=
  eapply (conf_entity _ 1%nat
            (Examples.entity "articles" [("author", SClass 0)]) "id" _
            (VString "123") [[("users", "1")]]);
  [ reflexivity | reflexivity | reflexivity | decide_it | reflexivity
  | split; reflexivity
  | split; [decide_it|]; split; [decide_it|]; split; [decide_it|]; split;
    [ constructor; [|constructor]; split;
      [ intros tf [= <-]; author_conforms | discriminate ]
    | repeat constructor; try (intros _; eexists; reflexivity);
      discriminate ] ].

Ltac article_represented :=
  eapply repr_obj with (l := 0%nat);
  [ lia | reflexivity | decide_it | reflexivity
  | repeat constructor;
    try (eexists; split; [reflexivity | constructor]);
    eexists; split; [reflexivity|];
    eapply repr_obj with (l := 1%nat);
    [ lia | reflexivity | decide_it | reflexivity
    | repeat constructor; eexists; (split; [reflexivity | constructor]) ] ].

(** The traversal of [normalize] on a conforming input. *)
Lemma normalize_in_conforming T sch t ids h x fuel :
  conf T sch t ids →
  NoDup ids →
  repr h t x →
  (depth t < fuel)%nat →
  ∃ r s2,
    normalize_in fuel T x sch (State h ∅ ∅ ∅)
    = Ok {| entities := VObject (length h); result := r |} s2
    ∧ below h (st_heap s2)
    ∧ store_ok (st_heap s2) (length h)
    ∧ stored T (length (h ++ [OPlain []])) (st_heap s2) (length h) sch t r.
Proof.
  intros Hconf Hnd Hrepr Hdepth.
  destruct (conf_object_value _ _ _ _ _ _ Hconf Hrepr) as [l ->].
  set (E := length h).
  set (s1 := State (h ++ [OPlain []]) ∅ ∅ ∅).
  assert (Hok1 : store_ok (st_heap s1) E) by apply store_ok_new.
  assert (Hbelow1 : below h (st_heap s1)) by apply below_app, below_refl.
  assert (Hun1 : unvisited E ids s1).
  { intros k i _. split; [|reflexivity].
    apply (store_get_no_bucket _ _ _ _ [] (heap_lookup_alloc h _)).
    reflexivity. }
  destruct (visit_conforming T h E (Nat.le_refl _) fuel sch t ids (VObject l)
              (VObject l) None s1 Hconf Hdepth Hnd Hrepr Hbelow1 Hok1 Hun1)
    as (r & s2 & Hrun & Hev & Hok2 & _ & Hst & Hnn).
  exists r, s2. split; [|split; [|split; [exact Hok2 | exact Hst]]].
  - unfold normalize_in. cbn [truthy typeof negb orb].
    change (String.eqb "object" "object") with true. cbn [negb]. cbv iota.
    unfold bind at 1. rewrite run_alloc. cbv beta iota.
    change (with_heap _ _) with s1. change (length (st_heap _)) with E.
    unfold bind. rewrite Hrun. reflexivity.
  - apply (below_evolves (λ _, True) h E (st_heap s1)); auto.
Qed.



(** The traversal of [denormalize] on a stored form. *)
Lemma denormalize_in_stored T sch t ids hD E r fuel :
  conf T sch t ids →
  NoDup (token <$> ids) →
  isImmutable hD (VObject E) = false →
  stored T 0 hD E sch t r →
  (depth t < fuel)%nat →
  ∃ y s3,
    denormalize_in fuel T r sch (VObject E) (State hD ∅ ∅ ∅) = Ok y s3
    ∧ frame_on (λ _, True) hD (st_heap s3)
    ∧ repr_from (length hD) (st_heap s3) t y.
Proof.
  intros Hconf Hnd Himm Hst Hdepth.
  assert (HunD : uncached ids (State hD ∅ ∅ ∅)).
  { intros k i _. split; [reflexivity | apply not_elem_of_empty]. }
  destruct (unvisit_stored T hD E Himm fuel sch t ids r (State hD ∅ ∅ ∅)
              Hconf Hdepth Hnd Hst (below_refl _) HunD)
    as (y & s3 & Hrun & Hfr & Hrepr & _).
  exists y, s3. split; [|split; [exact Hfr | exact Hrepr]].
  unfold denormalize_in.
  rewrite (typeof_not_undefined _ (stored_not_nullish _ _ _ _ _ _ _ Hconf
                                     Hst)).
  unfold bind. rewrite run_get_heap. cbv beta iota.
  change (st_heap (State hD ∅ ∅ ∅)) with hD. exact Hrun.
Qed.


Ltac not_a_store :=
  let Hs := fresh in
  let Hk := fresh in
  intros Hs; unfold is_store in Hs;
  destruct Hs as [Hs|[? Hk]]; [discriminate|];
  erewrite get_prop_plain in Hk by reflexivity;
  match type of Hk with
  | default _ ?o = _ => destruct o eqn:Hk'; [|discriminate]
  end; cbn [default from_option id] in Hk; subst;
  rename Hk' into Hk;
  apply assoc_get_elem in Hk;
  repeat (apply elem_of_cons in Hk as [Hk|Hk]; [congruence|]);
  inversion Hk.

(** The store of [StoreExample] holds the normalized form of the article
    of [RoundTripExample]. *)
Ltac article_is_stored :=
  eapply (stored_entity _ _ _ _ 1%nat
            (Examples.entity "articles" [("author", SClass 0)]) _ _ 3%nat);
  [ reflexivity | intros ? [= <-]; reflexivity | reflexivity | lia
  | not_a_store | reflexivity | ];
  split; [decide_it|]; split; [reflexivity|]; split;
  [ constructor; [|constructor]; intros ? [= <-]; eexists;
    split; [reflexivity|];
    eapply (stored_entity _ _ _ _ 0%nat (Examples.entity "users" []) _ _
              4%nat);
    [ reflexivity | intros ? [= <-]; reflexivity | reflexivity | lia
    | not_a_store | reflexivity | ];
    split; [decide_it|]; split; [reflexivity|]; split; [constructor|];
    repeat constructor; intros _; eexists; split; reflexivity
  | repeat constructor; try (intros _; eexists; split; reflexivity);
    discriminate ].




(* --------------------------------------------------------------------- *)
(** ** The store: what [addEntities] writes, [getEntities] reads *)

(** On a store of buckets [getEntity] is the lookup
    [entities[type][id]], and [undefined] when the type or the id is
    missing. *)
Lemma getEntities_lookup h0 E e idv s :
  store_ok (st_heap s) E →
  isImmutable h0 (VObject E) = false →
  String.eqb (typeof idv) "object" = false →
  getEntities h0 (VObject E) idv e s
  = Ok (default VUndefined (store_get (st_heap s) E (key e) (to_key idv))) s.
Proof.
  intros (bs & HE & _ & Hbs) Himm Hty. unfold getEntities, store_get.
  rewrite Himm, Hty, HE. unfold bind.
  rewrite run_hasOwn, (has_own_plain _ _ _ _ HE). unfold assoc_has.
  destruct (assoc_get (key e) bs) as [v|] eqn:Hk; [|reflexivity].
  destruct (Hbs _ _ Hk) as (b & recs & -> & _ & Hb & _).
  cbn [negb]. cbv iota.
  rewrite run_read_prop, (get_prop_plain _ _ _ _ HE), Hk.
  cbn [default from_option id].
  rewrite run_hasOwn, (has_own_plain _ _ _ _ Hb), Hb. unfold assoc_has.
  destruct (assoc_get (to_key idv) recs) as [v|] eqn:Hi; [|reflexivity].
  cbn [negb]. cbv iota.
  rewrite run_read_prop, (get_prop_plain _ _ _ _ Hb), Hi. reflexivity.
Qed.


(** Replacing the records of one bucket, after some allocation. *)
Lemma store_update_bucket (h t : heap) E bs k (b : loc) recs recs' :
  store_ok h E →
  h !! E = Some (OPlain bs) →
  assoc_get k bs = Some (VObject b) →
  h !! b = Some (OPlain recs) →
  store_ok (<[b := OPlain recs']> (h ++ t)) E
  ∧ ∀ k' i',
      store_get (<[b := OPlain recs']> (h ++ t)) E k' i'
      = if String.eqb k' k then assoc_get i' recs' else store_get h E k' i'.
Proof.
  intros (bs0 & HE0 & Hpl & Hbs) HE Hk Hb.
  assert (bs0 = bs) by congruence. subst bs0.
  destruct (Hbs _ _ Hk) as (b0 & recs0 & [= <-] & HEb & _ & Hinj).
  set (h' := (<[b := OPlain recs']> (h ++ t) : heap)).
  assert (Hold : ∀ l : loc, (l < length h)%nat → l ≠ b → h' !! l = h !! l).
  { intros l Hl Hne. unfold h'. rewrite heap_lookup_insert_ne by congruence.
    apply lookup_app_l, Hl. }
  assert (HE' : h' !! E = Some (OPlain bs)).
  { rewrite Hold; [exact HE | eapply lookup_lt_Some, HE | lia]. }
  assert (Hb' : h' !! b = Some (OPlain recs')).
  { apply heap_lookup_insert_eq. rewrite length_app.
    apply lookup_lt_Some in Hb. lia. }
  split.
  - exists bs. split; [exact HE'|]. split; [exact Hpl|]. intros k' v Hk'.
    destruct (Hbs _ _ Hk') as (b' & recs1 & -> & HEb' & Hb1 & Hinj').
    destruct (decide (b' = b)) as [->|Hne].
    + exists b, recs'. auto.
    + exists b', recs1. split; [reflexivity|]. split; [exact HEb'|].
      split; [|exact Hinj'].
      rewrite Hold; [exact Hb1 | eapply lookup_lt_Some, Hb1 | exact Hne].
  - intros k' i'. destruct (String.eqb k' k) eqn:Ek.
    + apply String.eqb_eq in Ek. subst k'.
      apply (store_get_eq _ _ _ _ _ _ _ HE' Hk Hb').
    + unfold store_get. rewrite HE', HE.
      destruct (assoc_get k' bs) as [[| | | | |b']|] eqn:Hk'; try reflexivity.
      destruct (Hbs _ _ Hk') as (b1 & recs1 & [= <-] & _ & Hb1 & _).
      rewrite Hold; [reflexivity | eapply lookup_lt_Some, Hb1 |].
      intros ->. apply Hinj in Hk'. subst k'.
      rewrite String.eqb_refl in Ek. discriminate.
Qed.


(** [addEntities] on an id the bucket already holds: the merge strategy
    runs on the stored entity and the incoming one, and its answer
    replaces the stored entity. *)
Lemma addEntities_present e input parent k s E p idv bs (b : loc) recs old :
  Entity.getId e input parent k s = Ok idv s →
  st_heap s !! E = Some (OPlain bs) →
  assoc_get (key e) bs = Some (VObject b) →
  st_heap s !! b = Some (OPlain recs) →
  assoc_get (to_key idv) recs = Some old →
  let r := mergeStrategy e old (VObject p) (st_heap s) in
  addEntities (VObject E) e (VObject p) input parent k s
  = Ok tt (with_heap
             (<[b := OPlain (assoc_set (to_key idv) r.2 recs)]>
                (st_heap s ++ r.1)) s).
Proof.
  intros Hid HE Hk Hb Hold r. unfold addEntities.
  step_ok Hid. step_with run_hasOwn.
  rewrite (has_own_plain _ _ _ _ HE). unfold assoc_has at 1. rewrite Hk.
  unfold bind at 1. cbv beta iota. unfold ret at 1. cbv beta iota.
  step_with run_read_prop. rewrite (get_prop_plain _ _ _ _ HE), Hk.
  cbn [default from_option id]. step_with run_hasOwn.
  rewrite (has_own_plain _ _ _ _ Hb).
  unfold assoc_has. rewrite Hold. cbn [negb is_Some]. cbv iota.
  step_with run_read_prop. rewrite (get_prop_plain _ _ _ _ Hb), Hold.
  cbn [default from_option id].
  unfold bind at 1, Entity.merge, call_strategy. cbv beta iota zeta.
  rewrite run_assign. cbn [st_heap with_heap].
  assert (Hb' : (st_heap s ++ r.1) !! b = Some (OPlain recs)).
  { rewrite lookup_app_l; [exact Hb | eapply lookup_lt_Some, Hb]. }
  fold r. rewrite (set_prop_plain _ _ _ _ _ Hb'). reflexivity.
Qed.


Ltac store_is_ok :=
  eexists; split; [reflexivity|]; split; [decide_it|];
  intros k v Hk; apply assoc_get_elem in Hk;
  repeat (apply elem_of_cons in Hk as [Hk|Hk];
          [ injection Hk as -> ->; do 2 eexists;
            split; [reflexivity|]; split; [lia|]; split; [reflexivity|];
            intros k' Hk'; apply assoc_get_elem in Hk';
            repeat (apply elem_of_cons in Hk' as [Hk'|Hk'];
                    [congruence|]);
            inversion Hk' | ]);
  inversion Hk.




(* --------------------------------------------------------------------- *)
(** ** [define] *)

Lemma assoc_get_foldl_set {A} k (d acc : list (string * A)) :
  assoc_get k (foldl (λ acc f, assoc_set f.1 f.2 acc) acc d)
  = match assoc_get k (reverse d) with
    | Some v => Some v
    | None => assoc_get k acc
    end.
Proof.
  revert acc. induction d as [|[k0 v0] d IH]; intros acc; simpl.
  - reflexivity.
  - rewrite IH, reverse_cons, assoc_get_app, assoc_get_set. simpl.
    destruct (assoc_get k (reverse d)); [reflexivity|].
    destruct (String.eqb k k0); reflexivity.
Qed.

Lemma define_lookup {A} k (d acc : list (string * A)) :
  NoDup d.*1 →
  assoc_get k (foldl (λ acc f, assoc_set f.1 f.2 acc) acc (own_entries d))
  = match assoc_get k d with
    | Some v => Some v
    | None => assoc_get k acc
    end.
Proof.
  intros Hnd. rewrite assoc_get_foldl_set.
  rewrite assoc_get_reverse by (apply own_entries_NoDup, Hnd).
  rewrite assoc_get_own_entries by exact Hnd. reflexivity.
Qed.

(** X7.  [define] adds to a definition, it does not replace it.  After
    [schema.define(d)] on an Entity or an Object schema, a field named in
    [d] has the schema [d] gives it, and every other field has the schema
    it had before; the key and the options of an Entity are not touched.
    So a schema defined in two steps is the schema defined in one. *)
Theorem define_extends_definition (e : EntitySchema)
  (d0 d : SchemaDefinition) (k : string) :
  NoDup d.*1 →
  assoc_get k (definition (Entity.define e d))
  = match assoc_get k d with
    | Some s => Some s
    | None => assoc_get k (definition e)
    end
  ∧ assoc_get k (ObjectUtils.define d0 d)
    = match assoc_get k d with
      | Some s => Some s
      | None => assoc_get k d0
      end
  ∧ key (Entity.define e d) = key e
  ∧ idAttribute (Entity.define e d) = idAttribute e
  ∧ mergeStrategy (Entity.define e d) = mergeStrategy e
  ∧ processStrategy (Entity.define e d) = processStrategy e
  ∧ fallbackStrategy (Entity.define e d) = fallbackStrategy e.
Proof.
  intros Hnd. split; [apply define_lookup, Hnd|].
  split; [apply define_lookup, Hnd|]. repeat split.
Qed.

(** README, "Circular References": [user.define({friends: [user]})] on
    [new schema.Entity('users', {name: ...})]. *)
Lemma define_extends_definition_witness :
  let user := Examples.entity "users" [("profile", SObject [])] in
  let d := [("friends", SArray [SClass 0])] in
  assoc_get "profile" (definition (Entity.define user d))
  = match assoc_get "profile" d with
    | Some s => Some s
    | None => assoc_get "profile" (definition user)
    end
  ∧ assoc_get "profile" (ObjectUtils.define [] d)
    = match assoc_get "profile" d with
      | Some s => Some s
      | None => assoc_get "profile" []
      end
  ∧ key (Entity.define user d) = key user
  ∧ idAttribute (Entity.define user d) = idAttribute user
  ∧ mergeStrategy (Entity.define user d) = mergeStrategy user
  ∧ processStrategy (Entity.define user d) = processStrategy user
  ∧ fallbackStrategy (Entity.define user d) = fallbackStrategy user.
Proof.
  intros user d.
  apply (define_extends_definition user [] d "profile").
  decide_it.
Defined.

(* --------------------------------------------------------------------- *)
(** ** Normalization does not touch the caller's objects *)

Lemma protects_stable P E H s s' :
  st_heap s' = st_heap s → protects P E H s → protects P E H s'.
Proof. unfold protects. intros ->. exact id. Qed.

Lemma protects_store_lt P E H s :
  protects P E H s → (E < length (st_heap s))%nat.
Proof. intros (_ & _ & bs & HE & _). eapply lookup_lt_Some, HE. Qed.

Lemma protects_ge P E H s (l : loc) :
  protects P E H s → (length (st_heap s) ≤ l)%nat → ¬ P l.
Proof. intros (HP & _) Hl Hp. apply HP in Hp as [Hlt _]. lia. Qed.

Lemma protects_app P E H s objs :
  protects P E H s → protects P E H (with_heap (st_heap s ++ objs) s).
Proof.
  intros (HP & HnE & bs & HE & Hbs). unfold protects.
  cbn [st_heap with_heap]. split.
  - intros l Hl. destruct (HP l Hl) as [Hlt Heq]. split.
    + rewrite length_app. lia.
    + etrans; [|exact Heq]. apply lookup_app_l, Hlt.
  - split; [exact HnE|]. exists bs. split; [|exact Hbs].
    apply lookup_app_l_Some, HE.
Qed.

Lemma protects_insert P E H s (l : loc) o :
  protects P E H s → ¬ P l → l ≠ E →
  protects P E H (with_heap (<[l := o]> (st_heap s)) s).
Proof.
  intros (HP & HnE & bs & HE & Hbs) Hl HlE. unfold protects.
  cbn [st_heap with_heap]. split.
  - intros l' Hl'. destruct (HP l' Hl') as [Hlt Heq]. split.
    + rewrite heap_length_insert. exact Hlt.
    + etrans; [|exact Heq]. apply heap_lookup_insert_ne. congruence.
  - split; [exact HnE|]. exists bs. split; [|exact Hbs].
    etrans; [|exact HE]. apply heap_lookup_insert_ne. exact HlE.
Qed.

Lemma protects_set_prop P E H s (l : loc) k v :
  protects P E H s → ¬ P l → l ≠ E →
  protects P E H (with_heap (set_prop (st_heap s) l k v) s).
Proof.
  intros Hs Hl HlE. unfold set_prop.
  repeat case_match; auto using protects_insert;
    (eapply protects_stable; [|exact Hs]; reflexivity).
Qed.

Lemma protects_del_prop P E H s (l : loc) k :
  protects P E H s → ¬ P l → l ≠ E →
  protects P E H (with_heap (del_prop (st_heap s) l k) s).
Proof.
  intros Hs Hl HlE. unfold del_prop.
  repeat case_match; auto using protects_insert;
    (eapply protects_stable; [|exact Hs]; reflexivity).
Qed.

(** A new bucket is written into the store. *)
Lemma protects_set_bucket P E H s k (b : loc) :
  protects P E H s → ¬ P b → (E < b)%nat →
  protects P E H (with_heap (set_prop (st_heap s) E k (VObject b)) s).
Proof.
  intros (HP & HnE & bs & HE & Hbs) Hb Hlt.
  rewrite (set_prop_plain _ _ _ _ _ HE). unfold protects.
  cbn [st_heap with_heap]. split.
  - intros l' Hl'. destruct (HP l' Hl') as [Hlt' Heq]. split.
    + rewrite heap_length_insert. exact Hlt'.
    + etrans; [|exact Heq]. apply heap_lookup_insert_ne. congruence.
  - split; [exact HnE|]. exists (assoc_set k (VObject b) bs). split.
    + apply heap_lookup_insert_eq. eapply lookup_lt_Some, HE.
    + intros k' v. rewrite assoc_get_set.
      destruct (String.eqb k' k); [|apply Hbs].
      intros [= <-]. eauto.
Qed.

(** What is read from the store is a bucket, or nothing. *)
Lemma protects_read P E H s k (l : loc) :
  protects P E H s →
  get_prop (st_heap s) (VObject E) k = VObject l →
  ¬ P l ∧ l ≠ E.
Proof.
  intros (_ & _ & bs & HE & Hbs). rewrite (get_prop_plain _ _ _ _ HE).
  destruct (assoc_get k bs) as [v|] eqn:Hk; [|discriminate].
  destruct (Hbs _ _ Hk) as (b & -> & Hnb & Hlt). intros [= <-].
  split; [exact Hnb | lia].
Qed.

(** The reference heap can be brought up to date. *)
Lemma protects_rebase P E H s :
  protects P E H s → protects P E (st_heap s) s.
Proof.
  intros (HP & Hrest). split; [|exact Hrest].
  intros l Hl. split; [apply (HP l Hl) | reflexivity].
Qed.

Section normalize_frame.
Variables (P : loc → Prop) (E : loc) (H : heap).

Local Abbreviation J := (protects P E H).
Local Abbreviation newer v := (∀ l : loc, v = VObject l → ¬ P l ∧ l ≠ E).

Lemma newer_fresh s : J s → newer (VObject (length (st_heap s))).
Proof.
  intros Hs l [= <-]. split; [eapply protects_ge; [exact Hs | lia]|].
  pose proof (protects_store_lt _ _ _ _ Hs). lia.
Qed.

Lemma nk_stable {A} (m : M A) s : heap_stable m → J s → keeps J m s.
Proof.
  intros Hm Hs. apply wp_stable; [exact Hm | |];
    intros ? s' Heq; exact (protects_stable _ _ _ _ _ Heq Hs).
Qed.

Lemma nk_bind_stable {A B} (m : M A) (k : A → M B) s :
  heap_stable m → J s →
  (∀ a s', J s' → st_heap s' = st_heap s → keeps J (k a) s') →
  keeps J (bind m k) s.
Proof.
  intros Hm Hs Hk. apply wp_bind. apply wp_stable; [exact Hm | |].
  - intros a s' Heq. apply Hk; [|exact Heq].
    exact (protects_stable _ _ _ _ _ Heq Hs).
  - intros e s' Heq. exact (protects_stable _ _ _ _ _ Heq Hs).
Qed.

Lemma nk_bind {A B} (m : M A) (k : A → M B) s :
  keeps J m s → (∀ a s', J s' → keeps J (k a) s') → keeps J (bind m k) s.
Proof.
  intros Hm Hk. apply wp_bind. eapply wp_mono; [exact Hm | | auto].
  intros a s' Hs'. apply Hk. exact Hs'.
Qed.

Lemma nk_alloc o s : J s → keeps J (alloc o) s.
Proof. intros Hs. apply (protects_app _ _ _ _ [o] Hs). Qed.

(** The object that a spread or a process strategy hands to the rest of
    the computation is a new one. *)
Lemma nk_bind_spread {B} x (k : value → M B) s :
  J s →
  (∀ v s', J s' → newer v → keeps J (k v) s') →
  keeps J (bind (spread x) k) s.
Proof.
  intros Hs Hk. apply wp_bind. unfold wp at 1; rewrite run_spread.
  apply Hk; [apply (protects_app _ _ _ _ [_] Hs)|]. apply newer_fresh, Hs.
Qed.

Lemma nk_bind_strategy {B} (f : strategy) (k : value → M B) s :
  J s →
  (∀ l : loc, (f (st_heap s)).2 = VObject l → (length (st_heap s) ≤ l)%nat) →
  (∀ v s', J s' → newer v → keeps J (k v) s') →
  keeps J (bind (call_strategy f) k) s.
Proof.
  intros Hs Hf Hk. apply wp_bind. unfold wp at 1, call_strategy.
  apply Hk; [apply (protects_app _ _ _ _ _ Hs)|].
  intros l Hl. apply Hf in Hl. split.
  - eapply protects_ge; [exact Hs | exact Hl].
  - pose proof (protects_store_lt _ _ _ _ Hs). lia.
Qed.

Lemma nk_call_strategy f s : J s → keeps J (call_strategy f) s.
Proof. intros Hs. apply (protects_app _ _ _ _ _ Hs). Qed.

Lemma nk_assign o k v s : J s → newer o → keeps J (assign o k v) s.
Proof.
  intros Hs Hnew. destruct o as [| | | | |l]; try exact Hs.
  destruct (Hnew l eq_refl). apply protects_set_prop; auto.
Qed.

Lemma nk_delete o k s : J s → newer o → keeps J (delete o k) s.
Proof.
  intros Hs Hnew. destruct o as [| | | | |l]; try exact Hs.
  destruct (Hnew l eq_refl). apply protects_del_prop; auto.
Qed.

Lemma nk_forM_ {A} (f : A → M unit) (l : list A) s :
  J s → (∀ x s', J s' → keeps J (f x) s') → keeps J (forM_ f l) s.
Proof. intros Hs Hf. apply wp_forM_; [exact Hs|]. intros; apply Hf; auto. Qed.

Lemma nk_mapM {A B} (f : A → M B) (l : list A) s :
  J s → (∀ x s', J s' → keeps J (f x) s') → keeps J (mapM f l) s.
Proof. intros Hs Hf. apply wp_mapM; [exact Hs|]. intros; apply Hf; auto. Qed.

Lemma nk_foldM {A B} (f : B → A → M B) (l : list A) acc s :
  J s → (∀ b x s', J s' → keeps J (f b x) s') → keeps J (foldM f acc l) s.
Proof. intros Hs Hf. apply wp_foldM; [exact Hs|]. intros; apply Hf; auto. Qed.

(** [addEntities] on the store of the call writes to the store and to
    its buckets only. *)
Lemma nk_addEntities e processed v parent k s :
  J s → keeps J (addEntities (VObject E) e processed v parent k) s.
Proof.
  intros Hs. unfold addEntities.
  apply nk_bind_stable; [apply stable_getId | exact Hs |].
  intros id s1 Hs1 _.
  apply nk_bind_stable; [apply stable_hasOwn | exact Hs1 |].
  intros known s2 Hs2 _.
  apply nk_bind.
  { destruct known; [exact Hs2|].
    apply wp_bind. unfold wp at 1; rewrite run_alloc; cbv beta iota.
    unfold wp; rewrite run_assign.
    apply protects_set_bucket; [apply (protects_app _ _ _ _ [_] Hs2) | |].
    - eapply protects_ge; [exact Hs2 | lia].
    - apply (protects_store_lt _ _ _ _ Hs2). }
  intros _ s3 Hs3.
  apply wp_bind. unfold wp at 1; rewrite run_read_prop.
  assert (Hbucket : newer (get_prop (st_heap s3) (VObject E) (key e))).
  { intros l. apply (protects_read _ _ _ _ _ _ Hs3). }
  set (bucket := get_prop (st_heap s3) (VObject E) (key e)) in *.
  apply nk_bind_stable; [apply stable_hasOwn | exact Hs3 |].
  intros present s4 Hs4 _. destruct present.
  - apply nk_bind_stable; [apply stable_read_prop | exact Hs4 |].
    intros existing s5 Hs5 _.
    apply nk_bind; [apply nk_call_strategy; exact Hs5|].
    intros merged s6 Hs6. apply nk_assign; [exact Hs6 | exact Hbucket].
  - apply nk_assign; [exact Hs4 | exact Hbucket].
Qed.

(** The recursive occurrence is assumed to keep the invariant. *)
Variable visit : VisitFn.
Hypothesis visit_keeps :
  ∀ v parent k schema s, J s → keeps J (visit v parent k schema) s.

Lemma nk_Entity_normalize e input parent k addEntity s :
  (∀ input parent k h (l : loc),
     (processStrategy e input parent k h).2 = VObject l →
     (length h ≤ l)%nat) →
  (∀ e' p v par k' s', J s' → keeps J (addEntity e' p v par k') s') →
  J s → keeps J (Entity.normalize e input parent k visit addEntity) s.
Proof.
  intros Hfresh Hadd Hs. unfold Entity.normalize.
  apply nk_bind_stable; [apply stable_validate | exact Hs |].
  intros typedInput s1 Hs1 _.
  apply nk_bind_stable; [apply stable_getId | exact Hs1 |].
  intros id s2 Hs2 _.
  apply nk_bind_stable; [apply stable_ensure_visited | exact Hs2 |].
  intros _ s3 Hs3 _.
  apply nk_bind_stable; [apply stable_visited_refs | exact Hs3 |].
  intros refs s4 Hs4 _. case_match; [exact Hs4|].
  apply nk_bind_stable; [apply stable_push_visited | exact Hs4 |].
  intros _ s5 Hs5 _.
  apply nk_bind_strategy; [exact Hs5 | apply Hfresh |].
  intros processed s6 Hs6 Hnew.
  apply nk_bind.
  { apply nk_forM_; [exact Hs6|]. intros f s7 Hs7.
    apply nk_bind_stable; [apply stable_hasOwn | exact Hs7 |].
    intros own s8 Hs8 _.
    apply nk_bind_stable; [apply stable_read_prop | exact Hs8 |].
    intros field s9 Hs9 _. case_match; [|exact Hs9].
    apply nk_bind_stable; [apply stable_get_heap | exact Hs9 |].
    intros h s10 Hs10 _.
    apply nk_bind; [apply visit_keeps; exact Hs10|].
    intros w s11 Hs11. apply nk_assign; assumption. }
  intros _ s7 Hs7.
  apply nk_bind; [apply Hadd; exact Hs7|].
  intros _ s8 Hs8. exact Hs8.
Qed.

Lemma nk_ObjectUtils_normalize schema input parent k s :
  J s → keeps J (ObjectUtils.normalize schema input parent k visit) s.
Proof.
  intros Hs. unfold ObjectUtils.normalize.
  apply nk_bind_spread; [exact Hs|]. intros object s1 Hs1 Hnew.
  apply nk_bind; [|intros; assumption].
  apply nk_forM_; [exact Hs1|]. intros f s2 Hs2.
  apply nk_bind_stable; [apply stable_get_heap | exact Hs2 |].
  intros h s3 Hs3 _.
  apply nk_bind_stable; [apply stable_read_prop | exact Hs3 |].
  intros field s4 Hs4 _.
  apply nk_bind; [apply visit_keeps; exact Hs4|].
  intros w s5 Hs5. case_match; [apply nk_delete | apply nk_assign]; assumption.
Qed.

Lemma nk_ArrayUtils_normalize schema input parent k s :
  J s → keeps J (ArrayUtils.normalize schema input parent k visit) s.
Proof.
  intros Hs. unfold ArrayUtils.normalize.
  apply nk_bind_stable; [apply stable_validateSchema | exact Hs |].
  intros validated s1 Hs1 _.
  apply nk_bind_stable; [apply stable_getValues | exact Hs1 |].
  intros values s2 Hs2 _.
  apply nk_bind.
  - apply nk_mapM; [exact Hs2|]. intros; apply visit_keeps; assumption.
  - intros out s3 Hs3. apply nk_alloc. exact Hs3.
Qed.

Lemma nk_normalizeValue p v parent k s :
  J s → keeps J (Polymorphic.normalizeValue p v parent k visit) s.
Proof.
  intros Hs. unfold Polymorphic.normalizeValue.
  apply nk_bind_stable; [apply stable_inferSchema | exact Hs |].
  intros schema s1 Hs1 _. destruct schema; [|exact Hs1].
  apply nk_bind; [apply visit_keeps; exact Hs1|].
  intros w s2 Hs2. case_match; [exact Hs2|].
  apply nk_bind_stable; [apply stable_getSchemaAttribute | exact Hs2 |].
  intros attr s3 Hs3 _. apply nk_alloc. exact Hs3.
Qed.

Lemma nk_Values_normalize p input parent k s :
  J s → keeps J (Values.normalize p input parent k visit) s.
Proof.
  intros Hs. unfold Values.normalize.
  apply nk_bind_stable; [apply stable_own_entries_of | exact Hs |].
  intros es s1 Hs1 _. apply nk_bind.
  - apply nk_foldM; [exact Hs1|]. intros output e s2 Hs2.
    case_match; [exact Hs2|].
    apply nk_bind; [apply nk_normalizeValue; exact Hs2|].
    intros w s3 Hs3. exact Hs3.
  - intros output s2 Hs2. apply nk_alloc. exact Hs2.
Qed.

Lemma nk_ArraySchema_normalize p input parent k s :
  J s → keeps J (ArraySchema.normalize p input parent k visit) s.
Proof.
  intros Hs. unfold ArraySchema.normalize.
  apply nk_bind_stable; [apply stable_getValues | exact Hs |].
  intros values s1 Hs1 _. apply nk_bind.
  - apply nk_mapM; [exact Hs1|]. intros; apply nk_normalizeValue; assumption.
  - intros out s2 Hs2. apply nk_alloc. exact Hs2.
Qed.

Lemma nk_visit_body T addEntity v parent k schema s :
  fresh_process T →
  (∀ e' p v par k' s', J s' → keeps J (addEntity e' p v par k') s') →
  J s → keeps J (visit_body T addEntity visit v parent k schema) s.
Proof.
  intros HT Hadd Hs. unfold visit_body, Union.normalize.
  repeat case_match;
    first [ exact Hs
          | apply nk_ArrayUtils_normalize; exact Hs
          | apply nk_ObjectUtils_normalize; exact Hs
          | apply nk_ArraySchema_normalize; exact Hs
          | apply nk_Values_normalize; exact Hs
          | apply nk_normalizeValue; exact Hs
          | apply nk_Entity_normalize;
            [eapply HT; eassumption | exact Hadd | exact Hs]
          | apply nk_bind_spread; [exact Hs|]; intros; assumption ].
Qed.

End normalize_frame.

Lemma nk_visit P E H fuel T :
  fresh_process T →
  ∀ v parent k schema s,
    protects P E H s →
    keeps (protects P E H)
      (visit fuel T (addEntities (VObject E)) v parent k schema) s.
Proof.
  intros HT. induction fuel as [|fuel IH]; intros v parent k schema s Hs.
  - exact Logic.I.
  - simpl. apply nk_visit_body; [exact IH | exact HT | | exact Hs].
    intros. apply nk_addEntities. assumption.
Qed.

(** The state in which [normalize] starts its traversal: the caller's
    heap [h] and, after it, the empty store. *)
Lemma protects_start (h : heap) :
  protects (λ l, (l < length h)%nat) (length h) h
    (State (h ++ [OPlain []]) ∅ ∅ ∅).
Proof.
  split; [|split; [lia|]].
  - intros l Hl. cbn [st_heap]. split; [rewrite length_app; lia|].
    apply lookup_app_l, Hl.
  - exists []. split; [apply heap_lookup_alloc|]. intros k v Hk. discriminate.
Qed.

Lemma protects_prefix (h : heap) s :
  protects (λ l, (l < length h)%nat) (length h) h s → h `prefix_of` st_heap s.
Proof.
  intros Hs. apply prefix_of_below.
  - pose proof (protects_store_lt _ _ _ _ Hs). lia.
  - intros l Hl. apply Hs, Hl.
Qed.



(** The condition on the process strategies is needed: with the strategy
    [(entity) => entity] the input article itself is processed, and its
    [author] is overwritten with the author's id. *)
Remark normalize_in_place_strategy :
  ∃ h',
    normalize 3 InPlaceExample.in_place_table (VObject 0) (SClass 1)
      RoundTripExample.article_heap
    = Returned {| entities := VObject 2; result := VString "123" |} h'
    ∧ h' !! 0%nat
      = Some (OPlain [("id", VString "123"); ("title", VString "My Article");
                      ("author", VString "1")]).
Proof. eexists. split; vm_compute; reflexivity. Qed.

(* --------------------------------------------------------------------- *)
(** ** What a normalize call builds *)

(** X9.  The store that [normalize] returns is its own.  When every
    process strategy answers a new object, [entities] is an object
    created by the call, and so is every bucket in it: no object of the
    caller is used as the store or as a bucket. *)
Theorem normalize_store_is_new fuel T input schema h r h' :
  fresh_process T →
  normalize fuel T input schema h = Returned r h' →
  entities r = VObject (length h)
  ∧ ∃ buckets,
      h' !! length h = Some (OPlain buckets)
      ∧ ∀ k v, assoc_get k buckets = Some v →
          ∃ b : loc, v = VObject b ∧ (length h < b)%nat.
Proof.
  intros HT. unfold normalize, run, normalize_in.
  destruct (negb (truthy input) || negb (String.eqb (typeof input) "object"));
    [discriminate|].
  unfold bind at 1. rewrite run_alloc. cbv beta iota.
  pose proof (nk_visit _ _ _ fuel T HT input input None (Some schema) _
                (protects_start h)) as Hk.
  unfold keeps, wp in Hk. unfold bind, ret. cbn [st_heap with_heap] in *.
  destruct (visit fuel T _ input input None (Some schema) _)
    as [res s2| |]; try discriminate.
  intros [= <- <-]. split; [reflexivity|].
  destruct Hk as (_ & _ & bs & HE & Hbs). exists bs. split; [exact HE|].
  intros k v Hk. destruct (Hbs k v Hk) as (b & -> & _ & Hlt). eauto.
Qed.

Lemma normalize_store_is_new_witness :
  ∃ r h',
    normalize 3 RoundTripExample.article_table (VObject 0) (SClass 1)
      RoundTripExample.article_heap = Returned r h'
    ∧ entities r = VObject 2
    ∧ ∃ buckets,
        h' !! 2%nat = Some (OPlain buckets)
        ∧ ∀ k v, assoc_get k buckets = Some v →
            ∃ b : loc, v = VObject b ∧ (2 < b)%nat.
Proof.
  do 2 eexists. split; [vm_compute; reflexivity|].
  eapply (normalize_store_is_new 3 RoundTripExample.article_table
            (VObject 0) (SClass 1) RoundTripExample.article_heap).
  - intros sid e He input parent k h l Hl.
    destruct sid as [|[|sid]]; simpl in He; try discriminate;
      injection He as <-; simpl in Hl; injection Hl as <-; lia.
  - vm_compute. reflexivity.
Defined.

(* --------------------------------------------------------------------- *)
(** ** Arrays *)

Lemma mapM_length {A B} (f : A → M B) (l : list A) s ys s' :
  mapM f l s = Ok ys s' → length ys = length l.
Proof.
  revert s ys s'. induction l as [|x l IH]; intros s ys s'; simpl.
  - intros [= <- _]. reflexivity.
  - unfold bind at 1. destruct (f x s) as [y s1| |]; try discriminate.
    unfold bind at 1.
    destruct (mapM f l s1) as [ys1 s2| |] eqn:Hl; try discriminate.
    intros [= <- _]. simpl. f_equal. eapply IH, Hl.
Qed.

Lemma getValues_state input s values s0 :
  ArrayUtils.getValues input s = Ok values s0 → s0 = s.
Proof.
  unfold ArrayUtils.getValues, own_entries_of, bind, get_heap, ret, throw.
  repeat case_match; try discriminate; congruence.
Qed.





Lemma map_method_array (f : value → M value) (l : loc) vs s r s' :
  st_heap s !! l = Some (OArray vs) →
  map_method f (VObject l) s = Ok r s' →
  ∃ h1 out,
    st_heap s' = h1 ++ [OArray out]
    ∧ r = VObject (length h1)
    ∧ length out = length vs.
Proof.
  intros Hl. unfold map_method. unfold bind at 1. rewrite run_get_heap.
  cbv beta iota. rewrite Hl. unfold bind at 1.
  destruct (mapM f vs s) as [out s1| |] eqn:Hmap; try discriminate.
  rewrite run_alloc. intros [= <- <-].
  exists (st_heap s1), out. split; [reflexivity|]. split; [reflexivity|].
  eapply mapM_length, Hmap.
Qed.

Lemma has_map_array h (l : loc) vs :
  h !! l = Some (OArray vs) → has_map h (VObject l) = true.
Proof. intros Hl. unfold has_map. rewrite Hl. reflexivity. Qed.



(* --------------------------------------------------------------------- *)
(** ** The tag of a polymorphic value *)



(* --------------------------------------------------------------------- *)
(** ** The fields of a normalized object *)

Lemma assoc_get_del {A} k k' (ps : list (string * A)) :
  assoc_get k (assoc_del k' ps)
  = if String.eqb k k' then None else assoc_get k ps.
Proof.
  induction ps as [|[k0 v0] ps IH]; simpl.
  - destruct (String.eqb k k'); reflexivity.
  - destruct (String.eqb k' k0) eqn:E0.
    + apply String.eqb_eq in E0. subst k0. rewrite IH.
      destruct (String.eqb k k'); reflexivity.
    + simpl. rewrite IH. destruct (String.eqb k k0) eqn:E1; [|reflexivity].
      apply String.eqb_eq in E1. subst k0.
      rewrite String.eqb_sym, E0. reflexivity.
Qed.

(** The object under construction is written by its own loop only. *)
Lemma protects_own_write (L E : loc) H s o :
  protects (eq L) E H s →
  protects (eq L) E (<[L := o]> (st_heap s))
    (with_heap (<[L := o]> (st_heap s)) s).
Proof.
  intros (HP & HnE & bs & HE & Hbs). unfold protects.
  cbn [st_heap with_heap]. split; [|split; [exact HnE|]].
  - intros l <-. split; [|reflexivity].
    rewrite heap_length_insert. apply (HP L eq_refl).
  - exists bs. split; [|exact Hbs].
    etrans; [|exact HE]. apply heap_lookup_insert_ne. exact HnE.
Qed.

Section object_fields.
Variables (T : schema_table) (E L : loc) (input : value) (n : nat).
Variable orig : list (string * value).
Hypothesis HT : fresh_process T.

Local Abbreviation fields_done := (fields_written E L orig).

Lemma fields_done_stable done s s' :
  st_heap s' = st_heap s → fields_done done s → fields_done done s'.
Proof.
  unfold fields_written. intros Heq [Hp Hcur]. rewrite Heq.
  split; [|exact Hcur]. eapply protects_stable; [exact Heq | exact Hp].
Qed.

Lemma fields_done_step done (f : string * Schema) s :
  fields_done done s →
  wp (let* h := get_heap in
      let resolvedLocalSchema := Entity.resolve h input f.2 in
      let* field := read_prop input f.1 in
      let* v := visit n T (addEntities (VObject E)) field input (Some f.1)
                  (Some resolvedLocalSchema) in
      if is_nullish v then delete (VObject L) f.1
      else assign (VObject L) f.1 v)
     (λ _ s', fields_done (done ++ [f.1]) s') (λ _ _, True) s.
Proof.
  intros Hs. apply wp_bind. unfold wp at 1. rewrite run_get_heap.
  apply wp_bind. apply wp_stable; [apply stable_read_prop | | auto].
  intros field s1 H1. apply (fields_done_stable _ _ _ H1) in Hs.
  destruct Hs as [Hp (cur & HL & Hdone & Hrest)].
  apply wp_bind. eapply wp_mono;
    [apply (nk_visit _ _ _ n T HT _ _ _ _ _ Hp) | | auto].
  intros v s2 Hp2. cbv beta in Hp2.
  assert (HL2 : st_heap s2 !! L = Some (OPlain cur)).
  { etrans; [apply (proj1 Hp2 L eq_refl) | exact HL]. }
  apply protects_rebase in Hp2.
  destruct (is_nullish v) eqn:Hv.
  - unfold wp, delete, bind, get_heap, put_heap, del_prop. rewrite HL2.
    split; [apply (protects_own_write _ _ _ _ _ Hp2)|].
    exists (assoc_del f.1 cur). cbn [st_heap with_heap]. split.
    { apply heap_lookup_insert_eq. eapply lookup_lt_Some, HL2. }
    split.
    + intros k w Hk. rewrite assoc_get_del.
      destruct (String.eqb k f.1) eqn:Ek; [discriminate|].
      apply String.eqb_neq in Ek. apply Hdone.
      apply elem_of_app in Hk as [Hk|Hk]; [exact Hk|].
      apply list_elem_of_singleton in Hk. contradiction.
    + intros k Hk. rewrite assoc_get_del.
      destruct (String.eqb k f.1) eqn:Ek.
      * apply String.eqb_eq in Ek. subst k. destruct Hk.
        apply elem_of_app. right. apply list_elem_of_singleton. reflexivity.
      * apply Hrest. intros Hin. apply Hk, elem_of_app. left. exact Hin.
  - unfold wp. rewrite run_assign, (set_prop_plain _ _ _ _ _ HL2).
    split; [apply (protects_own_write _ _ _ _ _ Hp2)|].
    exists (assoc_set f.1 v cur). cbn [st_heap with_heap]. split.
    { apply heap_lookup_insert_eq. eapply lookup_lt_Some, HL2. }
    split.
    + intros k w Hk. rewrite assoc_get_set.
      destruct (String.eqb k f.1) eqn:Ek; [intros [= <-]; exact Hv|].
      apply String.eqb_neq in Ek. apply Hdone.
      apply elem_of_app in Hk as [Hk|Hk]; [exact Hk|].
      apply list_elem_of_singleton in Hk. contradiction.
    + intros k Hk. rewrite assoc_get_set.
      destruct (String.eqb k f.1) eqn:Ek.
      * apply String.eqb_eq in Ek. subst k. destruct Hk.
        apply elem_of_app. right. apply list_elem_of_singleton. reflexivity.
      * apply Hrest. intros Hin. apply Hk, elem_of_app. left. exact Hin.
Qed.

Lemma fields_done_loop (rest : list (string * Schema)) :
  ∀ done s,
    fields_done done s →
    wp (forM_ (λ f : string * Schema,
                 let* h := get_heap in
                 let resolvedLocalSchema := Entity.resolve h input f.2 in
                 let* field := read_prop input f.1 in
                 let* v := visit n T (addEntities (VObject E)) field input
                             (Some f.1) (Some resolvedLocalSchema) in
                 if is_nullish v then delete (VObject L) f.1
                 else assign (VObject L) f.1 v)
          rest)
       (λ _ s', fields_done (done ++ rest.*1) s') (λ _ _, True) s.
Proof.
  induction rest as [|f rest IH]; intros done s Hs; simpl.
  - rewrite app_nil_r. exact Hs.
  - apply wp_bind. eapply wp_mono;
      [apply (fields_done_step done f s Hs) | | auto].
    intros u s1 Hs1. cbv beta.
    eapply wp_mono; [apply (IH (done ++ [f.1]) s1 Hs1) | | auto].
    intros u' s2 Hs2. cbv beta in Hs2. rewrite <- app_assoc in Hs2.
    exact Hs2.
Qed.

End object_fields.

Lemma spread_props_app (h t : heap) (l : loc) :
  (l < length h)%nat →
  spread_props (h ++ t) (VObject l) = spread_props h (VObject l).
Proof.
  intros Hl. unfold spread_props.
  destruct (h !! l) as [o|] eqn:Ho.
  - rewrite (lookup_app_l_Some _ _ _ _ Ho). reflexivity.
  - apply lookup_ge_None in Ho. lia.
Qed.


